(** * raindrop-mapping: collection hierarchy, resilient client, aggregation

    A shallow embedding of the JavaScript sources

      - [src/collections.js]  (graph construction, path / root / root-id
                               resolution, group prefixes),
      - [src/config.js]       (the retry and rate-limit constants),
      - [src/api.js]          (the retrying HTTP client),
      - [src/raindrops.js]    (per-collection export fetch and the
                               deduplicating aggregation loop),

    followed by the properties of the specification that concern them.

    Conventions.
      - JavaScript numbers that occur here are identifiers, attempt counters
        and millisecond delays; they are integers and are modelled by [Z].
      - A JavaScript [Map] is an insertion-ordered association list whose keys
        are scalars compared structurally (SameValueZero on scalars).
      - The network, the clock and the console are an explicit [world]: a
        scripted server, the number of requests issued so far, and the list
        of observable events (requests, sleeps, log lines).
      - The recursive resolvers of collections.js have no bound on their
        recursion depth; they are given a [fuel] argument that stands for the
        available call stack, and [None] means that it was exhausted. *)

From Stdlib Require Import ZArith List Ascii String Bool Arith Lia.

Set Warnings "-register-all".
Import ListNotations.

Local Open Scope string_scope.

(* ================================================================== *)
(** ** JavaScript values                                               *)
(* ================================================================== *)

Module Js.

(** Primitive values. *)
Inductive scalar : Type :=
| SUndef
| SNull
| SBool (b : bool)
| SNum (n : Z)
| SStr (s : string).

(** Values as they come out of a decoded JSON document: a primitive, or an
    object with named fields. *)
Inductive jsval : Type :=
| JScalar (s : scalar)
| JObj (fields : list (string * jsval)).

Definition scalar_eq_dec (a b : scalar) : {a = b} + {a <> b}.
Proof.
  decide equality;
    [ apply Bool.bool_dec | apply Z.eq_dec | apply string_dec ].
Defined.

Definition scalar_eqb (a b : scalar) : bool :=
  if scalar_eq_dec a b then true else false.

(** ToBoolean. *)
Definition truthy_s (s : scalar) : bool :=
  match s with
  | SUndef | SNull => false
  | SBool b => b
  | SNum n => negb (n =? 0)%Z
  | SStr s => negb (String.eqb s "")
  end.

Definition truthy (v : jsval) : bool :=
  match v with
  | JScalar s => truthy_s s
  | JObj _ => true
  end.

(** [a || b] *)
Definition or_s (a b : scalar) : scalar := if truthy_s a then a else b.
Definition or_v (a b : jsval) : jsval := if truthy a then a else b.

(** [typeof v === 'object'] *)
Definition typeof_object (v : jsval) : bool :=
  match v with
  | JObj _ | JScalar SNull => true
  | JScalar _ => false
  end.

Fixpoint lookup_field (k : string) (fs : list (string * jsval)) : jsval :=
  match fs with
  | [] => JScalar SUndef
  | (k', v) :: fs' => if String.eqb k k' then v else lookup_field k fs'
  end.

(** [v.k] for a [v] that is neither [null] nor [undefined]; the primitive
    wrappers have none of the field names read by this program. *)
Definition prop (v : jsval) (k : string) : jsval :=
  match v with
  | JObj fs => lookup_field k fs
  | JScalar _ => JScalar SUndef
  end.

End Js.
Import Js.

(* ================================================================== *)
(** ** JavaScript [Map]                                                *)
(* ================================================================== *)

Module JsMap.

Section Ops.
Context {V : Type}.

Definition t : Type := list (scalar * V).

Definition empty : t := [].

Fixpoint get (k : scalar) (m : t) : option V :=
  match m with
  | [] => None
  | (k', v) :: m' => if scalar_eqb k k' then Some v else get k m'
  end.

Definition has (k : scalar) (m : t) : bool :=
  match get k m with Some _ => true | None => false end.

(** [m.set(k, v)]: an existing key keeps its position. *)
Fixpoint set (k : scalar) (v : V) (m : t) : t :=
  match m with
  | [] => [(k, v)]
  | (k', v') :: m' =>
      if scalar_eqb k k' then (k, v) :: m' else (k', v') :: set k v m'
  end.

Definition keys (m : t) : list scalar := map fst m.

Definition entries (m : t) : list (scalar * V) := m.

End Ops.

Arguments t : clear implicits.

End JsMap.



(* ================================================================== *)
(** ** collections.js                                                  *)
(* ================================================================== *)

Module Collections.

(** A raw collection object of the service: the fields that
    [buildCollectionMap] reads.  An absent [_id], [id] or [parent] is
    [undefined]; the title is taken to be present and a string, so a
    collection without a title is outside this model. *)
Record rawCollection : Type := mkRaw {
  raw__id : scalar;       (* col._id    *)
  raw_id : scalar;        (* col.id     *)
  raw_title : string;     (* col.title  *)
  raw_parent : jsval      (* col.parent *)
}.

(** The node stored in the map: [{ id, title, parentId }]. *)
Record node : Type := mkNode {
  id : scalar;
  title : string;
  parentId : scalar
}.

Definition collectionMap : Type := JsMap.t node.

(** A raw group object: [group.title] (absent is the empty string, which
    [group.title || ''] yields as well) and [group.collections || []]. *)
Record rawGroup : Type := mkGroup {
  group_title : string;
  group_collections : list scalar
}.

(** [buildGroupMap]: every member id is set in turn, so a later group
    overwrites an earlier one. *)
Definition buildGroupMap (groups : list rawGroup) : JsMap.t string :=
  fold_left
    (fun map group =>
       let groupTitle := group_title group in
       fold_left (fun map collectionId => JsMap.set collectionId groupTitle map)
                 (group_collections group) map)
    groups JsMap.empty.

(** The right-hand side of
    [parentId = col.parent.$id || col.parent._id || col.parent.id || col.parent]
    followed by [if (typeof parentId === 'object') parentId = null]. *)
Definition extractParent (parent : jsval) : scalar :=
  match or_v (prop parent "$id")
             (or_v (prop parent "_id")
                   (or_v (prop parent "id") parent)) with
  | JObj _ => SNull
  | JScalar SNull => SNull
  | JScalar s => s
  end.

(** The inner function [addCollection(col, defaultParentId = null)]. *)
Definition addCollection (col : rawCollection) (defaultParentId : scalar)
           (map : collectionMap) : collectionMap :=
  let id := or_s (raw__id col) (raw_id col) in
  let parentId :=
    if truthy (raw_parent col) then extractParent (raw_parent col)
    else defaultParentId in
  JsMap.set id
            {| id := id;
               title := raw_title col;
               parentId := or_s parentId SNull |}
            map.

Definition buildCollectionMap (rootCollections childCollections : list rawCollection)
  : collectionMap :=
  let map := JsMap.empty in
  (* rootCollections.forEach((c) => addCollection(c, null)) *)
  let map := fold_left (fun m c => addCollection c SNull m) rootCollections map in
  (* childCollections.forEach((c) => addCollection(c)) *)
  let map := fold_left (fun m c => addCollection c SNull m) childCollections map in
  map.

(** The test [!node.parentId || !collectionMap.has(node.parentId)] shared by
    the three resolvers. *)
Definition isRootNode (collectionMap : collectionMap) (node : node) : bool :=
  negb (truthy_s (parentId node)) || negb (JsMap.has (parentId node) collectionMap).

(** [getPath], the inner function of [computeCollectionPaths].  The cache is
    threaded explicitly; [None] is an exhausted call stack. *)
Fixpoint getPath (fuel : nat) (collectionMap : collectionMap) (id : scalar)
         (pathCache : JsMap.t string) : option (string * JsMap.t string) :=
  match fuel with
  | O => None
  | S fuel' =>
      match JsMap.get id pathCache with
      | Some cached => Some (cached, pathCache)
      | None =>
          match JsMap.get id collectionMap with
          | None => Some ("", pathCache)
          | Some node =>
              if isRootNode collectionMap node then
                Some (title node, JsMap.set id (title node) pathCache)
              else
                match getPath fuel' collectionMap (parentId node) pathCache with
                | None => None
                | Some (parentPath, pathCache) =>
                    let fullPath := parentPath ++ " / " ++ title node in
                    Some (fullPath, JsMap.set id fullPath pathCache)
                end
          end
      end
  end.

(** [for (const id of collectionMap.keys()) f(id)] over a threaded cache. *)
Fixpoint forKeys {C R : Type} (f : scalar -> C -> option (R * C))
         (ids : list scalar) (cache : C) : option C :=
  match ids with
  | [] => Some cache
  | id :: rest =>
      match f id cache with
      | None => None
      | Some (_, cache') => forKeys f rest cache'
      end
  end.

Definition computeCollectionPaths (fuel : nat) (collectionMap : collectionMap)
  : option (JsMap.t string) :=
  forKeys (getPath fuel collectionMap) (JsMap.keys collectionMap) JsMap.empty.

(** [getRoot], the inner function of [computeRootCollections]. *)
Fixpoint getRoot (fuel : nat) (collectionMap : collectionMap) (id : scalar)
         (rootCache : JsMap.t string) : option (string * JsMap.t string) :=
  match fuel with
  | O => None
  | S fuel' =>
      match JsMap.get id rootCache with
      | Some cached => Some (cached, rootCache)
      | None =>
          match JsMap.get id collectionMap with
          | None => Some ("", rootCache)
          | Some node =>
              if isRootNode collectionMap node then
                Some (title node, JsMap.set id (title node) rootCache)
              else
                match getRoot fuel' collectionMap (parentId node) rootCache with
                | None => None
                | Some (root, rootCache) =>
                    Some (root, JsMap.set id root rootCache)
                end
          end
      end
  end.

Definition computeRootCollections (fuel : nat) (collectionMap : collectionMap)
  : option (JsMap.t string) :=
  forKeys (getRoot fuel collectionMap) (JsMap.keys collectionMap) JsMap.empty.

(** [getRootId], the inner function of [computeRootCollectionIds]. *)
Fixpoint getRootId (fuel : nat) (collectionMap : collectionMap) (id : scalar)
         (rootIdCache : JsMap.t scalar) : option (scalar * JsMap.t scalar) :=
  match fuel with
  | O => None
  | S fuel' =>
      match JsMap.get id rootIdCache with
      | Some cached => Some (cached, rootIdCache)
      | None =>
          match JsMap.get id collectionMap with
          | None => Some (SNull, rootIdCache)
          | Some node =>
              if isRootNode collectionMap node then
                Some (id, JsMap.set id id rootIdCache)
              else
                match getRootId fuel' collectionMap (parentId node) rootIdCache with
                | None => None
                | Some (rootId, rootIdCache) =>
                    Some (rootId, JsMap.set id rootId rootIdCache)
                end
          end
      end
  end.

Definition computeRootCollectionIds (fuel : nat) (collectionMap : collectionMap)
  : option (JsMap.t scalar) :=
  forKeys (getRootId fuel collectionMap) (JsMap.keys collectionMap) JsMap.empty.

(** The body of the loop of [computeFullPaths] for one entry [[id, path]]:
    [rootId ? groups.get(rootId) : ''], then the test [if (group)]. *)
Definition groupOf (rootIds : JsMap.t scalar) (groups : JsMap.t string)
           (id : scalar) : option string :=
  match JsMap.get id rootIds with
  | Some rootId => if truthy_s rootId then JsMap.get rootId groups else Some ""
  | None => Some ""
  end.

Definition fullPathOf (group : option string) (path : string) : string :=
  match group with
  | Some g => if String.eqb g "" then path else g ++ " / " ++ path
  | None => path
  end.

Definition computeFullPaths (paths : JsMap.t string) (rootIds : JsMap.t scalar)
           (groups : JsMap.t string) : JsMap.t string :=
  fold_left
    (fun fullPaths '(id, path) =>
       let group := groupOf rootIds groups id in
       JsMap.set id (fullPathOf group path) fullPaths)
    (JsMap.entries paths) JsMap.empty.

End Collections.

(* ================================================================== *)
(** ** config.js                                                       *)
(* ================================================================== *)

Module Config.

(** The fields of [config] that the client reads. *)
Record t : Type := mk {
  requestDelay : Z;   (* ms between requests *)
  maxRetries : Z;
  retryDelay : Z      (* ms before retry *)
}.

(** The object exported by config.js. *)
Definition config : t :=
  {| requestDelay := 200; maxRetries := 3; retryDelay := 1000 |}.

End Config.

(* ================================================================== *)
(** ** The world: network, clock, console                              *)
(* ================================================================== *)

Module World.

Local Open Scope list_scope.

(** An error object: its constructor name, [error.response?.status], and
    [error.cause]. *)
Inductive jsError : Type :=
| MkError (name : string) (status : option Z) (cause : option jsError).

Definition errName (e : jsError) : string :=
  match e with MkError n _ _ => n end.
Definition errStatus (e : jsError) : option Z :=
  match e with MkError _ s _ => s end.
Definition errCause (e : jsError) : option jsError :=
  match e with MkError _ _ c => c end.

(** What a [throw] can carry in this program: an error object, or the
    [undefined] of an unassigned [let lastError]. *)
Inductive thrown : Type :=
| TUndefined
| TError (e : jsError).

Inductive result (A : Type) : Type :=
| Returned (a : A)
| Threw (t : thrown).
Arguments Returned {A} a.
Arguments Threw {A} t.

(** The resource addressed by a request: a fixed endpoint path, or the
    template [`/raindrops/${collectionId}/export.csv`]. *)
Inductive url : Type :=
| Path (p : string)
| ExportCsv (collectionId : scalar).

(** The argument of [client.request]. *)
Record request : Type := mkRequest {
  rq_method : string;
  rq_url : url;
  rq_options : list (string * scalar)
}.

(** How the promise returned by the HTTP client settles. *)
Inductive outcome : Type :=
| Resolve (data : jsval)
| Reject (error : jsError).

(** The scripted remote service: the outcome of a request, given the number
    of requests issued before it. *)
Definition server : Type := request -> nat -> outcome.

(** The call site of a [delay(ms)]. *)
Inductive delaySite : Type :=
| Backoff      (* delay(retryWait)            *)
| Courtesy     (* delay(config.requestDelay)  *)
| Cooldown.    (* delay(5000)                 *)

(** One line of console output, by call site. *)
Inductive logLine : Type :=
| LogRetry (attempt maxRetries retryWait : Z)
| LogUnauthorized
| LogRateLimited
| LogServerError (status : Z)
| LogNotFound (collectionId : scalar)
| LogFetching (count : nat)
| LogProcessing (processed count : nat) (fullPath : scalar)
| LogFound (n : nat)
| LogFetchError (collectionId : scalar)
| LogTotal (totalRaindrops : nat).

Inductive event : Type :=
| EvRequest (rq : request)
| EvDelay (site : delaySite) (ms : Z)
| EvLog (line : logLine).

(** A computation with effects: from the number of requests issued so far to
    a result, the new number, and the events emitted in order. *)
Definition io (A : Type) : Type := nat -> result A * nat * list event.

Definition ret {A} (a : A) : io A := fun n => (Returned a, n, []).

Definition throw {A} (t : thrown) : io A := fun n => (Threw t, n, []).

Definition bind {A B} (m : io A) (k : A -> io B) : io B :=
  fun n =>
    match m n with
    | (Returned a, n1, ev1) =>
        match k a n1 with
        | (r, n2, ev2) => (r, n2, ev1 ++ ev2)
        end
    | (Threw t, n1, ev1) => (Threw t, n1, ev1)
    end.

(** [try { body } catch (error) { handler }] *)
Definition try_catch {A} (body : io A) (handler : thrown -> io A) : io A :=
  fun n =>
    match body n with
    | (Returned a, n1, ev1) => (Returned a, n1, ev1)
    | (Threw t, n1, ev1) =>
        match handler t n1 with
        | (r, n2, ev2) => (r, n2, ev1 ++ ev2)
        end
    end.

Definition emit (e : event) : io unit := fun n => (Returned tt, n, [e]).

Definition log (l : logLine) : io unit := emit (EvLog l).

(** [await delay(ms)] *)
Definition delay (site : delaySite) (ms : Z) : io unit := emit (EvDelay site ms).

(** [await client.request(rq)], returning [response.data]. *)
Definition send (srv : server) (rq : request) : io jsval :=
  fun n =>
    match srv rq n with
    | Resolve data => (Returned data, S n, [EvRequest rq])
    | Reject error => (Threw (TError error), S n, [EvRequest rq])
    end.

Definition resultOf {A} (x : result A * nat * list event) : result A := fst (fst x).
Definition callsOf {A} (x : result A * nat * list event) : nat := snd (fst x).
Definition eventsOf {A} (x : result A * nat * list event) : list event := snd x.

End World.
Import World.

Declare Scope io_scope.
Delimit Scope io_scope with io.
Notation "x <- m ;; k" := (bind m (fun x => k))
  (at level 61, m at next level, right associativity) : io_scope.
Notation "m ;; k" := (bind m (fun _ => k))
  (at level 61, right associativity) : io_scope.

(* ================================================================== *)
(** ** api.js                                                          *)
(* ================================================================== *)

Module Api.

Section Client.
Variable config : Config.t.
Variable srv : server.

Local Open Scope io_scope.
Local Open Scope Z_scope.

Definition statusIs (error : thrown) (code : Z) : bool :=
  match error with
  | TError e => match errStatus e with Some s => s =? code | None => false end
  | TUndefined => false
  end.

Definition statusAtLeast (error : thrown) (code : Z) : bool :=
  match error with
  | TError e => match errStatus e with Some s => code <=? s | None => false end
  | TUndefined => false
  end.

Definition statusOr0 (error : thrown) : Z :=
  match error with
  | TError e => match errStatus e with Some s => s | None => 0 end
  | TUndefined => 0
  end.

(** The loop of [apiRequest] from a given [attempt] on: [remaining] counts the
    iterations left, [Z.to_nat (maxRetries - attempt + 1)], and the code after
    the loop, [throw lastError], is the case where none is left. *)
Fixpoint apiRequestFrom (rq : request) (remaining : nat) (attempt : Z)
         (lastError : thrown) : io jsval :=
  match remaining with
  | O => throw lastError
  | S remaining' =>
      try_catch
        ((if 1 <? attempt then
            let retryWait := Config.retryDelay config * 2 ^ (attempt - 1) in
            log (LogRetry attempt (Config.maxRetries config) retryWait) ;;
            delay Backoff retryWait
          else ret tt) ;;
         data <- send srv rq ;;
         delay Courtesy (Config.requestDelay config) ;;
         ret data)
        (fun error =>
           let lastError := error in
           if statusIs error 401 then
             log LogUnauthorized ;;
             throw error
           else if statusIs error 429 then
             log LogRateLimited ;;
             delay Cooldown 5000 ;;
             apiRequestFrom rq remaining' (attempt + 1) lastError
           else if statusAtLeast error 500 then
             log (LogServerError (statusOr0 error)) ;;
             apiRequestFrom rq remaining' (attempt + 1) lastError
           else
             throw error)
  end.

(** [apiRequest(method, url, options = {})]; the request is
    [{ method, url, ...options }]. *)
Definition apiRequest (method : string) (u : url) (options : list (string * scalar))
  : io jsval :=
  apiRequestFrom (mkRequest method u options)
                 (Z.to_nat (Config.maxRetries config)) 1 TUndefined.

Definition get (u : url) : io jsval := apiRequest "GET" u [].

(** The loop of [getRaw], a second copy of the same loop around
    [client.get(url, { responseType: 'text' })]. *)
Fixpoint getRawFrom (u : url) (remaining : nat) (attempt : Z)
         (lastError : thrown) : io jsval :=
  match remaining with
  | O => throw lastError
  | S remaining' =>
      try_catch
        ((if 1 <? attempt then
            let retryWait := Config.retryDelay config * 2 ^ (attempt - 1) in
            log (LogRetry attempt (Config.maxRetries config) retryWait) ;;
            delay Backoff retryWait
          else ret tt) ;;
         data <- send srv (mkRequest "GET" u [("responseType", SStr "text")]) ;;
         delay Courtesy (Config.requestDelay config) ;;
         ret data)
        (fun error =>
           let lastError := error in
           if statusIs error 401 then
             log LogUnauthorized ;;
             throw error
           else if statusIs error 429 then
             log LogRateLimited ;;
             delay Cooldown 5000 ;;
             getRawFrom u remaining' (attempt + 1) lastError
           else if statusAtLeast error 500 then
             log (LogServerError (statusOr0 error)) ;;
             getRawFrom u remaining' (attempt + 1) lastError
           else
             throw error)
  end.

Definition getRaw (u : url) : io jsval :=
  getRawFrom u (Z.to_nat (Config.maxRetries config)) 1 TUndefined.

End Client.

End Api.

(* ================================================================== *)
(** ** JavaScript [Set] and plain objects with scalar fields           *)
(* ================================================================== *)

Module JsSet.

Definition t : Type := list scalar.

Definition empty : t := [].

Definition has (x : scalar) (s : t) : bool := existsb (scalar_eqb x) s.

Definition add (x : scalar) (s : t) : t := if has x s then s else (s ++ [x])%list.

End JsSet.

Module JsObject.

(** A row of the export, and the bookmark record made from it. *)
Definition t : Type := list (string * scalar).

(** [o.k] *)
Fixpoint get (k : string) (o : t) : scalar :=
  match o with
  | [] => SUndef
  | (k', v) :: o' => if String.eqb k k' then v else get k o'
  end.

(** [{ ...o, k: v }]: an own key keeps its place, a new one goes last. *)
Fixpoint set (k : string) (v : scalar) (o : t) : t :=
  match o with
  | [] => [(k, v)]
  | (k', v') :: o' =>
      if String.eqb k k' then (k, v) :: o' else (k', v') :: set k v o'
  end.

End JsObject.

(* ================================================================== *)
(** ** raindrops.js                                                    *)
(* ================================================================== *)

Module Raindrops.

Import Collections.

Section Aggregator.
Variable config : Config.t.
Variable srv : server.

(** [parseCsv(csvContent)]: the stream of the csv-parser package followed by
    [sanitizeRow]; the promise resolves with the rows or rejects. *)
Variable parseCsv : string -> result (list JsObject.t).

(** [s.trim() === ''] *)
Variable blank : string -> bool.

Local Open Scope io_scope.
Local Open Scope list_scope.

Definition typeError : jsError := MkError "TypeError" None None.

Definition fetchCollectionCsv (collectionId : scalar) : io jsval :=
  Api.getRaw config srv (ExportCsv collectionId).

Definition optScalar (o : option string) : scalar :=
  match o with Some s => SStr s | None => SUndef end.

(** The object literal of [rows.map]. *)
Definition tagRow (collectionId : scalar) (collectionTitle : string)
           (fullPath rootCollection : scalar) (group : string)
           (row : JsObject.t) : JsObject.t :=
  JsObject.set "group" (SStr group)
    (JsObject.set "root_collection" rootCollection
       (JsObject.set "full_path" fullPath
          (JsObject.set "collection_title" (SStr collectionTitle)
             (JsObject.set "collection_id" collectionId row)))).

Definition liftResult {A} (r : result A) : io A :=
  match r with
  | Returned a => ret a
  | Threw t => throw t
  end.

Definition fetchCollectionRaindrops (collectionId : scalar) (collectionTitle : string)
           (fullPath rootCollection : scalar) (group : string)
  : io (list JsObject.t) :=
  try_catch
    (csvContent <- fetchCollectionCsv collectionId ;;
     match csvContent with
     | JScalar (SStr s) =>
         (* !csvContent || csvContent.trim() === '' *)
         if String.eqb s "" || blank s then ret []
         else
           rows <- liftResult (parseCsv s) ;;
           ret (map (tagRow collectionId collectionTitle fullPath rootCollection group)
                    rows)
     | JScalar sc =>
         (* a falsy value is an empty collection; any other has no [trim] *)
         if truthy_s sc then throw (TError typeError) else ret []
     | JObj _ => throw (TError typeError)
     end)
    (fun error =>
       match error with
       | TUndefined => throw (TError typeError)   (* undefined.response *)
       | TError e =>
           match errStatus e with
           | Some 404%Z =>
               log (LogNotFound collectionId) ;;
               ret []
           | _ => throw error
           end
       end).

(** The variables of [fetchAllRaindrops] that its loops update. *)
Record state : Type := mkState {
  allRaindrops : list JsObject.t;
  seenIds : JsSet.t;
  processed : nat;
  totalRaindrops : nat
}.

(** One iteration of [for (const raindrop of raindrops)]. *)
Definition addRaindrop (st : state) (raindrop : JsObject.t) : state :=
  let raindropId := or_s (JsObject.get "id" raindrop) (JsObject.get "_id" raindrop) in
  if truthy_s raindropId && JsSet.has raindropId (seenIds st) then
    st                                                   (* continue *)
  else
    {| allRaindrops := allRaindrops st ++ [raindrop];
       seenIds := if truthy_s raindropId then JsSet.add raindropId (seenIds st)
                  else seenIds st;
       processed := processed st;
       totalRaindrops := S (totalRaindrops st) |}.

Definition addRaindrops (st : state) (raindrops : list JsObject.t) : state :=
  fold_left addRaindrop raindrops st.

(** One iteration of [for (const id of collectionIds)]. *)
Definition processCollection (collectionMap : collectionMap)
           (fullPaths roots groups : JsMap.t string) (count : nat)
           (st : state) (id : scalar) : io state :=
  let node := JsMap.get id collectionMap in
  let fullPath := optScalar (JsMap.get id fullPaths) in
  let root := optScalar (JsMap.get id roots) in
  let group := match JsMap.get id groups with
               | Some g => g           (* g || '' is g for a string *)
               | None => ""%string
               end in
  let st := {| allRaindrops := allRaindrops st; seenIds := seenIds st;
               processed := S (processed st);
               totalRaindrops := totalRaindrops st |} in
  log (LogProcessing (processed st) count fullPath) ;;
  try_catch
    (raindrops <- match node with
                  | Some node =>
                      fetchCollectionRaindrops id (title node) fullPath root group
                  | None => throw (TError typeError)      (* undefined.title *)
                  end ;;
     let st := addRaindrops st raindrops in
     (if (0 <? List.length raindrops)%nat then log (LogFound (List.length raindrops))
      else ret tt) ;;
     ret st)
    (fun error =>
       match error with
       | TUndefined => throw (TError typeError)   (* undefined.message *)
       | TError _ =>
           log (LogFetchError id) ;;
           ret st
       end).

Fixpoint forCollections (collectionMap : collectionMap)
         (fullPaths roots groups : JsMap.t string) (count : nat)
         (collectionIds : list scalar) (st : state) : io state :=
  match collectionIds with
  | [] => ret st
  | id :: rest =>
      st <- processCollection collectionMap fullPaths roots groups count st id ;;
      forCollections collectionMap fullPaths roots groups count rest st
  end.

Definition fetchAllRaindrops (collectionMap : collectionMap)
           (fullPaths roots groups : JsMap.t string) : io (list JsObject.t) :=
  let st := {| allRaindrops := []; seenIds := JsSet.empty;
               processed := 0; totalRaindrops := 0 |} in
  let collectionIds := JsMap.keys collectionMap in
  log (LogFetching (List.length collectionIds)) ;;
  st <- forCollections collectionMap fullPaths roots groups
                       (List.length collectionIds) collectionIds st ;;
  log (LogTotal (totalRaindrops st)) ;;
  ret (allRaindrops st).

End Aggregator.

End Raindrops.

(* ================================================================== *)
(** ** Vocabulary of the properties                                    *)
(* ================================================================== *)

Module Graph.

Import Collections.

(** The key under which [addCollection] files a raw object. *)
Definition rawId (col : rawCollection) : scalar :=
  or_s (raw__id col) (raw_id col).

(** The id into which a resolver recurses from [id], if it does. *)
Definition parentStep (cm : collectionMap) (id : scalar) : option scalar :=
  match JsMap.get id cm with
  | Some nd => if isRootNode cm nd then None else Some (parentId nd)
  | None => None
  end.

(** The [k]-th ancestor along the recursion, [None] once the walk has
    stopped at a root. *)
Fixpoint ancestor (cm : collectionMap) (k : nat) (id : scalar) : option scalar :=
  match k with
  | O => Some id
  | S k' =>
      match parentStep cm id with
      | Some p => ancestor cm k' p
      | None => None
      end
  end.

(** [id] lies on a cycle of parent references. *)
Definition OnCycle (cm : collectionMap) (id : scalar) : Prop :=
  exists k, ancestor cm (S k) id = Some id.

(** The parent chain of [id] never reaches a root. *)
Definition Endless (cm : collectionMap) (id : scalar) : Prop :=
  forall k, ancestor cm k id <> None.

(** The three resolvers are one memoised walk up the parent chain; they
    differ in the value of a missing node, of a root, and of a child. *)
Section Walk.
Context {R : Type}.
Variable missing : R.
Variable base : scalar -> node -> R.
Variable step : R -> node -> R.

Fixpoint walk (fuel : nat) (cm : collectionMap) (id : scalar)
         (cache : JsMap.t R) : option (R * JsMap.t R) :=
  match fuel with
  | O => None
  | S fuel' =>
      match JsMap.get id cache with
      | Some cached => Some (cached, cache)
      | None =>
          match JsMap.get id cm with
          | None => Some (missing, cache)
          | Some nd =>
              if isRootNode cm nd then
                Some (base id nd, JsMap.set id (base id nd) cache)
              else
                match walk fuel' cm (parentId nd) cache with
                | None => None
                | Some (r, cache') =>
                    Some (step r nd, JsMap.set id (step r nd) cache')
                end
          end
      end
  end.

End Walk.

Definition pathWalk :=
  walk "" (fun _ nd => title nd)
       (fun parentPath nd => parentPath ++ " / " ++ title nd).
Definition rootWalk :=
  walk "" (fun _ nd => title nd) (fun root (_ : node) => root).
Definition rootIdWalk :=
  walk SNull (fun id (_ : node) => id) (fun rootId (_ : node) => rootId).

(** A cache that holds no id whose chain is endless. *)
Definition Sound {R} (cm : collectionMap) (cache : JsMap.t R) : Prop :=
  forall x, JsMap.has x cache = true -> ~ Endless cm x.

(** A cache in which every root node has its base value. *)
Definition RootsRight {R} (base : scalar -> node -> R) (cm : collectionMap)
           (cache : JsMap.t R) : Prop :=
  forall x nd v,
    JsMap.get x cm = Some nd -> isRootNode cm nd = true ->
    JsMap.get x cache = Some v -> v = base x nd.

(** Two collections that name each other as parent. *)
Definition twoCycle : collectionMap :=
  buildCollectionMap []
    [ mkRaw (SNum 1) SUndef "A" (JObj [("$id", JScalar (SNum 2))]);
      mkRaw (SNum 2) SUndef "B" (JObj [("$id", JScalar (SNum 1))]) ].

(** A root object that carries a parent reference. *)
Definition rootWithParent : rawCollection :=
  mkRaw (SNum 1) SUndef "A" (JObj [("$id", JScalar (SNum 2))]).

(** The end-to-end example of the specification. *)
Definition exampleRoots : list rawCollection :=
  [ mkRaw SUndef (SNum 1) "A" (JScalar SUndef) ].
Definition exampleChildren : list rawCollection :=
  [ mkRaw SUndef (SNum 2) "B" (JScalar (SNum 1));
    mkRaw SUndef (SNum 3) "C" (JScalar (SNum 2)) ].
Definition exampleMap : collectionMap :=
  buildCollectionMap exampleRoots exampleChildren.
Definition exampleGroups : JsMap.t string :=
  buildGroupMap [ mkGroup "G" [SNum 1] ].

(** A root collection whose id is 0, and a group that lists it. *)
Definition zeroRootMap : collectionMap :=
  buildCollectionMap [ mkRaw SUndef (SNum 0) "X" (JScalar SUndef) ] [].
Definition zeroRootGroups : JsMap.t string :=
  buildGroupMap [ mkGroup "G" [SNum 0] ].

(** A child whose parent, 99, is not in the graph. *)
Definition orphanMap : collectionMap :=
  buildCollectionMap
    [ mkRaw (SNum 1) SUndef "A" (JScalar SUndef) ]
    [ mkRaw (SNum 2) SUndef "B" (JObj [("$id", JScalar (SNum 99))]) ].

(** The composition made by [loadCollections]. *)
Definition fullPathsOf (fuel : nat) (cm : collectionMap) (groups : JsMap.t string)
  : option (JsMap.t string) :=
  match computeCollectionPaths fuel cm, computeRootCollectionIds fuel cm with
  | Some paths, Some rootIds => Some (computeFullPaths paths rootIds groups)
  | _, _ => None
  end.

End Graph.

Module Traffic.

Local Open Scope list_scope.
Local Open Scope Z_scope.

(** The sleeps of a trace, in order, with their call sites. *)
Fixpoint waits (evs : list event) : list (delaySite * Z) :=
  match evs with
  | [] => []
  | EvDelay site ms :: evs' => (site, ms) :: waits evs'
  | _ :: evs' => waits evs'
  end.

(** The sleeps made at the back-off site. *)
Fixpoint backoffWaits (evs : list event) : list Z :=
  match evs with
  | [] => []
  | EvDelay Backoff ms :: evs' => ms :: backoffWaits evs'
  | _ :: evs' => backoffWaits evs'
  end.

(** A run with some events put in front. *)
Definition after {A} (evs : list event) (x : result A * nat * list event)
  : result A * nat * list event :=
  (resultOf x, callsOf x, evs ++ eventsOf x).

(** What an attempt numbered [attempt] does before its request. *)
Definition prelude (config : Config.t) (attempt : Z) : list event :=
  if 1 <? attempt then
    [ EvLog (LogRetry attempt (Config.maxRetries config)
                      (Config.retryDelay config * 2 ^ (attempt - 1)));
      EvDelay Backoff (Config.retryDelay config * 2 ^ (attempt - 1)) ]
  else [].

(** The request issued by [getRaw]. *)
Definition rawRequest (u : url) : request :=
  mkRequest "GET" u [("responseType", SStr "text")].

(** The outcome is a failure whose status is 500 or more. *)
Definition serverError (o : outcome) : bool :=
  match o with
  | Reject e => match errStatus e with Some s => 500 <=? s | None => false end
  | Resolve _ => false
  end.

(** The outcome is a failure after which the client tries again. *)
Definition retryable (o : outcome) : bool :=
  match o with
  | Reject e =>
      match errStatus e with
      | Some s => (s =? 429) || (500 <=? s)
      | None => false
      end
  | Resolve _ => false
  end.

(** The outcome is a failure with status 401. *)
Definition unauthorized (o : outcome) : bool :=
  match o with
  | Reject e => match errStatus e with Some s => s =? 401 | None => false end
  | Resolve _ => false
  end.

(** The error of a failed outcome. *)
Definition thrownBy (o : outcome) : thrown :=
  match o with
  | Reject e => TError e
  | Resolve _ => TUndefined
  end.

(** [t] is a fresh error of class [cls] that wraps [inner]. *)
Definition Wraps (cls : string) (inner : jsError) (t : thrown) : Prop :=
  exists status, t = TError (MkError cls status (Some inner)).

(** A run of the retry loop for [rq], begun when [n] requests had been
    issued, in which every one of the [m] attempts met a server error: the
    error of the last attempt is thrown as it is, [m] requests were made,
    and there were [m - 1] sleeps, each of them a back-off sleep. *)
Definition Exhausted (srv : server) (rq : request)
           (n m : nat) (x : result jsval * nat * list event) : Prop :=
  resultOf x = Threw (thrownBy (srv rq (n + (m - 1))%nat)) /\
  callsOf x = (n + m)%nat /\
  map fst (waits (eventsOf x)) = repeat Backoff (m - 1).

(** A run that ends with the 401 of its attempt number [k + 1]: the error
    is thrown as it is, no request follows, and nothing but the log line
    comes after the failed request. *)
Definition AbortedOn401 (srv : server) (rq : request) (n k : nat)
           (x : result jsval * nat * list event) : Prop :=
  resultOf x = Threw (thrownBy (srv rq (n + k)%nat)) /\
  callsOf x = S (n + k) /\
  exists before, eventsOf x = before ++ [EvRequest rq; EvLog LogUnauthorized].

(** A server that answers the [n]-th request overall with the [n]-th entry
    of a script, and with [fallback] afterwards. *)
Definition scripted (script : list outcome) (fallback : outcome) : server :=
  fun _ n => nth n script fallback.

(** A service that answers every request with a 500. *)
Definition alwaysDown : server := scripted [] (Reject (MkError "AxiosError" (Some 500) None)).

(** A service that fails twice with a 500 and then delivers. *)
Definition twiceDown (data : jsval) : server :=
  scripted [ Reject (MkError "AxiosError" (Some 500) None);
             Reject (MkError "AxiosError" (Some 500) None) ]
           (Resolve data).

(** A service that fails with a 500, then with a 429, then with a 401. *)
Definition thenUnauthorized : server :=
  scripted [ Reject (MkError "AxiosError" (Some 500) None);
             Reject (MkError "AxiosError" (Some 429) None) ]
           (Reject (MkError "AxiosError" (Some 401) None)).

Definition error500 : jsError := MkError "AxiosError" (Some 500) None.
Definition error401 : jsError := MkError "AxiosError" (Some 401) None.
Definition error404 : jsError := MkError "AxiosError" (Some 404) None.

End Traffic.

Module Harvest.

Import Collections Raindrops Traffic.

Local Open Scope list_scope.

(** The identifier under which the aggregation loop files a record:
    [raindrop.id || raindrop._id]. *)
Definition raindropId (raindrop : JsObject.t) : scalar :=
  or_s (JsObject.get "id" raindrop) (JsObject.get "_id" raindrop).

Definition hasId (x : scalar) (raindrop : JsObject.t) : bool :=
  scalar_eqb (raindropId raindrop) x.

(** A record without a usable identifier. *)
Definition anonymous (raindrop : JsObject.t) : bool :=
  negb (truthy_s (raindropId raindrop)).

(** The state after [processed++]. *)
Definition bump (st : state) : state :=
  {| allRaindrops := allRaindrops st; seenIds := seenIds st;
     processed := S (processed st); totalRaindrops := totalRaindrops st |}.

(** The state after [k] collections have been counted. *)
Fixpoint bumps (k : nat) (st : state) : state :=
  match k with
  | O => st
  | S k' => bump (bumps k' st)
  end.

(** The state in which [fetchAllRaindrops] enters its loop. *)
Definition start : state :=
  {| allRaindrops := []; seenIds := JsSet.empty;
     processed := 0; totalRaindrops := 0 |}.

(** The number of [Processing] lines of a trace. *)
Fixpoint processingLines (evs : list event) : nat :=
  match evs with
  | [] => 0
  | EvLog (LogProcessing _ _ _) :: evs' => S (processingLines evs')
  | _ :: evs' => processingLines evs'
  end.

Section Run.
Variable config : Config.t.
Variable srv : server.
Variable parseCsv : string -> result (list JsObject.t).
Variable blank : string -> bool.
Variable cm : collectionMap.
Variables fullPaths roots groups : JsMap.t string.

(** The fetch that [fetchAllRaindrops] makes for collection [id]. *)
Definition exportOf (id : scalar) : io (list JsObject.t) :=
  match JsMap.get id cm with
  | Some nd =>
      fetchCollectionRaindrops config srv parseCsv blank id (title nd)
        (optScalar (JsMap.get id fullPaths)) (optScalar (JsMap.get id roots))
        (match JsMap.get id groups with Some g => g | None => ""%string end)
  | None => throw (TError typeError)
  end.

(** The records that the run obtains for each collection in turn, the
    first fetch being made when [n] requests had been issued; a fetch that
    fails yields none. *)
Fixpoint fetched (ids : list scalar) (n : nat) : list (scalar * list JsObject.t) :=
  match ids with
  | [] => []
  | id :: rest =>
      let x := exportOf id n in
      (id, match resultOf x with Returned rows => rows | Threw _ => [] end)
        :: fetched rest (callsOf x)
  end.

(** The record carries the metadata of collection [id]. *)
Definition TaggedFor (id : scalar) (raindrop : JsObject.t) : Prop :=
  JsObject.get "collection_id" raindrop = id /\
  JsObject.get "collection_title" raindrop
  = match JsMap.get id cm with Some nd => SStr (title nd) | None => SUndef end /\
  JsObject.get "full_path" raindrop = optScalar (JsMap.get id fullPaths) /\
  JsObject.get "root_collection" raindrop = optScalar (JsMap.get id roots) /\
  JsObject.get "group" raindrop
  = SStr (match JsMap.get id groups with Some g => g | None => ""%string end).

End Run.

(** A toy export format: one row per character of the content, with the
    character as its [id]; the character ["-"] makes a row without id. *)
Fixpoint toyRows (s : string) : list JsObject.t :=
  match s with
  | EmptyString => []
  | String c s' =>
      (if Ascii.eqb c "-"%char then [("title", SStr "untitled")]
       else [("id", SStr (String c EmptyString))])
        :: toyRows s'
  end.

Definition toyParse (s : string) : result (list JsObject.t) := Returned (toyRows s).

Definition toyBlank (s : string) : bool := String.eqb s " ".

(** A service with three collections: the export of 1 holds bookmarks a
    and b and a row without id, that of 2 is not found, that of 3 holds
    b, c and the same row without id. *)
Definition toyServer : server :=
  fun rq _ =>
    match rq_url rq with
    | ExportCsv (SNum 1) => Resolve (JScalar (SStr "ab-"))
    | ExportCsv (SNum 3) => Resolve (JScalar (SStr "bc-"))
    | _ => Reject error404
    end.

Definition toyMap : collectionMap :=
  buildCollectionMap
    [ mkRaw (SNum 1) SUndef "One" (JScalar SUndef);
      mkRaw (SNum 2) SUndef "Two" (JScalar SUndef) ]
    [ mkRaw (SNum 3) SUndef "Three" (JScalar (SNum 1)) ].

Definition toyFullPaths : JsMap.t string :=
  [(SNum 1, "G / One"); (SNum 2, "Two"); (SNum 3, "G / One / Three")]%string.
Definition toyRoots : JsMap.t string :=
  [(SNum 1, "One"); (SNum 2, "Two"); (SNum 3, "One")]%string.
Definition toyGroups : JsMap.t string := [(SNum 1, "G")]%string.

(** The records of the exports of 1 and 3, with their metadata. *)
Definition toyBatch1 : list JsObject.t :=
  map (tagRow (SNum 1) "One" (SStr "G / One") (SStr "One") "G") (toyRows "ab-").
Definition toyBatch3 : list JsObject.t :=
  map (tagRow (SNum 3) "Three" (SStr "G / One / Three") (SStr "One") "")
      (toyRows "bc-").

Definition toyRun : result (list JsObject.t) * nat * list event :=
  fetchAllRaindrops Config.config toyServer toyParse toyBlank
                    toyMap toyFullPaths toyRoots toyGroups 0.

(** The same service, except that the export of 2 answers 500 each time. *)
Definition toyServerDown : server :=
  fun rq n =>
    match rq_url rq with
    | ExportCsv (SNum 2) => Reject error500
    | _ => toyServer rq n
    end.

End Harvest.

(* ================================================================== *)
(** ** Further vocabulary: the tables of the hierarchy                 *)
(* ================================================================== *)

Module Tables.

Import Collections Graph.

(** Every cached id has a parent chain that ends at a root. *)
Definition Grounded {R} (cm : collectionMap) (cache : JsMap.t R) : Prop :=
  forall x, JsMap.has x cache = true -> exists k, ancestor cm k x = None.

(** Every cached id is a key of the map. *)
Definition Within {R} (cm : collectionMap) (cache : JsMap.t R) : Prop :=
  forall x, JsMap.has x cache = true -> JsMap.has x cm = true.

(** Every cached value obeys the equations of the resolver: a root has its
    base value, a child has the step of the cached value of its parent. *)
Definition Coherent {R} (base : scalar -> node -> R) (step : R -> node -> R)
           (cm : collectionMap) (cache : JsMap.t R) : Prop :=
  forall x nd v,
    JsMap.get x cm = Some nd -> JsMap.get x cache = Some v ->
    if isRootNode cm nd then v = base x nd
    else exists vp, JsMap.get (parentId nd) cache = Some vp /\ v = step vp nd.

(** The nodes from [id] upwards, [id] first, as far as [fuel] reaches. *)
Fixpoint lineage (fuel : nat) (cm : collectionMap) (id : scalar) : list node :=
  match fuel with
  | O => []
  | S fuel' =>
      match JsMap.get id cm with
      | None => []
      | Some nd =>
          if isRootNode cm nd then [nd]
          else nd :: lineage fuel' cm (parentId nd)
      end
  end.

(** [titles.join(" / ")] *)
Fixpoint joinPath (titles : list string) : string :=
  match titles with
  | [] => ""
  | [t] => t
  | t :: rest => t ++ " / " ++ joinPath rest
  end.

(** The orphans that [loadCollections] reports: the entries with
    [node.parentId && !map.has(node.parentId)], as
    [{ id, title, missingParentId }]. *)
Definition orphansOf (map : collectionMap) : list (scalar * string * scalar) :=
  fold_left
    (fun orphans '(id, nd) =>
       if truthy_s (parentId nd) && negb (JsMap.has (parentId nd) map)
       then (orphans ++ [(id, title nd, parentId nd)])%list
       else orphans)
    (JsMap.entries map) [].

(** The last raw object of a sequence that is filed under key [k]. *)
Fixpoint lastWithId (k : scalar) (cols : list rawCollection) : option rawCollection :=
  match cols with
  | [] => None
  | c :: rest =>
      match lastWithId k rest with
      | Some c' => Some c'
      | None => if scalar_eqb (rawId c) k then Some c else None
      end
  end.

(** The node that [addCollection] makes of a raw object. *)
Definition nodeOf (col : rawCollection) : node :=
  {| id := rawId col;
     title := raw_title col;
     parentId := or_s (if truthy (raw_parent col)
                       then extractParent (raw_parent col) else SNull) SNull |}.

(** The title of the last group of a sequence that lists [id]. *)
Fixpoint lastGroupOf (id : scalar) (groups : list rawGroup) : option string :=
  match groups with
  | [] => None
  | g :: rest =>
      match lastGroupOf id rest with
      | Some t => Some t
      | None => if existsb (scalar_eqb id) (group_collections g)
                then Some (group_title g) else None
      end
  end.

End Tables.

(* ================================================================== *)
(** ** Further vocabulary: the client                                  *)
(* ================================================================== *)

Module Schedule.

Import Traffic.

Local Open Scope list_scope.
Local Open Scope Z_scope.

(** The outcome is a failure with status 429. *)
Definition rateLimited (o : outcome) : bool :=
  match o with
  | Reject e => match errStatus e with Some s => s =? 429 | None => false end
  | Resolve _ => false
  end.

(** The position, counted from 0, of the first of the next [budget]
    outcomes for [rq] that is not a retryable failure, the first of them
    being the outcome of request number [n]. *)
Fixpoint firstDecisive (srv : server) (rq : request) (n budget : nat)
  : option nat :=
  match budget with
  | O => None
  | S budget' =>
      if retryable (srv rq n) then
        match firstDecisive srv rq (S n) budget' with
        | Some k => Some (S k)
        | None => None
        end
      else Some O
  end.

(** What the retry loop makes of a service, by the outcomes alone: the
    first outcome within the budget that is not a retryable failure decides,
    and when there is none the last error is thrown. *)
Definition verdict (srv : server) (rq : request) (n budget : nat)
  : result jsval * nat :=
  match firstDecisive srv rq n budget with
  | Some k =>
      (match srv rq (n + k)%nat with
       | Resolve data => Returned data
       | Reject e => Threw (TError e)
       end,
       S (n + k))
  | None =>
      (Threw (match budget with
              | O => TUndefined
              | S b => thrownBy (srv rq (n + b)%nat)
              end),
       (n + budget)%nat)
  end.

(** The number of 429 answers among [k] outcomes from request [n] on. *)
Fixpoint limitedIn (srv : server) (rq : request) (n k : nat) : nat :=
  match k with
  | O => 0%nat
  | S k' => ((if rateLimited (srv rq n) then 1 else 0)
             + limitedIn srv rq (S n) k')%nat
  end.

(** The sleeps made at the cool-down site and at the courtesy site. *)
Fixpoint cooldownWaits (evs : list event) : list Z :=
  match evs with
  | [] => []
  | EvDelay Cooldown ms :: evs' => ms :: cooldownWaits evs'
  | _ :: evs' => cooldownWaits evs'
  end.

Fixpoint courtesyWaits (evs : list event) : list Z :=
  match evs with
  | [] => []
  | EvDelay Courtesy ms :: evs' => ms :: courtesyWaits evs'
  | _ :: evs' => courtesyWaits evs'
  end.

(** The requests of a trace. *)
Fixpoint requestsIn (evs : list event) : list request :=
  match evs with
  | [] => []
  | EvRequest rq :: evs' => rq :: requestsIn evs'
  | _ :: evs' => requestsIn evs'
  end.

(** A service that answers 429 twice and then delivers. *)
Definition twiceLimited (data : jsval) : server :=
  scripted [ Reject (MkError "AxiosError" (Some 429) None);
             Reject (MkError "AxiosError" (Some 429) None) ]
           (Resolve data).

(** A service that answers 500 and then 404. *)
Definition thenNotFound : server :=
  scripted [ Reject (MkError "AxiosError" (Some 500) None) ]
           (Reject error404).

End Schedule.

(* ================================================================== *)
(** ** Further vocabulary: the aggregation                             *)
(* ================================================================== *)

Module Merge.

Import Collections Raindrops Harvest.

Local Open Scope list_scope.

(** [l1] is [l2] with some elements left out. *)
Inductive Subseq {A : Type} : list A -> list A -> Prop :=
| SubseqNil : Subseq [] []
| SubseqSkip a l1 l2 : Subseq l1 l2 -> Subseq l1 (a :: l2)
| SubseqKeep a l1 l2 : Subseq l1 l2 -> Subseq (a :: l1) (a :: l2).

(** The truthy identifiers of a list of records, in order. *)
Definition identifiers (raindrops : list JsObject.t) : list scalar :=
  filter truthy_s (map raindropId raindrops).

(** The five columns that [tagRow] sets. *)
Definition customColumns : list string :=
  ["collection_id"; "collection_title"; "full_path"; "root_collection"; "group"]%string.

(** A state in which the set of seen identifiers and the counter agree
    with the records gathered. *)
Definition Tidy (st : state) : Prop :=
  NoDup (identifiers (allRaindrops st)) /\
  (forall x, JsSet.has x (seenIds st) = true <-> In x (identifiers (allRaindrops st))) /\
  totalRaindrops st = List.length (allRaindrops st).

End Merge.

(* ================================================================== *)
(** ** raindrops.js: [sanitizeValue]                                   *)
(* ================================================================== *)

Module Sanitize.

Local Open Scope list_scope.
Local Open Scope N_scope.

(** A JavaScript string: its UTF-16 code units. *)
Definition text : Type := list N.

(** The class [[\r\n\t]]. *)
Definition isBreakOrTab (c : N) : bool :=
  (c =? 9) || (c =? 10) || (c =? 13).

(** The class [\s], which is also what [trim] strips: the white space and
    the line terminators of the language. *)
Definition isSpace (c : N) : bool :=
  (c =? 9) || (c =? 10) || (c =? 11) || (c =? 12) || (c =? 13) || (c =? 32)
  || (c =? 160) || (c =? 5760)
  || ((8192 <=? c) && (c <=? 8202))
  || (c =? 8232) || (c =? 8233) || (c =? 8239) || (c =? 8287)
  || (c =? 12288) || (c =? 65279).

(** [s.replace(/[cls]+/g, ' ')], read from left to right; [inRun] tells
    that the character before was of the class, its run being replaced
    already. *)
Fixpoint collapse (cls : N -> bool) (inRun : bool) (s : text) : text :=
  match s with
  | [] => []
  | c :: rest =>
      if cls c then
        if inRun then collapse cls true rest else 32 :: collapse cls true rest
      else c :: collapse cls false rest
  end.

Definition replaceRuns (cls : N -> bool) (s : text) : text := collapse cls false s.

Fixpoint trimStart (s : text) : text :=
  match s with
  | [] => []
  | c :: rest => if isSpace c then trimStart rest else s
  end.

Fixpoint trimEnd (s : text) : text :=
  match s with
  | [] => []
  | c :: rest =>
      match trimEnd rest with
      | [] => if isSpace c then [] else [c]
      | kept => c :: kept
      end
  end.

(** [s.trim()] *)
Definition trim (s : text) : text := trimEnd (trimStart s).

(** A value of a parsed row: a string, or anything else. *)
Inductive cell : Type :=
| Text (s : text)
| NotText (v : scalar).

Definition sanitizeValue (value : cell) : cell :=
  match value with
  | NotText v => NotText v            (* typeof value !== 'string' *)
  | Text s =>
      Text (trim (replaceRuns isSpace (replaceRuns isBreakOrTab s)))
  end.

(** The string of a sanitised string. *)
Definition sanitizeText (s : text) : text :=
  trim (replaceRuns isSpace (replaceRuns isBreakOrTab s)).

(** Every space of [s] is U+0020 and follows a character that is not a
    space; [afterSpace] tells whether the character before [s] was one. *)
Fixpoint wellSpaced (afterSpace : bool) (s : text) : bool :=
  match s with
  | [] => true
  | c :: rest =>
      if isSpace c then (c =? 32) && negb afterSpace && wellSpaced true rest
      else wellSpaced false rest
  end.

(** The words of a string: its maximal runs of characters that are not
    spaces.  [word] is the run being read, in reverse. *)
Fixpoint wordsFrom (word : text) (s : text) : list text :=
  match s with
  | [] => match word with [] => [] | _ => [rev word] end
  | c :: rest =>
      if isSpace c then
        match word with
        | [] => wordsFrom [] rest
        | _ => rev word :: wordsFrom [] rest
        end
      else wordsFrom (c :: word) rest
  end.

Definition words (s : text) : list text := wordsFrom [] s.

(** [ws.join(' ')] *)
Fixpoint unwords (ws : list text) : text :=
  match ws with
  | [] => []
  | [w] => w
  | w :: rest => w ++ 32 :: unwords rest
  end.

End Sanitize.

(* ================================================================== *)
(** ** index.js: the table of the raindrops                             *)
(* ================================================================== *)

Module StrSet.

(** A JavaScript [Set] of strings, in insertion order. *)
Definition t : Type := list string.

Definition empty : t := [].

Definition has (k : string) (s : t) : bool := existsb (String.eqb k) s.

Definition add (k : string) (s : t) : t := if has k s then s else (s ++ [k])%list.

Definition delete (k : string) (s : t) : t :=
  filter (fun x => negb (String.eqb x k)) s.

End StrSet.

Module Index.

Import Collections.

Local Open Scope list_scope.

(** The columns that [writeRaindropsCsv] puts last. *)
Definition customColumns : list string :=
  ["collection_id"; "collection_title"; "full_path"; "root_collection"; "group"]%string.

(** What [writeRaindropsCsv] does with the file. *)
Inductive written : Type :=
| NothingWritten
| File (path : string) (headers : list string) (records : list JsObject.t).

Section Raindrops.

(** [Object.keys(row)] *)
Variable objectKeys : JsObject.t -> list string.

(** The header row of [writeRaindropsCsv]. *)
Definition raindropHeaders (raindrops : list JsObject.t) : list string :=
  let headerSet :=
    fold_left
      (fun headerSet row =>
         fold_left (fun headerSet key => StrSet.add key headerSet)
                   (objectKeys row) headerSet)
      raindrops StrSet.empty in
  let headerSet :=
    fold_left (fun headerSet col => StrSet.delete col headerSet)
              customColumns headerSet in
  headerSet ++ customColumns.

Definition writeRaindropsCsv (raindropsFile : string)
           (raindrops : list JsObject.t) : written :=
  match raindrops with
  | [] => NothingWritten
  | _ => File raindropsFile (raindropHeaders raindrops) raindrops
  end.

End Raindrops.

End Index.

(* ================================================================== *)
(** ** Facts about scalars and maps                                    *)
(* ================================================================== *)

Module JsFacts.

Lemma scalar_eqb_refl a : scalar_eqb a a = true.
Proof. unfold scalar_eqb; destruct (scalar_eq_dec a a); congruence. Qed.

Lemma scalar_eqb_eq a b : scalar_eqb a b = true <-> a = b.
Proof.
  unfold scalar_eqb; destruct (scalar_eq_dec a b); split; congruence.
Qed.

Lemma scalar_eqb_neq a b : scalar_eqb a b = false <-> a <> b.
Proof.
  unfold scalar_eqb; destruct (scalar_eq_dec a b); split; congruence.
Qed.

Section MapFacts.
Context {V : Type}.
Implicit Types (m : JsMap.t V) (k : scalar) (v : V).
Import JsMap.

Lemma get_set_same k v m : get k (set k v m) = Some v.
Proof.
  induction m as [|[k' v'] m IH]; simpl.
  - now rewrite scalar_eqb_refl.
  - destruct (scalar_eqb k k') eqn:E; simpl.
    + now rewrite scalar_eqb_refl.
    + now rewrite E.
Qed.

Lemma get_set_other k k' v m : k <> k' -> get k (set k' v m) = get k m.
Proof.
  intros Hne. induction m as [|[k2 v2] m IH]; simpl.
  - apply scalar_eqb_neq in Hne. now rewrite Hne.
  - destruct (scalar_eqb k' k2) eqn:E; simpl.
    + apply scalar_eqb_eq in E; subst k2.
      apply scalar_eqb_neq in Hne. now rewrite Hne.
    + destruct (scalar_eqb k k2); auto.
Qed.

Lemma get_set k k' v m :
  get k (set k' v m) = if scalar_eqb k k' then Some v else get k m.
Proof.
  destruct (scalar_eqb k k') eqn:E.
  - apply scalar_eqb_eq in E; subst. apply get_set_same.
  - apply scalar_eqb_neq in E. now apply get_set_other.
Qed.

Lemma has_set k k' v m :
  has k (set k' v m) = scalar_eqb k k' || has k m.
Proof.
  unfold has. rewrite get_set. now destruct (scalar_eqb k k').
Qed.

Lemma has_true k m : has k m = true <-> exists v, get k m = Some v.
Proof.
  unfold has. destruct (get k m); split; eauto; try congruence.
  intros [v Hv]; congruence.
Qed.

Lemma has_false k m : has k m = false <-> get k m = None.
Proof. unfold has. destruct (get k m); split; congruence. Qed.

Lemma get_in_keys k m v : get k m = Some v -> In k (keys m).
Proof.
  induction m as [|[k' v'] m IH]; simpl; [discriminate|].
  destruct (scalar_eqb k k') eqn:E.
  - apply scalar_eqb_eq in E; subst; auto.
  - auto.
Qed.

Lemma in_keys_has k m : In k (keys m) -> has k m = true.
Proof.
  unfold has.
  induction m as [|[k' v'] m IH]; simpl; [tauto|].
  intros [->|Hin].
  - now rewrite scalar_eqb_refl.
  - destruct (scalar_eqb k k'); auto.
Qed.

Lemma in_keys_iff k m : In k (keys m) <-> has k m = true.
Proof.
  split; [apply in_keys_has|].
  intros H. apply has_true in H as [v Hv]. eapply get_in_keys; eauto.
Qed.

Lemma in_keys_set x k v m : In x (keys (set k v m)) <-> x = k \/ In x (keys m).
Proof.
  rewrite !in_keys_iff, has_set.
  rewrite orb_true_iff, scalar_eqb_eq. tauto.
Qed.

Lemma nodup_keys_set k v m : NoDup (keys m) -> NoDup (keys (set k v m)).
Proof.
  induction m as [|[k' v'] m IH]; simpl; intros Hnd.
  - constructor; [tauto | constructor].
  - inversion Hnd as [|? ? Hnotin Hnd']; subst.
    destruct (scalar_eqb k k') eqn:E; simpl.
    + apply scalar_eqb_eq in E; subst. now constructor.
    + constructor; [|auto].
      intros Hin. apply (in_keys_set k' k v m) in Hin.
      destruct Hin as [->|Hin]; [|tauto].
      rewrite scalar_eqb_refl in E; discriminate.
Qed.

Lemma get_none_not_in k m : get k m = None <-> ~ In k (keys m).
Proof.
  rewrite in_keys_iff, <- has_false. destruct (has k m); split; congruence.
Qed.

End MapFacts.

End JsFacts.

(* ================================================================== *)
(** ** The hierarchy: construction and resolution                      *)
(* ================================================================== *)

Module GraphFacts.

Import Collections Graph JsFacts.

(** *** The resolvers as instances of the walk *)

Lemma getPath_walk fuel cm : forall id cache,
  getPath fuel cm id cache = pathWalk fuel cm id cache.
Proof.
  unfold pathWalk.
  induction fuel as [|fuel IH]; intros id cache; simpl; [reflexivity|].
  destruct (JsMap.get id cache); [reflexivity|].
  destruct (JsMap.get id cm) as [nd|]; [|reflexivity].
  destruct (isRootNode cm nd); [reflexivity|].
  now rewrite IH.
Qed.

Lemma getRoot_walk fuel cm : forall id cache,
  getRoot fuel cm id cache = rootWalk fuel cm id cache.
Proof.
  unfold rootWalk.
  induction fuel as [|fuel IH]; intros id cache; simpl; [reflexivity|].
  destruct (JsMap.get id cache); [reflexivity|].
  destruct (JsMap.get id cm) as [nd|]; [|reflexivity].
  destruct (isRootNode cm nd); [reflexivity|].
  now rewrite IH.
Qed.

Lemma getRootId_walk fuel cm : forall id cache,
  getRootId fuel cm id cache = rootIdWalk fuel cm id cache.
Proof.
  unfold rootIdWalk.
  induction fuel as [|fuel IH]; intros id cache; simpl; [reflexivity|].
  destruct (JsMap.get id cache); [reflexivity|].
  destruct (JsMap.get id cm) as [nd|]; [|reflexivity].
  destruct (isRootNode cm nd); [reflexivity|].
  now rewrite IH.
Qed.

Lemma forKeys_ext {C R} (f g : scalar -> C -> option (R * C)) :
  (forall id c, f id c = g id c) ->
  forall ids c, forKeys f ids c = forKeys g ids c.
Proof.
  intros Hfg ids. induction ids as [|id ids IH]; intros c; simpl; [reflexivity|].
  rewrite Hfg. destruct (g id c) as [[r c']|]; auto.
Qed.

(** *** Chains of ancestors *)

Lemma ancestor_add cm a b id :
  ancestor cm (a + b) id =
  match ancestor cm a id with Some x => ancestor cm b x | None => None end.
Proof.
  revert id. induction a as [|a IH]; intros id; simpl; [reflexivity|].
  destruct (parentStep cm id); auto.
Qed.

Lemma ancestor_none_mono cm a b id :
  ancestor cm a id = None -> ancestor cm (a + b) id = None.
Proof. intros H. now rewrite ancestor_add, H. Qed.

Lemma cycle_repeats cm k id :
  ancestor cm (S k) id = Some id ->
  forall n, ancestor cm (n * S k) id = Some id.
Proof.
  intros Hk. induction n as [|n IH]; [reflexivity|].
  replace (S n * S k) with (S k + n * S k) by lia.
  now rewrite ancestor_add, Hk.
Qed.

Lemma cycle_endless cm id : OnCycle cm id -> Endless cm id.
Proof.
  intros [k Hk] n Hnone.
  pose proof (cycle_repeats cm k id Hk (S n)) as Hrep.
  replace (S n * S k) with (n + (S n * S k - n)) in Hrep by nia.
  rewrite (ancestor_none_mono cm n _ id Hnone) in Hrep. discriminate.
Qed.

Lemma endless_step cm id :
  Endless cm id ->
  exists nd, JsMap.get id cm = Some nd /\ isRootNode cm nd = false
             /\ Endless cm (parentId nd).
Proof.
  intros He. pose proof (He 1) as H1. simpl in H1. unfold parentStep in H1.
  destruct (JsMap.get id cm) as [nd|] eqn:Hget; [|congruence].
  destruct (isRootNode cm nd) eqn:Hroot; [congruence|].
  exists nd. repeat split; auto.
  intros k Hk. apply (He (S k)). simpl. unfold parentStep.
  now rewrite Hget, Hroot.
Qed.

Lemma cycle_in_keys cm id : OnCycle cm id -> In id (JsMap.keys cm).
Proof.
  intros Hc. apply cycle_endless, endless_step in Hc as (nd & Hget & _).
  eapply get_in_keys; eauto.
Qed.

(** *** The walk on an endless chain *)

Section WalkFacts.
Context {R : Type}.
Variable missing : R.
Variable base : scalar -> node -> R.
Variable step : R -> node -> R.
Variable cm : collectionMap.

Abbreviation walk' := (walk missing base step).

Lemma walk_endless fuel : forall id cache,
  Endless cm id -> Sound cm cache -> walk' fuel cm id cache = None.
Proof.
  induction fuel as [|fuel IH]; intros id cache He Hs; simpl; [reflexivity|].
  destruct (JsMap.get id cache) as [v|] eqn:Hc.
  - exfalso. apply (Hs id); [|assumption]. apply has_true; eauto.
  - destruct (endless_step cm id He) as (nd & Hget & Hroot & Hp).
    rewrite Hget, Hroot. now rewrite IH.
Qed.

Lemma sound_set (cache : JsMap.t R) id v :
  Sound cm cache -> ~ Endless cm id -> Sound cm (JsMap.set id v cache).
Proof.
  intros Hs Hid x Hx. rewrite has_set in Hx.
  apply orb_true_iff in Hx as [Hx|Hx].
  - apply scalar_eqb_eq in Hx; now subst.
  - now apply Hs.
Qed.

Lemma walk_sound fuel : forall id cache r cache',
  walk' fuel cm id cache = Some (r, cache') ->
  Sound cm cache -> Sound cm cache'.
Proof.
  induction fuel as [|fuel IH]; intros id cache r cache' Hw Hs;
    simpl in Hw; [discriminate|].
  destruct (JsMap.get id cache) as [v|] eqn:Hc; [now inversion Hw; subst|].
  destruct (JsMap.get id cm) as [nd|] eqn:Hget; [|now inversion Hw; subst].
  destruct (isRootNode cm nd) eqn:Hroot.
  - inversion Hw; subst. apply sound_set; auto.
    intros He. apply (He 1). simpl. unfold parentStep. now rewrite Hget, Hroot.
  - destruct (walk' fuel cm (parentId nd) cache) as [[r1 c1]|] eqn:Hrec;
      [|discriminate].
    inversion Hw; subst. apply sound_set; [eapply IH; eauto|].
    intros He. destruct (endless_step cm id He) as (nd' & Hget' & _ & Hp).
    rewrite Hget in Hget'. inversion Hget'; subst nd'.
    now rewrite (walk_endless fuel (parentId nd) cache Hp Hs) in Hrec.
Qed.

Lemma sound_empty : Sound cm (@JsMap.empty R).
Proof. intros x Hx. discriminate. Qed.

Lemma forKeys_endless fuel id : forall ids cache,
  In id ids -> Endless cm id -> Sound cm cache ->
  forKeys (walk' fuel cm) ids cache = None.
Proof.
  induction ids as [|k ids IH]; intros cache Hin He Hs; simpl; [destruct Hin|].
  destruct (walk' fuel cm k cache) as [[r c']|] eqn:Hw; [|reflexivity].
  destruct Hin as [->|Hin].
  - now rewrite (walk_endless fuel id cache He Hs) in Hw.
  - apply IH; auto. eapply walk_sound; eauto.
Qed.

(** *** The walk on a chain that ends *)

Lemma walk_terminates fuel : forall id cache,
  ancestor cm fuel id = None ->
  exists r cache', walk' fuel cm id cache = Some (r, cache').
Proof.
  induction fuel as [|fuel IH]; intros id cache Hanc; simpl in *; [discriminate|].
  destruct (JsMap.get id cache) as [v|]; [eauto|].
  unfold parentStep in Hanc.
  destruct (JsMap.get id cm) as [nd|]; [|eauto].
  destruct (isRootNode cm nd); [eauto|].
  destruct (IH (parentId nd) cache Hanc) as (r & c' & ->). eauto.
Qed.

Lemma walk_returns_ends fuel : forall id cache r cache',
  walk' fuel cm id cache = Some (r, cache') ->
  (forall x, JsMap.has x cache = true -> exists k, ancestor cm k x = None) ->
  exists k, ancestor cm k id = None.
Proof.
  induction fuel as [|fuel IH]; intros id cache r cache' Hw Hc;
    simpl in Hw; [discriminate|].
  destruct (JsMap.get id cache) as [v|] eqn:Hidc.
  { apply Hc, has_true; eauto. }
  destruct (JsMap.get id cm) as [nd|] eqn:Hget.
  - destruct (isRootNode cm nd) eqn:Hroot.
    + exists 1. simpl. unfold parentStep. now rewrite Hget, Hroot.
    + destruct (walk' fuel cm (parentId nd) cache) as [[r1 c1]|] eqn:Hrec;
        [|discriminate].
      destruct (IH _ _ _ _ Hrec Hc) as [k Hk].
      exists (S k). simpl. unfold parentStep. now rewrite Hget, Hroot.
  - exists 1. simpl. unfold parentStep. now rewrite Hget.
Qed.

(** *** What a returning walk leaves in the cache *)

Lemma walk_has_mono fuel : forall id cache r cache' x,
  walk' fuel cm id cache = Some (r, cache') ->
  JsMap.has x cache = true -> JsMap.has x cache' = true.
Proof.
  induction fuel as [|fuel IH]; intros id cache r cache' x Hw Hx;
    simpl in Hw; [discriminate|].
  destruct (JsMap.get id cache) as [v|]; [now inversion Hw; subst|].
  destruct (JsMap.get id cm) as [nd|]; [|now inversion Hw; subst].
  destruct (isRootNode cm nd).
  - inversion Hw; subst. rewrite has_set, Hx. apply orb_true_r.
  - destruct (walk' fuel cm (parentId nd) cache) as [[r1 c1]|] eqn:Hrec;
      [|discriminate].
    inversion Hw; subst. rewrite has_set, (IH _ _ _ _ _ Hrec Hx).
    apply orb_true_r.
Qed.

Lemma walk_has_self fuel id cache r cache' nd :
  walk' fuel cm id cache = Some (r, cache') ->
  JsMap.get id cm = Some nd ->
  JsMap.has id cache' = true.
Proof.
  intros Hw Hget. destruct fuel as [|fuel]; simpl in Hw; [discriminate|].
  destruct (JsMap.get id cache) as [v|] eqn:Hc.
  - inversion Hw; subst. apply has_true; eauto.
  - rewrite Hget in Hw. destruct (isRootNode cm nd).
    + inversion Hw; subst. now rewrite has_set, scalar_eqb_refl.
    + destruct (walk' fuel cm (parentId nd) cache) as [[r1 c1]|];
        [|discriminate].
      inversion Hw; subst. now rewrite has_set, scalar_eqb_refl.
Qed.

Lemma rootsRight_set (cache : JsMap.t R) id v :
  RootsRight base cm cache ->
  (forall nd, JsMap.get id cm = Some nd -> isRootNode cm nd = true -> v = base id nd) ->
  RootsRight base cm (JsMap.set id v cache).
Proof.
  intros Hr Hv x nd w Hget Hroot Hw. rewrite get_set in Hw.
  destruct (scalar_eqb x id) eqn:E.
  - apply scalar_eqb_eq in E; subst x. inversion Hw; subst. eauto.
  - eauto.
Qed.

Lemma walk_rootsRight fuel : forall id cache r cache',
  walk' fuel cm id cache = Some (r, cache') ->
  RootsRight base cm cache -> RootsRight base cm cache'.
Proof.
  induction fuel as [|fuel IH]; intros id cache r cache' Hw Hr;
    simpl in Hw; [discriminate|].
  destruct (JsMap.get id cache) as [v|]; [now inversion Hw; subst|].
  destruct (JsMap.get id cm) as [nd|] eqn:Hget; [|now inversion Hw; subst].
  destruct (isRootNode cm nd) eqn:Hroot.
  - inversion Hw; subst. apply rootsRight_set; auto.
    intros nd' Hnd' _. congruence.
  - destruct (walk' fuel cm (parentId nd) cache) as [[r1 c1]|] eqn:Hrec;
      [|discriminate].
    inversion Hw; subst. apply rootsRight_set; [eapply IH; eauto|].
    intros nd' Hnd' Hroot'. congruence.
Qed.

Lemma rootsRight_empty : RootsRight base cm (@JsMap.empty R).
Proof. intros x nd v _ _ Hv. discriminate. Qed.

Lemma forKeys_has fuel : forall ids cache cache' x,
  forKeys (walk' fuel cm) ids cache = Some cache' ->
  (JsMap.has x cache = true \/ (In x ids /\ JsMap.has x cm = true)) ->
  JsMap.has x cache' = true.
Proof.
  induction ids as [|k ids IH]; intros cache cache' x Hf Hx; simpl in Hf.
  - inversion Hf; subst. destruct Hx as [Hx|[[] _]]; auto.
  - destruct (walk' fuel cm k cache) as [[r c1]|] eqn:Hw; [|discriminate].
    apply (IH c1 cache' x Hf).
    destruct Hx as [Hx|[[->|Hin] Hcm]].
    + left. eapply walk_has_mono; eauto.
    + left. apply has_true in Hcm as [nd Hnd]. eapply walk_has_self; eauto.
    + right; auto.
Qed.

Lemma forKeys_rootsRight fuel : forall ids cache cache',
  forKeys (walk' fuel cm) ids cache = Some cache' ->
  RootsRight base cm cache -> RootsRight base cm cache'.
Proof.
  induction ids as [|k ids IH]; intros cache cache' Hf Hr; simpl in Hf.
  - now inversion Hf; subst.
  - destruct (walk' fuel cm k cache) as [[r c1]|] eqn:Hw; [|discriminate].
    eapply IH; eauto. eapply walk_rootsRight; eauto.
Qed.

Lemma forKeys_root_value fuel cache' id nd :
  forKeys (walk' fuel cm) (JsMap.keys cm) JsMap.empty = Some cache' ->
  JsMap.get id cm = Some nd -> isRootNode cm nd = true ->
  JsMap.get id cache' = Some (base id nd).
Proof.
  intros Hf Hget Hroot.
  assert (Hhas : JsMap.has id cache' = true).
  { eapply forKeys_has; eauto. right. split.
    - eapply get_in_keys; eauto.
    - apply has_true; eauto. }
  apply has_true in Hhas as [v Hv]. rewrite Hv. f_equal.
  eapply forKeys_rootsRight; eauto. apply rootsRight_empty.
Qed.

Lemma walk_root fuel id nd (cache : JsMap.t R) :
  JsMap.get id cache = None ->
  JsMap.get id cm = Some nd -> isRootNode cm nd = true ->
  walk' (S fuel) cm id cache = Some (base id nd, JsMap.set id (base id nd) cache).
Proof. intros Hc Hget Hroot. simpl. now rewrite Hc, Hget, Hroot. Qed.

End WalkFacts.

(** *** Termination of a single resolution *)

Lemma getPath_returns_iff cm id :
  (exists fuel r, getPath fuel cm id JsMap.empty = Some r) <->
  (exists k, ancestor cm k id = None).
Proof.
  split.
  - intros (fuel & [r c] & Hw). rewrite getPath_walk in Hw.
    eapply walk_returns_ends; eauto. intros x Hx; discriminate.
  - intros [k Hk]. exists k. rewrite getPath_walk.
    destruct (walk_terminates "" (fun _ nd => title nd)
                (fun p nd => p ++ " / " ++ title nd) cm k id JsMap.empty Hk)
      as (r & c & Hw).
    exists (r, c). exact Hw.
Qed.

Lemma endless_never_resolves cm id :
  Endless cm id ->
  forall fuel,
    getPath fuel cm id JsMap.empty = None /\
    getRoot fuel cm id JsMap.empty = None /\
    getRootId fuel cm id JsMap.empty = None.
Proof.
  intros He fuel.
  rewrite getPath_walk, getRoot_walk, getRootId_walk.
  repeat split; apply walk_endless; auto using sound_empty.
Qed.

Lemma endless_never_computes cm id :
  Endless cm id -> In id (JsMap.keys cm) ->
  forall fuel,
    computeCollectionPaths fuel cm = None /\
    computeRootCollections fuel cm = None /\
    computeRootCollectionIds fuel cm = None.
Proof.
  intros He Hin fuel.
  unfold computeCollectionPaths, computeRootCollections, computeRootCollectionIds.
  rewrite (forKeys_ext _ _ (getPath_walk fuel cm)),
          (forKeys_ext _ _ (getRoot_walk fuel cm)),
          (forKeys_ext _ _ (getRootId_walk fuel cm)).
  repeat split; eapply forKeys_endless; eauto using sound_empty.
Qed.

Lemma twoCycle_on_cycle : OnCycle twoCycle (SNum 1).
Proof. exists 1. reflexivity. Qed.

(** C1, as the source has it.  For every collection graph whose parent
    references form a cycle, resolution does not terminate for any node on
    the cycle: [getPath], [getRoot] and [getRootId] have no cycle guard and
    raise no error, so however deep the call stack may grow no result comes
    back, and [computeCollectionPaths], [computeRootCollections] and
    [computeRootCollectionIds] return nothing for such a graph. *)
Theorem cycle_never_resolves cm id :
  OnCycle cm id ->
  forall fuel,
    getPath fuel cm id JsMap.empty = None /\
    getRoot fuel cm id JsMap.empty = None /\
    getRootId fuel cm id JsMap.empty = None /\
    computeCollectionPaths fuel cm = None /\
    computeRootCollections fuel cm = None /\
    computeRootCollectionIds fuel cm = None.
Proof.
  intros Hc fuel.
  pose proof (cycle_endless cm id Hc) as He.
  destruct (endless_never_resolves cm id He fuel) as (H1 & H2 & H3).
  destruct (endless_never_computes cm id He (cycle_in_keys cm id Hc) fuel)
    as (H4 & H5 & H6).
  repeat split; assumption.
Qed.

Lemma cycle_never_resolves_witness :
  OnCycle twoCycle (SNum 1) /\
  forall fuel,
    getPath fuel twoCycle (SNum 1) JsMap.empty = None /\
    getRoot fuel twoCycle (SNum 1) JsMap.empty = None /\
    getRootId fuel twoCycle (SNum 1) JsMap.empty = None /\
    computeCollectionPaths fuel twoCycle = None /\
    computeRootCollections fuel twoCycle = None /\
    computeRootCollectionIds fuel twoCycle = None.
Proof.
  split.
  - exists 1%nat. reflexivity.
  - apply (cycle_never_resolves twoCycle (SNum 1)). exists 1%nat. reflexivity.
Defined.

(** C1, as the specification words it, fails: on the graph in which
    collections 1 and 2 name each other as parent, the resolution of node 1
    hands back nothing at all, be it a path or an error, at any stack
    depth; nor does the computation of the whole table. *)
Lemma cycle_resolution_does_not_terminate :
  (~ exists fuel outcome,
       getPath fuel twoCycle (SNum 1) JsMap.empty = Some outcome) /\
  (~ exists fuel table, computeCollectionPaths fuel twoCycle = Some table) /\
  (~ exists fuel table, computeRootCollections fuel twoCycle = Some table).
Proof.
  pose proof (cycle_endless _ _ twoCycle_on_cycle) as He.
  split; [|split].
  - intros (fuel & o & H).
    destruct (endless_never_resolves _ _ He fuel) as (H1 & _). congruence.
  - intros (fuel & o & H).
    destruct (endless_never_computes _ _ He
                (cycle_in_keys _ _ twoCycle_on_cycle) fuel) as (H1 & _).
    congruence.
  - intros (fuel & o & H).
    destruct (endless_never_computes _ _ He
                (cycle_in_keys _ _ twoCycle_on_cycle) fuel) as (_ & H1 & _).
    congruence.
Qed.

(** *** Roots *)

Lemma null_or_absent_is_root cm nd :
  parentId nd = SNull \/ JsMap.has (parentId nd) cm = false ->
  isRootNode cm nd = true.
Proof.
  unfold isRootNode. intros [H|H]; rewrite H; simpl; auto using orb_true_r.
Qed.

(** C7.  A node whose [parentId] is [null], or names an id that the map
    does not hold, resolves as a root: the query for its path and the query
    for its root title both answer its own title, and so do the tables that
    [computeCollectionPaths] and [computeRootCollections] return. *)
Theorem orphan_or_parentless_resolves_as_root cm id nd :
  JsMap.get id cm = Some nd ->
  parentId nd = SNull \/ JsMap.has (parentId nd) cm = false ->
  (forall fuel,
      getPath (S fuel) cm id JsMap.empty
      = Some (title nd, JsMap.set id (title nd) JsMap.empty)) /\
  (forall fuel,
      getRoot (S fuel) cm id JsMap.empty
      = Some (title nd, JsMap.set id (title nd) JsMap.empty)) /\
  (forall fuel paths,
      computeCollectionPaths fuel cm = Some paths ->
      JsMap.get id paths = Some (title nd)) /\
  (forall fuel roots,
      computeRootCollections fuel cm = Some roots ->
      JsMap.get id roots = Some (title nd)).
Proof.
  intros Hget Hp. apply null_or_absent_is_root in Hp.
  repeat split.
  - intros fuel. rewrite getPath_walk. now apply walk_root.
  - intros fuel. rewrite getRoot_walk. now apply walk_root.
  - intros fuel paths Hc. unfold computeCollectionPaths in Hc.
    rewrite (forKeys_ext _ _ (getPath_walk fuel cm)) in Hc.
    apply (forKeys_root_value _ _ _ _ fuel paths id nd Hc Hget Hp).
  - intros fuel roots Hc. unfold computeRootCollections in Hc.
    rewrite (forKeys_ext _ _ (getRoot_walk fuel cm)) in Hc.
    apply (forKeys_root_value _ _ _ _ fuel roots id nd Hc Hget Hp).
Qed.

Lemma orphan_or_parentless_resolves_as_root_witness :
  JsMap.get (SNum 2) orphanMap = Some (mkNode (SNum 2) "B" (SNum 99)) /\
  JsMap.has (SNum 99) orphanMap = false /\
  computeCollectionPaths 1 orphanMap = Some [(SNum 1, "A"); (SNum 2, "B")] /\
  (forall fuel paths,
      computeCollectionPaths fuel orphanMap = Some paths ->
      JsMap.get (SNum 2) paths = Some "B") /\
  (forall fuel roots,
      computeRootCollections fuel orphanMap = Some roots ->
      JsMap.get (SNum 2) roots = Some "B").
Proof.
  split; [reflexivity|]. split; [reflexivity|]. split; [reflexivity|].
  apply (orphan_or_parentless_resolves_as_root
           orphanMap (SNum 2) (mkNode (SNum 2) "B" (SNum 99))).
  - reflexivity.
  - right. reflexivity.
Defined.

(** The paths of the end-to-end example of the specification. *)
Example example_paths :
  computeCollectionPaths 3 exampleMap
  = Some [(SNum 1, "A"); (SNum 2, "A / B"); (SNum 3, "A / B / C")]
  /\ fullPathsOf 3 exampleMap exampleGroups
     = Some [(SNum 1, "G / A"); (SNum 2, "G / A / B"); (SNum 3, "G / A / B / C")].
Proof. split; reflexivity. Qed.

(** *** Construction of the map *)

Lemma addCollection_get_other col d m k :
  rawId col <> k ->
  JsMap.get k (addCollection col d m) = JsMap.get k m.
Proof.
  intros Hne. unfold addCollection. apply get_set_other. 
  intros ->. now apply Hne.
Qed.

Lemma addAll_get_other cols : forall m k,
  (forall c, In c cols -> rawId c <> k) ->
  JsMap.get k (fold_left (fun m c => addCollection c SNull m) cols m)
  = JsMap.get k m.
Proof.
  induction cols as [|c cols IH]; intros m k Hk; simpl; [reflexivity|].
  rewrite IH by (intros c' Hc'; apply Hk; now right).
  apply addCollection_get_other, Hk. now left.
Qed.

Lemma addCollection_get_same col d m :
  JsMap.get (rawId col) (addCollection col d m)
  = Some {| id := rawId col;
            title := raw_title col;
            parentId :=
              or_s (if truthy (raw_parent col)
                    then extractParent (raw_parent col) else d) SNull |}.
Proof. unfold addCollection. apply get_set_same. Qed.

(** C4, as the source has it.  A raw object of the roots sequence that
    supplies no parent reference (its [parent] field is absent or falsy) is
    entered with [parentId = null], and the node is still there when
    [buildCollectionMap] returns unless a later object has the same id. *)
Theorem root_without_parent_gets_null pre col post children :
  truthy (raw_parent col) = false ->
  (forall c, In c (post ++ children) -> rawId c <> rawId col) ->
  JsMap.get (rawId col) (buildCollectionMap (pre ++ col :: post) children)
  = Some {| id := rawId col; title := raw_title col; parentId := SNull |}.
Proof.
  intros Hp Hlater. unfold buildCollectionMap.
  rewrite addAll_get_other
    by (intros c Hc; apply Hlater, in_or_app; now right).
  rewrite fold_left_app. simpl.
  rewrite addAll_get_other
    by (intros c Hc; apply Hlater, in_or_app; now left).
  rewrite addCollection_get_same, Hp. reflexivity.
Qed.

Lemma root_without_parent_gets_null_witness :
  truthy (raw_parent (mkRaw SUndef (SNum 1) "A" (JScalar SUndef))) = false /\
  JsMap.get (SNum 1) exampleMap = Some (mkNode (SNum 1) "A" SNull).
Proof.
  split; [reflexivity|].
  apply (root_without_parent_gets_null
           [] (mkRaw SUndef (SNum 1) "A" (JScalar SUndef)) [] exampleChildren).
  - reflexivity.
  - intros c [<-|[<-|[]]]; discriminate.
Defined.

(** C4, as the specification words it, fails: a root object that names
    collection 2 as its parent is entered with [parentId = 2]. *)
Lemma root_parent_reference_is_kept :
  In rootWithParent [rootWithParent] /\
  JsMap.get (SNum 1) (buildCollectionMap [rootWithParent] [])
  = Some (mkNode (SNum 1) "A" (SNum 2)) /\
  SNum 2 <> SNull.
Proof. split; [now left|]. split; [reflexivity | discriminate]. Qed.

(** *** Group prefixes *)

Section Tables.
Context {R : Type}.
Variable missing : R.
Variable base : scalar -> node -> R.
Variable step : R -> node -> R.
Variable cm : collectionMap.

Lemma walk_nodup fuel : forall id (cache : JsMap.t R) r cache',
  walk missing base step fuel cm id cache = Some (r, cache') ->
  NoDup (JsMap.keys cache) -> NoDup (JsMap.keys cache').
Proof.
  induction fuel as [|fuel IH]; intros id cache r cache' Hw Hnd;
    simpl in Hw; [discriminate|].
  destruct (JsMap.get id cache) as [v|]; [now inversion Hw; subst|].
  destruct (JsMap.get id cm) as [nd|]; [|now inversion Hw; subst].
  destruct (isRootNode cm nd).
  - inversion Hw; subst. now apply nodup_keys_set.
  - destruct (walk missing base step fuel cm (parentId nd) cache)
      as [[r1 c1]|] eqn:Hrec; [|discriminate].
    inversion Hw; subst. apply nodup_keys_set. eapply IH; eauto.
Qed.

Lemma forKeys_nodup fuel : forall ids (cache cache' : JsMap.t R),
  forKeys (walk missing base step fuel cm) ids cache = Some cache' ->
  NoDup (JsMap.keys cache) -> NoDup (JsMap.keys cache').
Proof.
  induction ids as [|k ids IH]; intros cache cache' Hf Hnd; simpl in Hf.
  - now inversion Hf; subst.
  - destruct (walk missing base step fuel cm k cache) as [[r c1]|] eqn:Hw;
      [|discriminate].
    eapply IH; eauto. eapply walk_nodup; eauto.
Qed.

Lemma table_complete fuel (table : JsMap.t R) id nd :
  forKeys (walk missing base step fuel cm) (JsMap.keys cm) JsMap.empty = Some table ->
  JsMap.get id cm = Some nd ->
  NoDup (JsMap.keys table) /\ exists v, JsMap.get id table = Some v.
Proof.
  intros Hf Hget. split.
  - eapply forKeys_nodup; eauto. constructor.
  - apply has_true. eapply forKeys_has; eauto. right. split.
    + eapply get_in_keys; eauto.
    + apply has_true; eauto.
Qed.

End Tables.

Lemma setAll_get {A B} (f : scalar -> A -> B) (entries : JsMap.t A) :
  forall (acc : JsMap.t B) id,
    NoDup (JsMap.keys entries) ->
    JsMap.get id
      (fold_left (fun acc '(k, a) => JsMap.set k (f k a) acc) entries acc)
    = match JsMap.get id entries with
      | Some a => Some (f id a)
      | None => JsMap.get id acc
      end.
Proof.
  induction entries as [|[k a] entries IH]; intros acc id Hnd; simpl;
    [reflexivity|].
  inversion Hnd as [|? ? Hnotin Hnd']; subst.
  rewrite IH by assumption.
  destruct (scalar_eqb id k) eqn:E.
  - apply scalar_eqb_eq in E; subst k.
    apply get_none_not_in in Hnotin. rewrite Hnotin. apply get_set_same.
  - destruct (JsMap.get id entries); [reflexivity|].
    apply get_set_other. now apply scalar_eqb_neq.
Qed.

Lemma computeFullPaths_get paths rootIds groups id :
  NoDup (JsMap.keys paths) ->
  JsMap.get id (computeFullPaths paths rootIds groups)
  = match JsMap.get id paths with
    | Some path => Some (fullPathOf (groupOf rootIds groups id) path)
    | None => None
    end.
Proof.
  intros Hnd. unfold computeFullPaths, JsMap.entries.
  rewrite (setAll_get (fun id path => fullPathOf (groupOf rootIds groups id) path))
    by assumption.
  destruct (JsMap.get id paths); reflexivity.
Qed.

(** C8, as the source has it.  For every node of the collection map,
    [computeFullPaths] yields [group + " / " + path] when the node's root id
    is truthy and the group index holds a non-empty title for it, and
    [path] otherwise: the group index is not consulted for a root id that
    is falsy (0, the empty string). *)
Theorem fullPath_prefixed_by_group fuel cm groups paths rootIds id nd :
  computeCollectionPaths fuel cm = Some paths ->
  computeRootCollectionIds fuel cm = Some rootIds ->
  JsMap.get id cm = Some nd ->
  exists path rootId,
    JsMap.get id paths = Some path /\
    JsMap.get id rootIds = Some rootId /\
    JsMap.get id (computeFullPaths paths rootIds groups)
    = Some (match (if truthy_s rootId then JsMap.get rootId groups else None) with
            | Some group =>
                if String.eqb group "" then path else group ++ " / " ++ path
            | None => path
            end).
Proof.
  intros Hp Hr Hget.
  unfold computeCollectionPaths in Hp. unfold computeRootCollectionIds in Hr.
  rewrite (forKeys_ext _ _ (getPath_walk fuel cm)) in Hp.
  rewrite (forKeys_ext _ _ (getRootId_walk fuel cm)) in Hr.
  destruct (table_complete _ _ _ _ fuel paths id nd Hp Hget) as (Hnd & path & Hpath).
  destruct (table_complete _ _ _ _ fuel rootIds id nd Hr Hget) as (_ & rootId & Hroot).
  exists path, rootId. repeat split; auto.
  rewrite computeFullPaths_get, Hpath by assumption. f_equal.
  unfold groupOf. rewrite Hroot.
  destruct (truthy_s rootId); [|reflexivity].
  reflexivity.
Qed.

Lemma fullPath_prefixed_by_group_witness :
  computeCollectionPaths 3 exampleMap
  = Some [(SNum 1, "A"); (SNum 2, "A / B"); (SNum 3, "A / B / C")] /\
  computeRootCollectionIds 3 exampleMap
  = Some [(SNum 1, SNum 1); (SNum 2, SNum 1); (SNum 3, SNum 1)] /\
  JsMap.get (SNum 3) exampleMap = Some (mkNode (SNum 3) "C" (SNum 2)) /\
  exists path rootId,
    JsMap.get (SNum 3) [(SNum 1, "A"); (SNum 2, "A / B"); (SNum 3, "A / B / C")]
    = Some path /\
    JsMap.get (SNum 3) [(SNum 1, SNum 1); (SNum 2, SNum 1); (SNum 3, SNum 1)]
    = Some rootId /\
    JsMap.get (SNum 3)
      (computeFullPaths [(SNum 1, "A"); (SNum 2, "A / B"); (SNum 3, "A / B / C")]
                        [(SNum 1, SNum 1); (SNum 2, SNum 1); (SNum 3, SNum 1)]
                        exampleGroups)
    = Some (match (if truthy_s rootId then JsMap.get rootId exampleGroups
                   else None) with
            | Some group =>
                if String.eqb group "" then path else group ++ " / " ++ path
            | None => path
            end).
Proof.
  split; [reflexivity|]. split; [reflexivity|]. split; [reflexivity|].
  apply (fullPath_prefixed_by_group 3 exampleMap exampleGroups _ _
           (SNum 3) (mkNode (SNum 3) "C" (SNum 2))); reflexivity.
Defined.

(** C8, as the specification words it, fails: the root collection with id 0
    is listed in group "G", the group index holds "G" for its root id, and
    yet its full path is its bare path "X". *)
Lemma falsy_root_id_gets_no_group :
  JsMap.get (SNum 0) zeroRootMap = Some (mkNode (SNum 0) "X" SNull) /\
  computeCollectionPaths 1 zeroRootMap = Some [(SNum 0, "X")] /\
  computeRootCollectionIds 1 zeroRootMap = Some [(SNum 0, SNum 0)] /\
  JsMap.get (SNum 0) zeroRootGroups = Some "G" /\
  JsMap.get (SNum 0)
    (computeFullPaths [(SNum 0, "X")] [(SNum 0, SNum 0)] zeroRootGroups)
  = Some "X" /\
  "X" <> "G" ++ " / " ++ "X".
Proof. repeat split; try reflexivity. discriminate. Qed.

End GraphFacts.

(* ================================================================== *)
(** ** The retrying client                                             *)
(* ================================================================== *)

Module ClientFacts.

Import Traffic.

Local Open Scope list_scope.

Section Client.
Variable config : Config.t.
Variable srv : server.

Local Open Scope Z_scope.

(** One iteration of the loop of [apiRequest], by the outcome of its
    request. *)
Lemma attempt_step rq remaining attempt lastError n :
  Api.apiRequestFrom config srv rq (S remaining) attempt lastError n =
  match srv rq n with
  | Resolve data =>
      (Returned data, S n,
       prelude config attempt
       ++ [EvRequest rq; EvDelay Courtesy (Config.requestDelay config)])
  | Reject e =>
      if Api.statusIs (TError e) 401 then
        (Threw (TError e), S n,
         prelude config attempt ++ [EvRequest rq; EvLog LogUnauthorized])
      else if Api.statusIs (TError e) 429 then
        after (prelude config attempt
               ++ [EvRequest rq; EvLog LogRateLimited; EvDelay Cooldown 5000])
              (Api.apiRequestFrom config srv rq remaining (attempt + 1)
                                  (TError e) (S n))
      else if Api.statusAtLeast (TError e) 500 then
        after (prelude config attempt
               ++ [EvRequest rq; EvLog (LogServerError (Api.statusOr0 (TError e)))])
              (Api.apiRequestFrom config srv rq remaining (attempt + 1)
                                  (TError e) (S n))
      else
        (Threw (TError e), S n, prelude config attempt ++ [EvRequest rq])
  end.
Proof.
  cbn [Api.apiRequestFrom].
  unfold try_catch, bind, send, log, delay, emit, ret, throw, prelude, after,
    resultOf, callsOf, eventsOf.
  destruct (1 <? attempt); destruct (srv rq n) as [data|e]; cbn [app fst snd];
    try reflexivity;
    destruct (Api.statusIs (TError e) 401); try reflexivity;
    destruct (Api.statusIs (TError e) 429);
    try (destruct (Api.apiRequestFrom config srv rq remaining (attempt + 1)
                                      (TError e) (S n)) as [[r0 n0] ev0];
         reflexivity);
    destruct (Api.statusAtLeast (TError e) 500);
    try (destruct (Api.apiRequestFrom config srv rq remaining (attempt + 1)
                                      (TError e) (S n)) as [[r0 n0] ev0];
         reflexivity);
    reflexivity.
Qed.

Lemma raw_step u remaining attempt lastError n :
  Api.getRawFrom config srv u (S remaining) attempt lastError n =
  match srv (rawRequest u) n with
  | Resolve data =>
      (Returned data, S n,
       prelude config attempt
       ++ [EvRequest (rawRequest u); EvDelay Courtesy (Config.requestDelay config)])
  | Reject e =>
      if Api.statusIs (TError e) 401 then
        (Threw (TError e), S n,
         prelude config attempt ++ [EvRequest (rawRequest u); EvLog LogUnauthorized])
      else if Api.statusIs (TError e) 429 then
        after (prelude config attempt
               ++ [EvRequest (rawRequest u); EvLog LogRateLimited;
                   EvDelay Cooldown 5000])
              (Api.getRawFrom config srv u remaining (attempt + 1) (TError e) (S n))
      else if Api.statusAtLeast (TError e) 500 then
        after (prelude config attempt
               ++ [EvRequest (rawRequest u);
                   EvLog (LogServerError (Api.statusOr0 (TError e)))])
              (Api.getRawFrom config srv u remaining (attempt + 1) (TError e) (S n))
      else
        (Threw (TError e), S n, prelude config attempt ++ [EvRequest (rawRequest u)])
  end.
Proof.
  cbn [Api.getRawFrom].
  unfold try_catch, bind, send, log, delay, emit, ret, throw, prelude, after,
    resultOf, callsOf, eventsOf, rawRequest.
  destruct (1 <? attempt);
    destruct (srv _ n) as [data|e]; cbn [app fst snd];
    try reflexivity;
    destruct (Api.statusIs (TError e) 401); try reflexivity;
    destruct (Api.statusIs (TError e) 429);
    try (destruct (Api.getRawFrom config srv u remaining (attempt + 1)
                                  (TError e) (S n)) as [[r0 n0] ev0];
         reflexivity);
    destruct (Api.statusAtLeast (TError e) 500);
    try (destruct (Api.getRawFrom config srv u remaining (attempt + 1)
                                  (TError e) (S n)) as [[r0 n0] ev0];
         reflexivity);
    reflexivity.
Qed.

(** The loop of [getRaw] is the loop of [apiRequest] on its own request. *)
Lemma getRawFrom_apiRequestFrom u remaining : forall attempt lastError n,
  Api.getRawFrom config srv u remaining attempt lastError n
  = Api.apiRequestFrom config srv (rawRequest u) remaining attempt lastError n.
Proof.
  induction remaining as [|remaining IH]; intros attempt lastError n;
    [reflexivity|].
  rewrite raw_step, attempt_step.
  destruct (srv (rawRequest u) n) as [data|e]; [reflexivity|].
  now rewrite !IH.
Qed.

Lemma getRaw_apiRequest u n :
  Api.getRaw config srv u n
  = Api.apiRequest config srv "GET" u [("responseType", SStr "text")] n.
Proof. apply getRawFrom_apiRequestFrom. Qed.

Lemma after_result {A} evs (x : result A * nat * list event) :
  resultOf (after evs x) = resultOf x.
Proof. reflexivity. Qed.

Lemma after_calls {A} evs (x : result A * nat * list event) :
  callsOf (after evs x) = callsOf x.
Proof. reflexivity. Qed.

Lemma after_events {A} evs (x : result A * nat * list event) :
  eventsOf (after evs x) = evs ++ eventsOf x.
Proof. reflexivity. Qed.

Lemma waits_app evs1 evs2 : waits (evs1 ++ evs2) = waits evs1 ++ waits evs2.
Proof.
  induction evs1 as [|[rq|site ms|l] evs1 IH]; simpl; auto. now rewrite IH.
Qed.

Lemma waits_prelude attempt :
  2 <= attempt ->
  waits (prelude config attempt)
  = [(Backoff, Config.retryDelay config * 2 ^ (attempt - 1))].
Proof.
  intros H. unfold prelude.
  destruct (Z.ltb_spec 1 attempt); [reflexivity | lia].
Qed.

Lemma serverError_inv o :
  serverError o = true ->
  exists e, o = Reject e /\ Api.statusIs (TError e) 401 = false
            /\ Api.statusIs (TError e) 429 = false
            /\ Api.statusAtLeast (TError e) 500 = true.
Proof.
  destruct o as [data|e]; simpl; [discriminate|].
  intros H. exists e. split; [reflexivity|]. simpl.
  destruct (errStatus e) as [s|]; [|discriminate].
  apply Z.leb_le in H. repeat split.
  - apply Z.eqb_neq; lia.
  - apply Z.eqb_neq; lia.
  - apply Z.leb_le; lia.
Qed.

(** *** Every attempt meets a server error *)

Lemma exhaust_tail rq remaining : forall attempt lastError n,
  2 <= attempt ->
  (forall j, (j < remaining)%nat -> serverError (srv rq (n + j)%nat) = true) ->
  let x := Api.apiRequestFrom config srv rq remaining attempt lastError n in
  resultOf x = Threw (match remaining with
                      | O => lastError
                      | S r => thrownBy (srv rq (n + r)%nat)
                      end) /\
  callsOf x = (n + remaining)%nat /\
  waits (eventsOf x)
  = map (fun k => (Backoff,
                   Config.retryDelay config * 2 ^ (attempt - 1 + Z.of_nat k)))
        (seq 0 remaining).
Proof.
  induction remaining as [|remaining IH]; intros attempt lastError n Ha Hsrv.
  - simpl. unfold throw. repeat split. cbn. lia.
  - cbv zeta. rewrite attempt_step.
    destruct (serverError_inv _ (Hsrv 0%nat ltac:(lia)))
      as (e & He & H401 & H429 & H500).
    rewrite Nat.add_0_r in He. rewrite He, H401, H429, H500.
    destruct (IH (attempt + 1) (TError e) (S n) ltac:(lia)) as (Hr & Hc & Hw).
    { intros j Hj. replace (S n + j)%nat with (n + S j)%nat by lia.
      apply Hsrv. lia. }
    rewrite after_result, after_calls, after_events.
    rewrite Hr, Hc. repeat split.
    + destruct remaining as [|r].
      * now rewrite Nat.add_0_r, He.
      * now replace (n + S r)%nat with (S n + r)%nat by lia.
    + lia.
    + rewrite !waits_app, waits_prelude, Hw by assumption. cbn [waits app seq map].
      rewrite <- seq_shift, map_map. f_equal.
      * now rewrite Z.add_0_r.
      * apply map_ext. intros k. do 3 f_equal. lia.
Qed.

Lemma sites_of_backoffs {A} (l : list A) :
  map (fun _ => Backoff) l = repeat Backoff (List.length l).
Proof.
  induction l as [|a l IH]; cbn [map repeat List.length];
    [reflexivity | now rewrite IH].
Qed.

Lemma exhaust_all rq n :
  let m := Z.to_nat (Config.maxRetries config) in
  (1 <= m)%nat ->
  (forall j, (j < m)%nat -> serverError (srv rq (n + j)%nat) = true) ->
  Exhausted srv rq n m
            (Api.apiRequestFrom config srv rq m 1 TUndefined n).
Proof.
  intros m Hm Hsrv. destruct m as [|m'] eqn:Em; [lia|].
  unfold Exhausted. rewrite attempt_step.
  destruct (serverError_inv _ (Hsrv 0%nat ltac:(lia)))
    as (e & He & H401 & H429 & H500).
  rewrite Nat.add_0_r in He. rewrite He, H401, H429, H500.
  destruct (exhaust_tail rq m' (1 + 1) (TError e) (S n) ltac:(lia))
    as (Hr & Hc & Hw).
  { intros j Hj. replace (S n + j)%nat with (n + S j)%nat by lia.
    apply Hsrv. lia. }
  rewrite after_result, after_calls, after_events.
  rewrite Hr, Hc. repeat split.
  - replace (S m' - 1)%nat with m' by lia. destruct m' as [|r].
    + now rewrite Nat.add_0_r, He.
    + now replace (n + S r)%nat with (S n + r)%nat by lia.
  - lia.
  - rewrite waits_app, Hw. change (prelude config 1) with (@nil event).
    cbn [waits app]. replace (S m' - 1)%nat with m' by lia.
    rewrite map_map. cbn [fst].
    now rewrite sites_of_backoffs, length_seq.
Qed.

(** *** A 401 among the attempts *)

Lemma retryable_inv o :
  retryable o = true ->
  exists e, o = Reject e /\ Api.statusIs (TError e) 401 = false
            /\ (Api.statusIs (TError e) 429 = true
                \/ Api.statusAtLeast (TError e) 500 = true).
Proof.
  destruct o as [data|e]; simpl; [discriminate|].
  intros H. exists e. split; [reflexivity|]. simpl.
  destruct (errStatus e) as [s|]; [|discriminate].
  apply orb_true_iff in H. split.
  - apply Z.eqb_neq. destruct H as [H|H];
      [apply Z.eqb_eq in H | apply Z.leb_le in H]; lia.
  - tauto.
Qed.

Lemma unauthorized_inv o :
  unauthorized o = true ->
  exists e, o = Reject e /\ Api.statusIs (TError e) 401 = true.
Proof.
  destruct o as [data|e]; simpl; [discriminate|].
  intros H. exists e. split; [reflexivity|]. simpl.
  now destruct (errStatus e).
Qed.

Lemma abort_from rq k : forall remaining attempt lastError n,
  (k < remaining)%nat ->
  (forall j, (j < k)%nat -> retryable (srv rq (n + j)%nat) = true) ->
  unauthorized (srv rq (n + k)%nat) = true ->
  AbortedOn401 srv rq n k
               (Api.apiRequestFrom config srv rq remaining attempt lastError n).
Proof.
  induction k as [|k IH]; intros remaining attempt lastError n Hk Hpre H401;
    (destruct remaining as [|remaining]; [lia|]); rewrite attempt_step.
  - destruct (unauthorized_inv _ H401) as (e & He & Hs).
    rewrite Nat.add_0_r in He. unfold AbortedOn401.
    rewrite Nat.add_0_r, He, Hs. cbn. repeat split. eauto.
  - destruct (retryable_inv _ (Hpre 0%nat ltac:(lia))) as (e & He & Hn401 & Hretry).
    rewrite Nat.add_0_r in He. rewrite He, Hn401.
    destruct (IH remaining (attempt + 1) (TError e) (S n) ltac:(lia))
      as (Hr & Hc & before & Hev).
    { intros j Hj. replace (S n + j)%nat with (n + S j)%nat by lia.
      apply Hpre. lia. }
    { now replace (S n + k)%nat with (n + S k)%nat by lia. }
    replace (S n + k)%nat with (n + S k)%nat in * by lia.
    unfold AbortedOn401.
    destruct (Api.statusIs (TError e) 429).
    + rewrite after_result, after_calls, after_events.
      rewrite Hr, Hc, Hev. repeat split.
      eexists. rewrite app_assoc. reflexivity.
    + destruct Hretry as [Hretry|Hretry]; [discriminate|]. rewrite Hretry.
      rewrite after_result, after_calls, after_events.
      rewrite Hr, Hc, Hev. repeat split.
      eexists. rewrite app_assoc. reflexivity.
Qed.

(** *** Two server errors, then success *)

Lemma two_errors_then_success rq n data :
  (3 <= Z.to_nat (Config.maxRetries config))%nat ->
  serverError (srv rq n) = true ->
  serverError (srv rq (S n)) = true ->
  srv rq (S (S n)) = Resolve data ->
  let x := Api.apiRequestFrom config srv rq
             (Z.to_nat (Config.maxRetries config)) 1 TUndefined n in
  resultOf x = Returned data /\
  callsOf x = (n + 3)%nat /\
  waits (eventsOf x)
  = [ (Backoff, Config.retryDelay config * 2);
      (Backoff, Config.retryDelay config * 4);
      (Courtesy, Config.requestDelay config) ].
Proof.
  intros Hm H1 H2 H3.
  destruct (Z.to_nat (Config.maxRetries config)) as [|[|[|m]]]; try lia.
  destruct (serverError_inv _ H1) as (e1 & He1 & Ha1 & Hb1 & Hc1).
  destruct (serverError_inv _ H2) as (e2 & He2 & Ha2 & Hb2 & Hc2).
  cbv zeta.
  rewrite attempt_step, He1, Ha1, Hb1, Hc1.
  rewrite attempt_step, He2, Ha2, Hb2, Hc2.
  rewrite attempt_step, H3.
  rewrite !after_result, !after_calls, !after_events.
  cbn [resultOf callsOf eventsOf fst snd].
  split; [reflexivity|]. split; [lia|].
  rewrite !waits_app. reflexivity.
Qed.

End Client.

(** C2, on the source.  With the constants of config.js, a request that
    meets a 500 on its first two attempts and succeeds on the third returns
    the payload after three requests; its two back-off sleeps last
    [retryDelay * 2] and [retryDelay * 4], that is 2000 ms and 4000 ms, not
    [retryDelay] and [retryDelay * 2]; the pause after the success
    follows. *)
Theorem backoff_after_two_server_errors :
  let payload := JObj [("items", JScalar SNull)] in
  let x := Api.apiRequest Config.config (twiceDown payload)
                          "GET" (Path "/collections") [] 0 in
  resultOf x = Returned payload /\
  callsOf x = 3%nat /\
  backoffWaits (eventsOf x) = [2000; 4000]%Z /\
  waits (eventsOf x) = [(Backoff, 2000); (Backoff, 4000); (Courtesy, 200)]%Z /\
  backoffWaits (eventsOf x)
  <> [Config.retryDelay Config.config; Config.retryDelay Config.config * 2]%Z.
Proof.
  cbv zeta. repeat split; try reflexivity. discriminate.
Qed.

(** The same for every configuration that allows three attempts, every
    service and every request, for [apiRequest] and for [getRaw]. *)
Lemma two_server_errors_then_success_anywhere config srv method u options n data :
  (3 <= Z.to_nat (Config.maxRetries config))%nat ->
  (let rq := mkRequest method u options in
   serverError (srv rq n) = true ->
   serverError (srv rq (S n)) = true ->
   srv rq (S (S n)) = Resolve data ->
   let x := Api.apiRequest config srv method u options n in
   resultOf x = Returned data /\
   callsOf x = (n + 3)%nat /\
   waits (eventsOf x)
   = [ (Backoff, Config.retryDelay config * 2);
       (Backoff, Config.retryDelay config * 4);
       (Courtesy, Config.requestDelay config) ]%Z) /\
  (let rq := rawRequest u in
   serverError (srv rq n) = true ->
   serverError (srv rq (S n)) = true ->
   srv rq (S (S n)) = Resolve data ->
   let x := Api.getRaw config srv u n in
   resultOf x = Returned data /\
   callsOf x = (n + 3)%nat /\
   waits (eventsOf x)
   = [ (Backoff, Config.retryDelay config * 2);
       (Backoff, Config.retryDelay config * 4);
       (Courtesy, Config.requestDelay config) ]%Z).
Proof.
  intros Hm. split; cbv zeta; intros H1 H2 H3.
  - now apply two_errors_then_success.
  - rewrite getRaw_apiRequest. now apply two_errors_then_success.
Qed.

(** C3, as the source has it.  When every one of the [maxRetries] attempts
    of a request meets a status of 500 or more, [apiRequest] and [getRaw]
    make [maxRetries] requests, sleep exactly [maxRetries - 1] times, each
    time to back off before the next attempt, and throw the error of the
    last attempt itself, not a new error that wraps it. *)
Theorem exhausted_retries_rethrow_last_error config srv method u options n :
  (1 <= Z.to_nat (Config.maxRetries config))%nat ->
  ((forall j, (j < Z.to_nat (Config.maxRetries config))%nat ->
              serverError (srv (mkRequest method u options) (n + j)%nat) = true) ->
   Exhausted srv (mkRequest method u options) n
             (Z.to_nat (Config.maxRetries config))
             (Api.apiRequest config srv method u options n)) /\
  ((forall j, (j < Z.to_nat (Config.maxRetries config))%nat ->
              serverError (srv (rawRequest u) (n + j)%nat) = true) ->
   Exhausted srv (rawRequest u) n
             (Z.to_nat (Config.maxRetries config))
             (Api.getRaw config srv u n)).
Proof.
  intros Hm. split; intros Hsrv.
  - now apply exhaust_all.
  - rewrite getRaw_apiRequest. now apply exhaust_all.
Qed.

Lemma exhausted_retries_rethrow_last_error_witness :
  (1 <= Z.to_nat (Config.maxRetries Config.config))%nat /\
  Exhausted alwaysDown (mkRequest "GET" (Path "/user") []) 0 3
            (Api.apiRequest Config.config alwaysDown "GET" (Path "/user") [] 0) /\
  Exhausted alwaysDown (rawRequest (ExportCsv (SNum 7))) 0 3
            (Api.getRaw Config.config alwaysDown (ExportCsv (SNum 7)) 0).
Proof.
  split; [cbv; lia|].
  destruct (exhausted_retries_rethrow_last_error
              Config.config alwaysDown "GET" (Path "/user") [] 0) as [Ha _];
    [cbv; lia|].
  destruct (exhausted_retries_rethrow_last_error
              Config.config alwaysDown "GET" (ExportCsv (SNum 7)) [] 0) as [_ Hb];
    [cbv; lia|].
  split.
  - apply Ha. intros j _. unfold alwaysDown, scripted.
    destruct j as [|[|[|j]]]; reflexivity.
  - apply Hb. intros j _. unfold alwaysDown, scripted.
    destruct j as [|[|[|j]]]; reflexivity.
Defined.

(** C3, as the specification words it, fails: against a service that
    answers 500 every time, what [apiRequest] and [getRaw] throw after the
    third attempt is the service's own error, which is no
    [RetriesExhaustedError] wrapping it. *)
Lemma exhaustion_throws_no_wrapper :
  resultOf (Api.apiRequest Config.config alwaysDown "GET" (Path "/user") [] 0)
  = Threw (TError error500) /\
  resultOf (Api.getRaw Config.config alwaysDown (ExportCsv (SNum 7)) 0)
  = Threw (TError error500) /\
  ~ Wraps "RetriesExhaustedError" error500 (TError error500).
Proof.
  split; [reflexivity|]. split; [reflexivity|].
  intros [status H]. discriminate H.
Qed.

(** C5.  When an attempt of a request, at whatever position within the
    attempt budget, meets a 401 (the attempts before it having met a 429 or
    a status of 500 or more), [apiRequest] and [getRaw] throw that error at
    once: the failed request is the last one, and between it and the throw
    there is the log line and no sleep. *)
Theorem unauthorized_aborts_at_once config srv method u options n k :
  (k < Z.to_nat (Config.maxRetries config))%nat ->
  ((forall j, (j < k)%nat ->
              retryable (srv (mkRequest method u options) (n + j)%nat) = true) ->
   unauthorized (srv (mkRequest method u options) (n + k)%nat) = true ->
   AbortedOn401 srv (mkRequest method u options) n k
                (Api.apiRequest config srv method u options n)) /\
  ((forall j, (j < k)%nat -> retryable (srv (rawRequest u) (n + j)%nat) = true) ->
   unauthorized (srv (rawRequest u) (n + k)%nat) = true ->
   AbortedOn401 srv (rawRequest u) n k (Api.getRaw config srv u n)).
Proof.
  intros Hk. split; intros Hpre H401.
  - now apply abort_from.
  - rewrite getRaw_apiRequest. now apply abort_from.
Qed.

Lemma unauthorized_aborts_at_once_witness :
  (2 < Z.to_nat (Config.maxRetries (Config.mk 200 5 1000)))%nat /\
  AbortedOn401 thenUnauthorized (mkRequest "GET" (Path "/user") []) 0 2
    (Api.apiRequest (Config.mk 200 5 1000) thenUnauthorized "GET" (Path "/user") [] 0) /\
  AbortedOn401 thenUnauthorized (rawRequest (ExportCsv (SNum 7))) 0 2
    (Api.getRaw (Config.mk 200 5 1000) thenUnauthorized (ExportCsv (SNum 7)) 0) /\
  waits (eventsOf (Api.getRaw (Config.mk 200 5 1000) thenUnauthorized
                              (ExportCsv (SNum 7)) 0))
  = [(Backoff, 2000); (Cooldown, 5000); (Backoff, 4000)]%Z.
Proof.
  split; [cbv; lia|].
  destruct (unauthorized_aborts_at_once
              (Config.mk 200 5 1000) thenUnauthorized "GET" (Path "/user") [] 0 2)
    as [Ha _]; [cbv; lia|].
  destruct (unauthorized_aborts_at_once
              (Config.mk 200 5 1000) thenUnauthorized "GET" (ExportCsv (SNum 7)) [] 0 2)
    as [_ Hb]; [cbv; lia|].
  split; [|split].
  - apply Ha; [|reflexivity]. intros j Hj. destruct j as [|[|j]]; [reflexivity..|lia].
  - apply Hb; [|reflexivity]. intros j Hj. destruct j as [|[|j]]; [reflexivity..|lia].
  - reflexivity.
Defined.

End ClientFacts.

(* ================================================================== *)
(** ** The aggregation loop                                            *)
(* ================================================================== *)

Module HarvestFacts.

Import Collections Raindrops Traffic Harvest JsFacts ClientFacts.

Local Open Scope list_scope.

(** *** The fold over the records *)

Lemma addRaindrops_app st rs1 rs2 :
  addRaindrops st (rs1 ++ rs2) = addRaindrops (addRaindrops st rs1) rs2.
Proof. apply fold_left_app. Qed.

Lemma addRaindrop_bump st r : addRaindrop (bump st) r = bump (addRaindrop st r).
Proof.
  unfold addRaindrop, bump. cbn [seenIds allRaindrops processed totalRaindrops].
  destruct (truthy_s _ && JsSet.has _ (seenIds st)); reflexivity.
Qed.

Lemma addRaindrops_bump rs : forall st,
  addRaindrops (bump st) rs = bump (addRaindrops st rs).
Proof.
  induction rs as [|r rs IH]; intros st; [reflexivity|].
  unfold addRaindrops in *. simpl. now rewrite addRaindrop_bump, IH.
Qed.

Lemma set_has_add x y s :
  JsSet.has x (JsSet.add y s) = scalar_eqb x y || JsSet.has x s.
Proof.
  unfold JsSet.add. destruct (JsSet.has y s) eqn:Hy.
  - destruct (scalar_eqb x y) eqn:E; [|reflexivity].
    apply scalar_eqb_eq in E; subst. now rewrite Hy.
  - unfold JsSet.has. rewrite existsb_app. simpl.
    rewrite orb_false_r. apply orb_comm.
Qed.

(** One record and the records with a given truthy identifier. *)
Lemma addRaindrop_by_id x st r :
  truthy_s x = true ->
  filter (hasId x) (allRaindrops (addRaindrop st r))
  = filter (hasId x) (allRaindrops st)
    ++ (if JsSet.has x (seenIds st) then []
        else if hasId x r then [r] else [])
  /\ JsSet.has x (seenIds (addRaindrop st r))
     = JsSet.has x (seenIds st) || hasId x r.
Proof.
  intros Hx. unfold addRaindrop. fold (raindropId r).
  destruct (hasId x r) eqn:E; unfold hasId in E.
  - apply scalar_eqb_eq in E. rewrite E, Hx. cbn [andb].
    destruct (JsSet.has x (seenIds st)) eqn:Hseen.
    + rewrite Hseen, app_nil_r. split; reflexivity.
    + cbn [allRaindrops seenIds].
      rewrite set_has_add, scalar_eqb_refl, filter_app. cbn [filter orb].
      unfold hasId at 2. rewrite E, scalar_eqb_refl. split; reflexivity.
  - assert (Hkeep : forall l, filter (hasId x) (l ++ [r]) = filter (hasId x) l).
    { intros l. rewrite filter_app. cbn [filter]. unfold hasId at 2.
      now rewrite E, app_nil_r. }
    assert (Hs : JsSet.has x (JsSet.add (raindropId r) (seenIds st))
                 = JsSet.has x (seenIds st)).
    { rewrite set_has_add.
      replace (scalar_eqb x (raindropId r)) with false; [reflexivity|].
      symmetry. apply scalar_eqb_neq. apply scalar_eqb_neq in E. congruence. }
    rewrite orb_false_r.
    destruct (truthy_s (raindropId r));
      destruct (JsSet.has (raindropId r) (seenIds st));
      cbn [andb allRaindrops seenIds]; rewrite ?Hkeep, ?Hs;
      (destruct (JsSet.has x (seenIds st)); rewrite app_nil_r; split; reflexivity).
Qed.

(** The records with a given truthy identifier, after a fold. *)
Lemma addRaindrops_by_id x rs :
  truthy_s x = true ->
  forall st,
    filter (hasId x) (allRaindrops (addRaindrops st rs))
    = filter (hasId x) (allRaindrops st)
      ++ (if JsSet.has x (seenIds st) then []
          else match find (hasId x) rs with Some r => [r] | None => [] end)
    /\ JsSet.has x (seenIds (addRaindrops st rs))
       = JsSet.has x (seenIds st) || existsb (hasId x) rs.
Proof.
  intros Hx. induction rs as [|r rs IH]; intros st.
  - simpl. split.
    + destruct (JsSet.has x (seenIds st)); now rewrite app_nil_r.
    + now rewrite orb_false_r.
  - unfold addRaindrops in *. cbn [fold_left find existsb].
    destruct (IH (addRaindrop st r)) as [IHa IHs]. rewrite IHa, IHs. clear IHa IHs.
    destruct (addRaindrop_by_id x st r Hx) as [Ha Hs]. rewrite Ha, Hs.
    destruct (JsSet.has x (seenIds st)); destruct (hasId x r); cbn [orb];
      rewrite ?app_nil_r; split; reflexivity.
Qed.

(** The records without identifier, after a fold. *)
Lemma addRaindrops_anonymous rs : forall st,
  filter anonymous (allRaindrops (addRaindrops st rs))
  = filter anonymous (allRaindrops st) ++ filter anonymous rs.
Proof.
  induction rs as [|r rs IH]; intros st.
  - simpl. now rewrite app_nil_r.
  - unfold addRaindrops in *. cbn [fold_left]. rewrite IH. clear IH.
    assert (Hstep : filter anonymous (allRaindrops (addRaindrop st r))
                    = filter anonymous (allRaindrops st) ++ filter anonymous [r]).
    { assert (Han : anonymous r = negb (truthy_s (raindropId r))) by reflexivity.
      unfold addRaindrop. fold (raindropId r).
      destruct (truthy_s (raindropId r)); cbn [andb negb] in *;
        [destruct (JsSet.has (raindropId r) (seenIds st))|];
        cbn [allRaindrops filter]; rewrite ?filter_app; cbn [filter];
        rewrite Han, ?app_nil_r; reflexivity. }
    rewrite Hstep, <- app_assoc. cbn [filter].
    destruct (anonymous r); reflexivity.
Qed.

Lemma bumps_bump k st : bumps k (bump st) = bump (bumps k st).
Proof. induction k as [|k IH]; [reflexivity|]. cbn [bumps]. now rewrite IH. Qed.

Lemma iter_bump_add k : forall st rs,
  bumps k (addRaindrops st rs) = addRaindrops (bumps k st) rs.
Proof.
  induction k as [|k IH]; intros st rs; [reflexivity|].
  cbn [bumps]. now rewrite IH, addRaindrops_bump.
Qed.

Lemma iter_bump_data k st :
  allRaindrops (bumps k st) = allRaindrops st /\
  seenIds (bumps k st) = seenIds st /\
  processed (bumps k st) = (k + processed st)%nat.
Proof.
  induction k as [|k (IHa & IHs & IHp)]; [repeat split|].
  cbn [bumps]. unfold bump at 1 2 3.
  cbn [allRaindrops seenIds processed]. repeat split; auto. lia.
Qed.

Lemma find_none_of_existsb {A} (p : A -> bool) l :
  existsb p l = false -> find p l = None.
Proof.
  induction l as [|a l IH]; simpl; [reflexivity|].
  destruct (p a); [discriminate | exact IH].
Qed.

Lemma find_app {A} (p : A -> bool) l1 l2 :
  find p (l1 ++ l2)
  = match find p l1 with Some a => Some a | None => find p l2 end.
Proof.
  induction l1 as [|a l1 IH]; simpl; [reflexivity|].
  destruct (p a); [reflexivity | exact IH].
Qed.

Lemma find_concat_none {A B} (p : A -> bool) (bs : list (B * list A)) :
  (forall b, In b bs -> existsb p (snd b) = false) ->
  find p (List.concat (map snd bs)) = None.
Proof.
  induction bs as [|b bs IH]; intros H; simpl; [reflexivity|].
  rewrite find_app, (find_none_of_existsb p (snd b)) by (apply H; now left).
  apply IH. intros b' Hb'. apply H. now right.
Qed.

Lemma processingLines_app evs1 evs2 :
  processingLines (evs1 ++ evs2) = (processingLines evs1 + processingLines evs2)%nat.
Proof.
  induction evs1 as [|[rq|site ms|[]] evs1 IH]; simpl; auto.
Qed.

Lemma match_404 {T} (o : option Z) (a b : T) :
  match o with Some 404%Z => a | _ => b end
  = if match o with Some s => (s =? 404)%Z | None => false end then a else b.
Proof.
  destruct o as [s|]; [|reflexivity].
  destruct (Z.eqb_spec s 404) as [->|Hne]; [reflexivity|].
  destruct s as [|p|p]; try reflexivity.
  repeat (destruct p as [p|p|]; try reflexivity); congruence.
Qed.

Lemma quiet_prelude config attempt : processingLines (prelude config attempt) = 0%nat.
Proof. unfold prelude. now destruct (1 <? attempt)%Z. Qed.

Lemma quiet_apiRequestFrom config srv rq remaining : forall attempt lastError n,
  processingLines
    (eventsOf (Api.apiRequestFrom config srv rq remaining attempt lastError n))
  = 0%nat.
Proof.
  induction remaining as [|remaining IH]; intros attempt lastError n;
    [reflexivity|].
  rewrite attempt_step.
  destruct (srv rq n) as [data|e].
  - cbn [eventsOf snd]. now rewrite processingLines_app, quiet_prelude.
  - destruct (Api.statusIs (TError e) 401);
      [cbn [eventsOf snd]; now rewrite processingLines_app, quiet_prelude|].
    destruct (Api.statusIs (TError e) 429);
      [rewrite after_events, !processingLines_app, quiet_prelude, IH; reflexivity|].
    destruct (Api.statusAtLeast (TError e) 500);
      [rewrite after_events, !processingLines_app, quiet_prelude, IH; reflexivity|].
    cbn [eventsOf snd]. now rewrite processingLines_app, quiet_prelude.
Qed.

Lemma quiet_getRaw config srv u n :
  processingLines (eventsOf (Api.getRaw config srv u n)) = 0%nat.
Proof. rewrite getRaw_apiRequest. apply quiet_apiRequestFrom. Qed.

(** *** Objects *)

Lemma object_get_set k k' v o :
  JsObject.get k (JsObject.set k' v o)
  = if String.eqb k k' then v else JsObject.get k o.
Proof.
  induction o as [|[k2 v2] o IH]; simpl.
  - destruct (String.eqb k k'); reflexivity.
  - destruct (String.eqb k' k2) eqn:E2; simpl.
    + apply String.eqb_eq in E2; subst k2.
      destruct (String.eqb k k'); reflexivity.
    + destruct (String.eqb k k2) eqn:E.
      * apply String.eqb_eq in E; subst k2.
        rewrite String.eqb_sym in E2. now rewrite E2.
      * exact IH.
Qed.

Lemma raindropId_tagRow id t fp rt g row :
  raindropId (tagRow id t fp rt g row) = raindropId row.
Proof.
  unfold raindropId, tagRow. now rewrite !object_get_set.
Qed.

(** *** One collection *)

Section Run.
Variable config : Config.t.
Variable srv : server.
Variable parseCsv : string -> result (list JsObject.t).
Variable blank : string -> bool.
Variable cm : collectionMap.
Variables fullPaths roots groups : JsMap.t string.

Abbreviation exportOf' := (exportOf config srv parseCsv blank cm fullPaths roots groups).
Abbreviation fetched' := (fetched config srv parseCsv blank cm fullPaths roots groups).
Abbreviation TaggedFor' := (TaggedFor cm fullPaths roots groups).
Abbreviation processCollection' :=
  (processCollection config srv parseCsv blank cm fullPaths roots groups).
Abbreviation forCollections' :=
  (forCollections config srv parseCsv blank cm fullPaths roots groups).

Ltac run_fetch :=
  unfold fetchCollectionRaindrops, fetchCollectionCsv, try_catch, bind,
    liftResult, ret, throw, log, emit, resultOf, callsOf, eventsOf;
  cbn [fst snd].

(** What the fetch for a collection makes of a failure of [getRaw]. *)
Lemma fetch_on_failure id t fp rt g n thrownValue :
  resultOf (Api.getRaw config srv (ExportCsv id) n) = Threw thrownValue ->
  fetchCollectionRaindrops config srv parseCsv blank id t fp rt g n
  = let x := Api.getRaw config srv (ExportCsv id) n in
    if Api.statusIs thrownValue 404 then
      (Returned [], callsOf x, eventsOf x ++ [EvLog (LogNotFound id)])
    else
      (Threw (match thrownValue with
              | TUndefined => TError typeError
              | TError _ => thrownValue
              end),
       callsOf x, eventsOf x).
Proof.
  run_fetch.
  destruct (Api.getRaw config srv (ExportCsv id) n) as [[[data|t0] n1] ev1];
    cbn [fst snd]; intros H; [discriminate|].
  inversion H; subst t0. clear H.
  destruct thrownValue as [|e]; cbn [Api.statusIs].
  - now rewrite app_nil_r.
  - destruct (errStatus e) as [s|]; [|now rewrite app_nil_r].
    destruct (Z.eqb_spec s 404) as [->|Hne]; [reflexivity|].
    destruct s as [|p|p]; try (now rewrite app_nil_r).
    repeat (destruct p as [p|p|]; try (now rewrite app_nil_r)); congruence.
Qed.

(** The fetch for a collection never throws [undefined], and the records
    it returns carry the metadata it was given. *)
Lemma fetch_result id t fp rt g n :
  match resultOf (fetchCollectionRaindrops config srv parseCsv blank id t fp rt g n) with
  | Returned rows => exists rows0, rows = map (tagRow id t fp rt g) rows0
  | Threw thrownValue => thrownValue <> TUndefined
  end.
Proof.
  run_fetch.
  destruct (Api.getRaw config srv (ExportCsv id) n) as [[[data|t0] n1] ev1];
    cbn [fst snd].
  - destruct data as [[| |b|z|s]|fs]; cbn [truthy_s fst snd];
      try (exists []; reflexivity); try discriminate.
    + destruct b; cbn [fst snd]; [discriminate | exists []; reflexivity].
    + destruct (negb (z =? 0)%Z); cbn [fst snd];
        [discriminate | exists []; reflexivity].
    + destruct (String.eqb s "" || blank s); cbn [fst snd];
        [exists []; reflexivity|].
      destruct (parseCsv s) as [rows0|t0]; cbn [fst snd];
        [exists rows0; reflexivity|].
      destruct t0 as [|e]; cbn [fst snd]; [discriminate|].
      destruct (errStatus e) as [st|]; [|discriminate].
      destruct st as [|p|p]; try discriminate.
      repeat (destruct p as [p|p|]; try discriminate).
      exists []. reflexivity.
  - destruct t0 as [|e]; cbn [fst snd]; [discriminate|].
    destruct (errStatus e) as [st|]; [|discriminate].
    destruct st as [|p|p]; try discriminate.
    repeat (destruct p as [p|p|]; try discriminate).
    exists []. reflexivity.
Qed.

Lemma exportOf_result id n :
  match resultOf (exportOf' id n) with
  | Returned rows => forall r, In r rows -> TaggedFor' id r
  | Threw thrownValue => thrownValue <> TUndefined
  end.
Proof.
  unfold exportOf. destruct (JsMap.get id cm) as [nd|] eqn:Hnd;
    [|cbn; discriminate].
  pose proof (fetch_result id (title nd)
                (optScalar (JsMap.get id fullPaths)) (optScalar (JsMap.get id roots))
                (match JsMap.get id groups with Some g => g | None => ""%string end)
                n) as H.
  destruct (resultOf _) as [rows|t]; [|exact H].
  destruct H as [rows0 ->]. intros r Hr. apply in_map_iff in Hr as (row & <- & _).
  unfold TaggedFor, tagRow. rewrite Hnd, !object_get_set. cbn. repeat split.
Qed.

Lemma fetch_quiet id t fp rt g n :
  processingLines
    (eventsOf (fetchCollectionRaindrops config srv parseCsv blank id t fp rt g n))
  = 0%nat.
Proof.
  pose proof (quiet_getRaw config srv (ExportCsv id) n) as Hq.
  run_fetch.
  destruct (Api.getRaw config srv (ExportCsv id) n) as [[[data|t0] n1] ev1];
    cbn [eventsOf fst snd] in *.
  - destruct data as [[| |b|z|s]|fs]; cbn [truthy_s];
      [ | | destruct b | destruct (negb (z =? 0)%Z)
        | destruct (String.eqb s "" || blank s);
          [|destruct (parseCsv s) as [rows0|[|e]]] | ];
      cbn; rewrite ?match_404;
      try (destruct (match errStatus e with Some s0 => _ | None => false end); cbn);
      rewrite ?processingLines_app, ?Hq; reflexivity.
  - destruct t0 as [|e]; cbn; rewrite ?match_404;
      try (destruct (match errStatus e with Some s0 => _ | None => false end); cbn);
      rewrite ?processingLines_app, ?Hq; reflexivity.
Qed.

Lemma exportOf_quiet id n : processingLines (eventsOf (exportOf' id n)) = 0%nat.
Proof.
  unfold exportOf. destruct (JsMap.get id cm); [apply fetch_quiet | reflexivity].
Qed.

(** One iteration of the loop over the collections. *)
Lemma processCollection_step count st id n :
  processCollection' count st id n
  = let x := exportOf' id n in
    let line := EvLog (LogProcessing (S (processed st)) count
                                     (optScalar (JsMap.get id fullPaths))) in
    match resultOf x with
    | Returned rows =>
        (Returned (addRaindrops (bump st) rows), callsOf x,
         line :: eventsOf x
         ++ (if (0 <? List.length rows)%nat
             then [EvLog (LogFound (List.length rows))] else []))
    | Threw TUndefined => (Threw (TError typeError), callsOf x, line :: eventsOf x)
    | Threw (TError _) =>
        (Returned (bump st), callsOf x,
         line :: eventsOf x ++ [EvLog (LogFetchError id)])
    end.
Proof.
  unfold processCollection, exportOf, try_catch, bind, log, emit, ret, throw,
    resultOf, callsOf, eventsOf, bump.
  cbn [fst snd processed app].
  destruct (JsMap.get id cm) as [nd|].
  - destruct (fetchCollectionRaindrops _ _ _ _ _ _ _ _ _ n) as [[[rows|[|e]] n1] ev1];
      cbn [fst snd]; try reflexivity.
    + destruct (0 <? List.length rows)%nat; cbn [fst snd app];
        rewrite ?app_nil_r; reflexivity.
    + now rewrite app_nil_r.
  - reflexivity.
Qed.

(** *** The whole loop *)

Lemma forCollections_run count : forall ids st n,
  resultOf (forCollections' count ids st n)
  = Returned (addRaindrops (bumps (List.length ids) st)
                           (List.concat (map snd (fetched' ids n)))).
Proof.
  induction ids as [|id ids IH]; intros st n; [reflexivity|].
  cbn [forCollections fetched map List.concat List.length bumps snd].
  unfold bind. rewrite processCollection_step. cbv zeta.
  pose proof (exportOf_result id n) as Hx.
  destruct (exportOf' id n) as [[[rows|[|e]] n1] ev1];
    cbn [resultOf callsOf eventsOf fst snd] in *; [| congruence |].
  - specialize (IH (addRaindrops (bump st) rows) n1).
    destruct (forCollections' count ids (addRaindrops (bump st) rows) n1)
      as [[r2 n2] ev2]; cbn [resultOf fst snd] in *.
    rewrite IH, iter_bump_add, addRaindrops_app, bumps_bump. reflexivity.
  - specialize (IH (bump st) n1).
    destruct (forCollections' count ids (bump st) n1)
      as [[r2 n2] ev2]; cbn [resultOf fst snd app] in *.
    rewrite IH, bumps_bump. reflexivity.
Qed.

(** The output of [fetchAllRaindrops] is the fold of [addRaindrop] over the
    records fetched for the collections, in the order of the keys. *)
Lemma harvest_output n :
  resultOf (fetchAllRaindrops config srv parseCsv blank cm fullPaths roots groups n)
  = Returned (allRaindrops
                (addRaindrops start
                              (List.concat (map snd (fetched' (JsMap.keys cm) n))))).
Proof.
  unfold fetchAllRaindrops, bind, log, emit, ret. cbn [fst snd].
  pose proof (forCollections_run (List.length (JsMap.keys cm)) (JsMap.keys cm)
                                 start n) as H.
  fold start.
  destruct (forCollections' _ (JsMap.keys cm) start n) as [[[st|t] n1] ev1];
    cbn [resultOf fst snd] in *; [|discriminate].
  inversion H as [Hst]. f_equal.
  rewrite <- iter_bump_add.
  apply (iter_bump_data (List.length (JsMap.keys cm))).
Qed.

Lemma fetched_tagged : forall ids n c rows r,
  In (c, rows) (fetched' ids n) -> In r rows -> TaggedFor' c r.
Proof.
  induction ids as [|id ids IH]; intros n c rows r Hin Hr; [destruct Hin|].
  cbn [fetched] in Hin. destruct Hin as [Heq|Hin]; [|eauto].
  inversion Heq; subst c rows. clear Heq.
  pose proof (exportOf_result id n) as Hx.
  destruct (resultOf (exportOf' id n)) as [rows|t]; [auto | destruct Hr].
Qed.

(** Every collection gets its turn, and the loop never throws. *)
Lemma forCollections_visits_all count : forall ids st n,
  processingLines (eventsOf (forCollections' count ids st n)) = List.length ids.
Proof.
  induction ids as [|id ids IH]; intros st n; [reflexivity|].
  cbn [forCollections List.length]. unfold bind.
  rewrite processCollection_step. cbv zeta.
  pose proof (exportOf_result id n) as Hx.
  pose proof (exportOf_quiet id n) as Hq.
  destruct (exportOf' id n) as [[[rows|[|e]] n1] ev1];
    cbn [resultOf callsOf eventsOf fst snd] in *; [| congruence |].
  - specialize (IH (addRaindrops (bump st) rows) n1).
    destruct (forCollections' count ids (addRaindrops (bump st) rows) n1)
      as [[r2 n2] ev2]; cbn [eventsOf fst snd] in *.
    cbn [app processingLines]. rewrite !processingLines_app, Hq, IH.
    destruct (0 <? List.length rows)%nat; reflexivity.
  - specialize (IH (bump st) n1).
    destruct (forCollections' count ids (bump st) n1)
      as [[r2 n2] ev2]; cbn [eventsOf fst snd] in *.
    cbn [app processingLines]. rewrite !processingLines_app, Hq, IH. reflexivity.
Qed.

Lemma harvest_visits_all n :
  processingLines
    (eventsOf (fetchAllRaindrops config srv parseCsv blank cm fullPaths roots groups n))
  = List.length (JsMap.keys cm).
Proof.
  unfold fetchAllRaindrops, bind, log, emit, ret. cbn [fst snd].
  pose proof (forCollections_visits_all (List.length (JsMap.keys cm))
                                        (JsMap.keys cm) start n) as Hv.
  pose proof (forCollections_run (List.length (JsMap.keys cm)) (JsMap.keys cm)
                                 start n) as Hr.
  fold start.
  destruct (forCollections' _ (JsMap.keys cm) start n) as [[[st|t] n1] ev1];
    cbn [resultOf eventsOf fst snd] in *; [|discriminate].
  cbn [app processingLines]. rewrite processingLines_app, Hv. cbn. lia.
Qed.

(** A collection whose fetch fails, and the rest of the loop. *)
Lemma failed_collection_step count id nd rest st n thrownValue :
  JsMap.get id cm = Some nd ->
  resultOf (Api.getRaw config srv (ExportCsv id) n) = Threw thrownValue ->
  forCollections' count (id :: rest) st n
  = after (EvLog (LogProcessing (S (processed st)) count
                                (optScalar (JsMap.get id fullPaths)))
           :: eventsOf (Api.getRaw config srv (ExportCsv id) n)
           ++ [EvLog (if Api.statusIs thrownValue 404 then LogNotFound id
                      else LogFetchError id)])
          (forCollections' count rest (bump st)
                           (callsOf (Api.getRaw config srv (ExportCsv id) n))).
Proof.
  intros Hnd Hraw. cbn [forCollections]. unfold bind.
  rewrite processCollection_step. cbv zeta. unfold exportOf. rewrite Hnd.
  rewrite (fetch_on_failure _ _ _ _ _ _ _ Hraw). cbv zeta.
  destruct (Api.statusIs thrownValue 404).
  - cbn [resultOf callsOf eventsOf fst snd List.length Nat.ltb Nat.leb].
    change (addRaindrops (bump st) []) with (bump st).
    destruct (forCollections' count rest (bump st) _) as [[r2 n2] ev2].
    unfold after. cbn [resultOf callsOf eventsOf fst snd app].
    now rewrite app_nil_r.
  - cbn [resultOf callsOf eventsOf fst snd].
    destruct thrownValue as [|e];
      (destruct (forCollections' count rest (bump st) _) as [[r2 n2] ev2];
       unfold after; cbn [resultOf callsOf eventsOf fst snd app]; reflexivity).
Qed.

End Run.




(** The run on the toy service: bookmark b comes out once, from
    collection 1; the two rows without id both come out. *)
Example toy_output :
  fetched Config.config toyServer toyParse toyBlank
          toyMap toyFullPaths toyRoots toyGroups (JsMap.keys toyMap) 0
  = [(SNum 1, toyBatch1); (SNum 2, []); (SNum 3, toyBatch3)] /\
  resultOf toyRun
  = Returned (toyBatch1
              ++ map (tagRow (SNum 3) "Three" (SStr "G / One / Three") (SStr "One") "")
                     (toyRows "c-")).
Proof. split; reflexivity. Qed.

(** C6.  When the exports of two collections both hold a bookmark with the
    same truthy identifier ([id], or [_id] when [id] is missing or empty),
    the output of [fetchAllRaindrops] holds exactly one record with that
    identifier: the first such record of the first collection, in processing
    order, whose export holds one, with the metadata of that collection. The
    later ones are left out and the run returns normally. *)
Theorem first_collection_wins config srv parseCsv blank cm fullPaths roots groups n
        x before c1 rows1 between c2 rows2 later r1 :
  truthy_s x = true ->
  fetched config srv parseCsv blank cm fullPaths roots groups (JsMap.keys cm) n
  = before ++ (c1, rows1) :: between ++ (c2, rows2) :: later ->
  (forall b, In b before -> existsb (hasId x) (snd b) = false) ->
  find (hasId x) rows1 = Some r1 ->
  existsb (hasId x) rows2 = true ->
  exists out,
    resultOf (fetchAllRaindrops config srv parseCsv blank cm fullPaths roots groups n)
    = Returned out /\
    filter (hasId x) out = [r1] /\
    In r1 rows1 /\
    TaggedFor cm fullPaths roots groups c1 r1.
Proof.
  intros Hx Hbatches Hbefore Hfind _.
  eexists. split; [apply harvest_output|].
  destruct (addRaindrops_by_id x
              (List.concat (map snd (fetched config srv parseCsv blank cm fullPaths
                                        roots groups (JsMap.keys cm) n)))
              Hx start) as [Hout _].
  rewrite Hout. cbn [start allRaindrops seenIds filter JsSet.has JsSet.empty
                     existsb app].
  pose proof (find_some _ _ Hfind) as [Hin _].
  split; [|split; [exact Hin|]].
  - rewrite Hbatches, map_app, concat_app, find_app.
    rewrite (find_concat_none (hasId x) before Hbefore).
    cbn [map List.concat snd]. now rewrite find_app, Hfind.
  - apply (fetched_tagged config srv parseCsv blank cm fullPaths roots groups
             (JsMap.keys cm) n c1 rows1 r1); [|exact Hin].
    rewrite Hbatches. apply in_or_app. right. now left.
Qed.

Lemma first_collection_wins_witness :
  truthy_s (SStr "b") = true /\
  existsb (hasId (SStr "b")) toyBatch1 = true /\
  existsb (hasId (SStr "b")) toyBatch3 = true /\
  exists out,
    resultOf toyRun = Returned out /\
    filter (hasId (SStr "b")) out
    = [tagRow (SNum 1) "One" (SStr "G / One") (SStr "One") "G" [("id", SStr "b")]] /\
    In (tagRow (SNum 1) "One" (SStr "G / One") (SStr "One") "G" [("id", SStr "b")])
       toyBatch1 /\
    TaggedFor toyMap toyFullPaths toyRoots toyGroups (SNum 1)
      (tagRow (SNum 1) "One" (SStr "G / One") (SStr "One") "G" [("id", SStr "b")]).
Proof.
  split; [reflexivity|]. split; [reflexivity|]. split; [reflexivity|].
  apply (first_collection_wins
           Config.config toyServer toyParse toyBlank
           toyMap toyFullPaths toyRoots toyGroups 0
           (SStr "b") [] (SNum 1) toyBatch1 [(SNum 2, [])] (SNum 3) toyBatch3 []).
  - reflexivity.
  - reflexivity.
  - intros b [].
  - reflexivity.
  - reflexivity.
Defined.

(** C10.  A record that has neither a truthy [id] nor a truthy [_id] is
    appended to the output of [fetchAllRaindrops] every time it is met: the
    records without identifier of the output are all those of the fetched
    exports, in order and with their multiplicity. *)
Theorem records_without_id_are_all_kept
        config srv parseCsv blank cm fullPaths roots groups n :
  exists out,
    resultOf (fetchAllRaindrops config srv parseCsv blank cm fullPaths roots groups n)
    = Returned out /\
    filter anonymous out
    = filter anonymous
        (List.concat (map snd (fetched config srv parseCsv blank cm fullPaths
                                  roots groups (JsMap.keys cm) n))).
Proof.
  eexists. split; [apply harvest_output|].
  now rewrite addRaindrops_anonymous.
Qed.

(** On the toy service the same row without id is in two exports, and is
    twice in the output. *)
Example toy_rows_without_id :
  exists out,
    resultOf toyRun = Returned out /\
    map (JsObject.get "collection_id") (filter anonymous out) = [SNum 1; SNum 3] /\
    map (JsObject.get "title") (filter anonymous out)
    = [SStr "untitled"; SStr "untitled"].
Proof. eexists. split; [reflexivity|]. split; reflexivity. Qed.

(** C9.  A collection whose export fetch fails does not stop the run.  If
    [getRaw] throws for it, the loop logs one line, the not-found warning
    for a 404 and the error line otherwise, leaves the records gathered so
    far as they are, and goes on with the remaining collections.  In every
    run [fetchAllRaindrops] returns a list and gives each collection of the
    map its turn. *)
Theorem failed_fetch_skips_one_collection
        config srv parseCsv blank cm fullPaths roots groups
        count id nd rest st n thrownValue :
  JsMap.get id cm = Some nd ->
  resultOf (Api.getRaw config srv (ExportCsv id) n) = Threw thrownValue ->
  forCollections config srv parseCsv blank cm fullPaths roots groups
                 count (id :: rest) st n
  = after (EvLog (LogProcessing (S (processed st)) count
                                (optScalar (JsMap.get id fullPaths)))
           :: eventsOf (Api.getRaw config srv (ExportCsv id) n)
           ++ [EvLog (if Api.statusIs thrownValue 404 then LogNotFound id
                      else LogFetchError id)])
          (forCollections config srv parseCsv blank cm fullPaths roots groups
                          count rest (bump st)
                          (callsOf (Api.getRaw config srv (ExportCsv id) n)))
  /\ allRaindrops (bump st) = allRaindrops st
  /\ seenIds (bump st) = seenIds st
  /\ forall n0,
       (exists out,
           resultOf (fetchAllRaindrops config srv parseCsv blank cm
                                       fullPaths roots groups n0)
           = Returned out)
       /\ processingLines
            (eventsOf (fetchAllRaindrops config srv parseCsv blank cm
                                         fullPaths roots groups n0))
          = List.length (JsMap.keys cm).
Proof.
  intros Hnd Hraw. split; [|split; [reflexivity|split; [reflexivity|]]].
  - eapply failed_collection_step; eauto.
  - intros n0. split.
    + eexists. apply harvest_output.
    + apply harvest_visits_all.
Qed.

Lemma failed_fetch_skips_one_collection_witness :
  JsMap.get (SNum 2) toyMap = Some (mkNode (SNum 2) "Two" SNull) /\
  resultOf (Api.getRaw Config.config toyServer (ExportCsv (SNum 2)) 1)
  = Threw (TError error404) /\
  forCollections Config.config toyServer toyParse toyBlank
                 toyMap toyFullPaths toyRoots toyGroups
                 3 [SNum 2; SNum 3] (addRaindrops (bump start) toyBatch1) 1
  = after (EvLog (LogProcessing 2 3 (SStr "Two"))
           :: eventsOf (Api.getRaw Config.config toyServer (ExportCsv (SNum 2)) 1)
           ++ [EvLog (LogNotFound (SNum 2))])
          (forCollections Config.config toyServer toyParse toyBlank
                          toyMap toyFullPaths toyRoots toyGroups
                          3 [SNum 3] (bump (addRaindrops (bump start) toyBatch1))
                          (callsOf (Api.getRaw Config.config toyServer
                                               (ExportCsv (SNum 2)) 1))).
Proof.
  split; [reflexivity|]. split; [reflexivity|].
  apply (failed_fetch_skips_one_collection
           Config.config toyServer toyParse toyBlank
           toyMap toyFullPaths toyRoots toyGroups
           3 (SNum 2) (mkNode (SNum 2) "Two" SNull) [SNum 3]
           (addRaindrops (bump start) toyBatch1) 1 (TError error404)).
  - reflexivity.
  - reflexivity.
Defined.

(** When the export of collection 2 answers 500 on each of the three
    attempts, the run makes five requests, logs the failure of collection 2
    and returns the records of collections 1 and 3. *)
Example toy_output_with_failing_collection :
  let run := fetchAllRaindrops Config.config toyServerDown toyParse toyBlank
                               toyMap toyFullPaths toyRoots toyGroups 0 in
  resultOf run = resultOf toyRun /\
  callsOf run = 5%nat /\
  In (EvLog (LogFetchError (SNum 2))) (eventsOf run) /\
  processingLines (eventsOf run) = 3%nat.
Proof.
  cbv zeta. split; [reflexivity|]. split; [reflexivity|]. split; [|reflexivity].
  vm_compute. tauto.
Qed.

End HarvestFacts.

(* ================================================================== *)
(** ** More on the hierarchy                                           *)
(* ================================================================== *)

Module TableFacts.

Import Collections Graph Tables JsFacts GraphFacts.

Section WalkMore.
Context {R : Type}.
Variable missing : R.
Variable base : scalar -> node -> R.
Variable step : R -> node -> R.
Variable cm : collectionMap.

Abbreviation walk' := (walk missing base step).

Lemma grounded_sound (cache : JsMap.t R) : Grounded cm cache -> Sound cm cache.
Proof. intros Hg x Hx He. destruct (Hg x Hx) as [k Hk]. exact (He k Hk). Qed.

Lemma grounded_set (cache : JsMap.t R) id v :
  Grounded cm cache -> (exists k, ancestor cm k id = None) ->
  Grounded cm (JsMap.set id v cache).
Proof.
  intros Hg Hid x Hx. rewrite has_set in Hx.
  apply orb_true_iff in Hx as [Hx|Hx].
  - apply scalar_eqb_eq in Hx; now subst.
  - now apply Hg.
Qed.

Lemma walk_grounded fuel id (cache : JsMap.t R) r cache' :
  walk' fuel cm id cache = Some (r, cache') ->
  Grounded cm cache -> Grounded cm cache'.
Proof.
  revert id cache r cache'.
  induction fuel as [|fuel IH]; intros id cache r cache' Hw Hg;
    pose proof Hw as Hw0; simpl in Hw; [discriminate|].
  destruct (JsMap.get id cache) as [v|]; [now inversion Hw; subst|].
  destruct (JsMap.get id cm) as [nd|] eqn:Hget; [|now inversion Hw; subst].
  pose proof (walk_returns_ends missing base step cm _ _ _ _ _ Hw0 Hg) as Hends.
  destruct (isRootNode cm nd) eqn:Hroot.
  - inversion Hw; subst. now apply grounded_set.
  - destruct (walk' fuel cm (parentId nd) cache) as [[r1 c1]|] eqn:Hrec;
      [|discriminate].
    inversion Hw; subst. apply grounded_set; [eapply IH; eauto | assumption].
Qed.

Lemma within_set (cache : JsMap.t R) id v :
  Within cm cache -> JsMap.has id cm = true -> Within cm (JsMap.set id v cache).
Proof.
  intros Hwi Hid x Hx. rewrite has_set in Hx.
  apply orb_true_iff in Hx as [Hx|Hx].
  - apply scalar_eqb_eq in Hx; now subst.
  - now apply Hwi.
Qed.

Lemma walk_within fuel : forall id (cache : JsMap.t R) r cache',
  walk' fuel cm id cache = Some (r, cache') ->
  Within cm cache -> Within cm cache'.
Proof.
  induction fuel as [|fuel IH]; intros id cache r cache' Hw Hwi;
    simpl in Hw; [discriminate|].
  destruct (JsMap.get id cache) as [v|]; [now inversion Hw; subst|].
  destruct (JsMap.get id cm) as [nd|] eqn:Hget; [|now inversion Hw; subst].
  assert (Hid : JsMap.has id cm = true) by (apply has_true; eauto).
  destruct (isRootNode cm nd).
  - inversion Hw; subst. now apply within_set.
  - destruct (walk' fuel cm (parentId nd) cache) as [[r1 c1]|] eqn:Hrec;
      [|discriminate].
    inversion Hw; subst. apply within_set; [eapply IH; eauto | assumption].
Qed.

(** The value that a walk returns for a node is the one it leaves cached. *)
Lemma walk_value_cached fuel id (cache : JsMap.t R) r cache' nd :
  walk' fuel cm id cache = Some (r, cache') ->
  JsMap.get id cm = Some nd ->
  JsMap.get id cache' = Some r.
Proof.
  intros Hw Hget. destruct fuel as [|fuel]; simpl in Hw; [discriminate|].
  destruct (JsMap.get id cache) as [v|] eqn:Hc; [now inversion Hw; subst|].
  rewrite Hget in Hw. destruct (isRootNode cm nd).
  - inversion Hw; subst. apply get_set_same.
  - destruct (walk' fuel cm (parentId nd) cache) as [[r1 c1]|];
      [|discriminate].
    inversion Hw; subst. apply get_set_same.
Qed.

(** The keys that a walk adds are ancestors of the id it was asked. *)
Lemma walk_new_keys fuel : forall id (cache : JsMap.t R) r cache' y,
  walk' fuel cm id cache = Some (r, cache') ->
  JsMap.has y cache' = true ->
  JsMap.has y cache = true \/ exists k, ancestor cm k id = Some y.
Proof.
  induction fuel as [|fuel IH]; intros id cache r cache' y Hw Hy;
    simpl in Hw; [discriminate|].
  destruct (JsMap.get id cache) as [v|]; [inversion Hw; subst; auto|].
  destruct (JsMap.get id cm) as [nd|] eqn:Hget; [|inversion Hw; subst; auto].
  destruct (isRootNode cm nd) eqn:Hroot.
  - inversion Hw; subst. rewrite has_set in Hy.
    apply orb_true_iff in Hy as [Hy|Hy]; [|auto].
    apply scalar_eqb_eq in Hy; subst. right. now exists 0.
  - destruct (walk' fuel cm (parentId nd) cache) as [[r1 c1]|] eqn:Hrec;
      [|discriminate].
    inversion Hw; subst. rewrite has_set in Hy.
    apply orb_true_iff in Hy as [Hy|Hy].
    + apply scalar_eqb_eq in Hy; subst. right. now exists 0.
    + destruct (IH _ _ _ _ _ Hrec Hy) as [Hc|[k Hk]]; [auto|].
      right. exists (S k). simpl. unfold parentStep. now rewrite Hget, Hroot.
Qed.

(** A walk that returns from the parent has not met the child. *)
Lemma walk_parent_fresh fuel id nd (cache : JsMap.t R) r cache' :
  JsMap.get id cm = Some nd -> isRootNode cm nd = false ->
  JsMap.get id cache = None -> Grounded cm cache ->
  walk' fuel cm (parentId nd) cache = Some (r, cache') ->
  JsMap.get id cache' = None.
Proof.
  intros Hget Hroot Hc Hg Hw.
  apply has_false. destruct (JsMap.has id cache') eqn:Hhas; [|reflexivity].
  exfalso.
  destruct (walk_new_keys _ _ _ _ _ _ Hw Hhas) as [Hold|[k Hk]].
  - apply has_false in Hc. congruence.
  - assert (Hcyc : OnCycle cm id).
    { exists k. simpl. unfold parentStep. now rewrite Hget, Hroot. }
    apply cycle_endless in Hcyc.
    destruct (endless_step cm id Hcyc) as (nd' & Hget' & _ & Hp).
    rewrite Hget in Hget'. inversion Hget'; subst nd'.
    pose proof (walk_endless missing base step cm fuel (parentId nd) cache Hp
                  (grounded_sound cache Hg)) as Hnone.
    congruence.
Qed.

Lemma coherent_set (cache : JsMap.t R) id nd v :
  Coherent base step cm cache ->
  JsMap.get id cm = Some nd ->
  JsMap.get id cache = None ->
  (if isRootNode cm nd then v = base id nd
   else exists vp, JsMap.get (parentId nd) cache = Some vp /\ v = step vp nd) ->
  Coherent base step cm (JsMap.set id v cache).
Proof.
  intros Hco Hget Hc Hv x ndx w Hx Hw. rewrite get_set in Hw.
  destruct (scalar_eqb x id) eqn:E.
  - apply scalar_eqb_eq in E; subst x. inversion Hw; subst w.
    rewrite Hget in Hx. inversion Hx; subst ndx.
    destruct (isRootNode cm nd); [assumption|].
    destruct Hv as (vp & Hvp & ->). exists vp. split; [|reflexivity].
    rewrite get_set. destruct (scalar_eqb (parentId nd) id) eqn:E2; [|assumption].
    apply scalar_eqb_eq in E2. rewrite E2 in Hvp. congruence.
  - specialize (Hco x ndx w Hx Hw).
    destruct (isRootNode cm ndx); [assumption|].
    destruct Hco as (vp & Hvp & ->). exists vp. split; [|reflexivity].
    rewrite get_set. destruct (scalar_eqb (parentId ndx) id) eqn:E2; [|assumption].
    apply scalar_eqb_eq in E2. rewrite E2 in Hvp. congruence.
Qed.

Lemma walk_coherent fuel : forall id (cache : JsMap.t R) r cache',
  walk' fuel cm id cache = Some (r, cache') ->
  Grounded cm cache -> Coherent base step cm cache ->
  Coherent base step cm cache'.
Proof.
  induction fuel as [|fuel IH]; intros id cache r cache' Hw Hg Hco;
    simpl in Hw; [discriminate|].
  destruct (JsMap.get id cache) as [v|] eqn:Hc; [now inversion Hw; subst|].
  destruct (JsMap.get id cm) as [nd|] eqn:Hget; [|now inversion Hw; subst].
  destruct (isRootNode cm nd) eqn:Hroot.
  - inversion Hw; subst. eapply coherent_set; eauto. now rewrite Hroot.
  - destruct (walk' fuel cm (parentId nd) cache) as [[r1 c1]|] eqn:Hrec;
      [|discriminate].
    inversion Hw; subst.
    assert (Hp : exists pn, JsMap.get (parentId nd) cm = Some pn).
    { apply has_true. unfold isRootNode in Hroot.
      apply orb_false_iff in Hroot as [_ Hroot].
      now apply negb_false_iff in Hroot. }
    destruct Hp as [pn Hpn].
    eapply coherent_set; eauto.
    + eapply walk_parent_fresh; eauto.
    + rewrite Hroot. exists r1. split; [|reflexivity].
      eapply walk_value_cached; eauto.
Qed.

(** *** The table of a whole pass *)

Lemma forKeys_invariants fuel : forall ids (cache table : JsMap.t R),
  forKeys (walk' fuel cm) ids cache = Some table ->
  Grounded cm cache -> Within cm cache -> Coherent base step cm cache ->
  Grounded cm table /\ Within cm table /\ Coherent base step cm table.
Proof.
  induction ids as [|k ids IH]; intros cache table Hf Hg Hwi Hco; simpl in Hf.
  - inversion Hf; subst. auto.
  - destruct (walk' fuel cm k cache) as [[r c1]|] eqn:Hw; [|discriminate].
    eapply IH; eauto.
    + eapply walk_grounded; eauto.
    + eapply walk_within; eauto.
    + eapply walk_coherent; eauto.
Qed.

Lemma table_invariants fuel ids (table : JsMap.t R) :
  forKeys (walk' fuel cm) ids JsMap.empty = Some table ->
  Grounded cm table /\ Within cm table /\ Coherent base step cm table.
Proof.
  intros Hf. eapply forKeys_invariants; eauto.
  - intros x Hx; discriminate.
  - intros x Hx; discriminate.
  - intros x nd v _ Hv; discriminate.
Qed.

(** Two coherent tables agree wherever both are defined. *)
Lemma coherent_agree (t1 t2 : JsMap.t R) :
  Coherent base step cm t1 -> Coherent base step cm t2 ->
  forall k id v1 v2,
    ancestor cm k id = None ->
    JsMap.get id t1 = Some v1 -> JsMap.get id t2 = Some v2 ->
    JsMap.has id cm = true ->
    v1 = v2.
Proof.
  intros H1 H2. induction k as [|k IH]; intros id v1 v2 Hk Hv1 Hv2 Hid;
    [discriminate|].
  apply has_true in Hid as [nd Hnd].
  specialize (H1 id nd v1 Hnd Hv1). specialize (H2 id nd v2 Hnd Hv2).
  simpl in Hk. unfold parentStep in Hk. rewrite Hnd in Hk.
  destruct (isRootNode cm nd) eqn:Hroot; [congruence|].
  destruct H1 as (p1 & Hp1 & ->). destruct H2 as (p2 & Hp2 & ->).
  f_equal. eapply IH; eauto.
  unfold isRootNode in Hroot. apply orb_false_iff in Hroot as [_ Hroot].
  now apply negb_false_iff in Hroot.
Qed.

Lemma forKeys_terminates fuel : forall ids (cache : JsMap.t R),
  (forall id, In id ids -> ancestor cm fuel id = None) ->
  exists table, forKeys (walk' fuel cm) ids cache = Some table.
Proof.
  induction ids as [|k ids IH]; intros cache Hids; simpl; [eauto|].
  destruct (walk_terminates missing base step cm fuel k cache) as (r & c1 & ->).
  { apply Hids. now left. }
  apply IH. intros id Hid. apply Hids. now right.
Qed.

End WalkMore.

(** *** The three tables *)

Lemma paths_invariants fuel cm ids table :
  forKeys (getPath fuel cm) ids JsMap.empty = Some table ->
  Grounded cm table /\ Within cm table /\
  Coherent (fun _ nd => title nd)
           (fun parentPath nd => parentPath ++ " / " ++ title nd) cm table.
Proof.
  intros H. rewrite (forKeys_ext _ _ (getPath_walk fuel cm)) in H.
  eapply table_invariants; eauto.
Qed.

Lemma roots_invariants fuel cm ids table :
  forKeys (getRoot fuel cm) ids JsMap.empty = Some table ->
  Grounded cm table /\ Within cm table /\
  Coherent (fun _ nd => title nd) (fun root (_ : node) => root) cm table.
Proof.
  intros H. rewrite (forKeys_ext _ _ (getRoot_walk fuel cm)) in H.
  eapply table_invariants; eauto.
Qed.

Lemma rootIds_invariants fuel cm ids table :
  forKeys (getRootId fuel cm) ids JsMap.empty = Some table ->
  Grounded cm table /\ Within cm table /\
  Coherent (fun id (_ : node) => id) (fun rootId (_ : node) => rootId) cm table.
Proof.
  intros H. rewrite (forKeys_ext _ _ (getRootId_walk fuel cm)) in H.
  eapply table_invariants; eauto.
Qed.

Lemma nonroot_parent_present cm nd :
  isRootNode cm nd = false -> JsMap.has (parentId nd) cm = true.
Proof.
  unfold isRootNode. intros H. apply orb_false_iff in H as [_ H].
  now apply negb_false_iff in H.
Qed.

(** X1.  When the parent chain of every collection reaches a root within
    [fuel] steps, the three passes return their tables. *)
Theorem tables_computed_when_chains_end fuel cm :
  (forall id, In id (JsMap.keys cm) -> ancestor cm fuel id = None) ->
  exists paths roots rootIds,
    computeCollectionPaths fuel cm = Some paths /\
    computeRootCollections fuel cm = Some roots /\
    computeRootCollectionIds fuel cm = Some rootIds.
Proof.
  intros Hends.
  unfold computeCollectionPaths, computeRootCollections, computeRootCollectionIds.
  rewrite (forKeys_ext _ _ (getPath_walk fuel cm)),
          (forKeys_ext _ _ (getRoot_walk fuel cm)),
          (forKeys_ext _ _ (getRootId_walk fuel cm)).
  destruct (forKeys_terminates "" (fun _ nd => title nd)
              (fun p nd => p ++ " / " ++ title nd) cm fuel
              (JsMap.keys cm) JsMap.empty Hends) as [paths Hp].
  destruct (forKeys_terminates "" (fun _ nd => title nd)
              (fun r (_ : node) => r) cm fuel
              (JsMap.keys cm) JsMap.empty Hends) as [roots Hr].
  destruct (forKeys_terminates SNull (fun id (_ : node) => id)
              (fun r (_ : node) => r) cm fuel
              (JsMap.keys cm) JsMap.empty Hends) as [rootIds Hi].
  exists paths, roots, rootIds. auto.
Qed.

Lemma tables_computed_when_chains_end_witness :
  (forall id, In id (JsMap.keys exampleMap) -> ancestor exampleMap 4 id = None) /\
  exists paths roots rootIds,
    computeCollectionPaths 4 exampleMap = Some paths /\
    computeRootCollections 4 exampleMap = Some roots /\
    computeRootCollectionIds 4 exampleMap = Some rootIds.
Proof.
  assert (H : forall id, In id (JsMap.keys exampleMap) ->
                         ancestor exampleMap 4 id = None).
  { intros id [<-|[<-|[<-|[]]]]; reflexivity. }
  split; [exact H|].
  apply (tables_computed_when_chains_end 4 exampleMap H).
Defined.

Lemma paths_nodup fuel cm paths :
  computeCollectionPaths fuel cm = Some paths -> NoDup (JsMap.keys paths).
Proof.
  intros Hc. unfold computeCollectionPaths in Hc.
  rewrite (forKeys_ext _ _ (getPath_walk fuel cm)) in Hc.
  eapply forKeys_nodup; eauto. constructor.
Qed.

Lemma paths_has fuel cm paths :
  computeCollectionPaths fuel cm = Some paths ->
  forall id, JsMap.has id paths = JsMap.has id cm.
Proof.
  intros Hc id. unfold computeCollectionPaths in Hc.
  destruct (paths_invariants _ _ _ _ Hc) as (_ & Hwi & _).
  rewrite (forKeys_ext _ _ (getPath_walk fuel cm)) in Hc.
  destruct (JsMap.has id cm) eqn:Hid.
  - eapply forKeys_has; eauto. right. split; [|assumption]. now apply in_keys_iff.
  - destruct (JsMap.has id paths) eqn:Hp; [|reflexivity].
    apply Hwi in Hp. congruence.
Qed.

(** X2.  The table that [computeCollectionPaths] returns has exactly the
    keys of the collection map, each once, and the parent chain of each of
    them ends at a root. *)
Theorem paths_table_has_the_keys_of_the_map fuel cm paths :
  computeCollectionPaths fuel cm = Some paths ->
  NoDup (JsMap.keys paths) /\
  (forall id, JsMap.has id paths = JsMap.has id cm) /\
  (forall id, JsMap.has id cm = true -> exists k, ancestor cm k id = None).
Proof.
  intros Hc. split; [|split].
  - eapply paths_nodup; eauto.
  - eapply paths_has; eauto.
  - intros id Hid.
    pose proof (paths_has _ _ _ Hc id) as Hh.
    unfold computeCollectionPaths in Hc.
    destruct (paths_invariants _ _ _ _ Hc) as (Hg & _ & _).
    apply Hg. congruence.
Qed.

Lemma paths_table_has_the_keys_of_the_map_witness :
  computeCollectionPaths 3 exampleMap
  = Some [(SNum 1, "A"); (SNum 2, "A / B"); (SNum 3, "A / B / C")] /\
  NoDup (JsMap.keys [(SNum 1, "A"); (SNum 2, "A / B"); (SNum 3, "A / B / C")]) /\
  (forall id, JsMap.has id [(SNum 1, "A"); (SNum 2, "A / B"); (SNum 3, "A / B / C")]
              = JsMap.has id exampleMap) /\
  (forall id, JsMap.has id exampleMap = true ->
              exists k, ancestor exampleMap k id = None).
Proof.
  split; [reflexivity|].
  apply (paths_table_has_the_keys_of_the_map 3 exampleMap). reflexivity.
Defined.

(** X3.  In the table of [computeCollectionPaths] the path of a collection
    that has a parent in the map is the path of that parent, then " / ",
    then its own title. *)
Theorem child_path_extends_parent_path fuel cm paths id nd :
  computeCollectionPaths fuel cm = Some paths ->
  JsMap.get id cm = Some nd ->
  isRootNode cm nd = false ->
  exists parentPath,
    JsMap.get (parentId nd) paths = Some parentPath /\
    JsMap.get id paths = Some (parentPath ++ " / " ++ title nd).
Proof.
  intros Hc Hget Hroot.
  pose proof (paths_has _ _ _ Hc) as Hkeys.
  unfold computeCollectionPaths in Hc.
  destruct (paths_invariants _ _ _ _ Hc) as (_ & _ & Hco).
  assert (Hid : exists v, JsMap.get id paths = Some v).
  { apply has_true. rewrite Hkeys. apply has_true; eauto. }
  destruct Hid as [v Hv]. specialize (Hco id nd v Hget Hv). rewrite Hroot in Hco.
  destruct Hco as (vp & Hvp & ->). eauto.
Qed.

Lemma child_path_extends_parent_path_witness :
  computeCollectionPaths 3 exampleMap
  = Some [(SNum 1, "A"); (SNum 2, "A / B"); (SNum 3, "A / B / C")] /\
  isRootNode exampleMap (mkNode (SNum 3) "C" (SNum 2)) = false /\
  exists parentPath,
    JsMap.get (SNum 2) [(SNum 1, "A"); (SNum 2, "A / B"); (SNum 3, "A / B / C")]
    = Some parentPath /\
    JsMap.get (SNum 3) [(SNum 1, "A"); (SNum 2, "A / B"); (SNum 3, "A / B / C")]
    = Some (parentPath ++ " / " ++ "C").
Proof.
  split; [reflexivity|]. split; [reflexivity|].
  apply (child_path_extends_parent_path 3 exampleMap _ (SNum 3)
           (mkNode (SNum 3) "C" (SNum 2))); reflexivity.
Defined.

(** *** Paths in closed form *)

Lemma string_app_assoc (a b c : string) : (a ++ b) ++ c = a ++ (b ++ c).
Proof. induction a as [|ch a IH]; simpl; [reflexivity | now rewrite IH]. Qed.

Lemma joinPath_snoc titles t :
  titles <> [] -> joinPath (titles ++ [t])%list = joinPath titles ++ " / " ++ t.
Proof.
  induction titles as [|a titles IH]; intros Hne; [congruence|].
  destruct titles as [|b titles]; [reflexivity|].
  change (joinPath (((a :: b :: titles) ++ [t])%list))
    with (a ++ " / " ++ joinPath ((b :: titles) ++ [t])%list).
  rewrite IH by discriminate.
  change (joinPath (a :: b :: titles)) with (a ++ " / " ++ joinPath (b :: titles)).
  now rewrite !string_app_assoc.
Qed.

Lemma lineage_nonempty cm k id nd :
  JsMap.get id cm = Some nd -> lineage (S k) cm id <> [].
Proof.
  intros Hget. simpl. rewrite Hget. destruct (isRootNode cm nd); discriminate.
Qed.

Lemma coherent_path_closed_form cm paths :
  Coherent (fun _ nd => title nd)
           (fun parentPath nd => parentPath ++ " / " ++ title nd) cm paths ->
  forall k id v,
    ancestor cm k id = None ->
    JsMap.has id cm = true ->
    JsMap.get id paths = Some v ->
    v = joinPath (map title (rev (lineage k cm id))).
Proof.
  intros Hco. induction k as [|k IH]; intros id v Hk Hid Hv; [discriminate|].
  apply has_true in Hid as [nd Hnd].
  specialize (Hco id nd v Hnd Hv).
  simpl in Hk |- *. unfold parentStep in Hk. rewrite Hnd in Hk |- *.
  destruct (isRootNode cm nd) eqn:Hroot; [exact Hco|].
  destruct Hco as (vp & Hvp & ->).
  pose proof (nonroot_parent_present cm nd Hroot) as Hp.
  rewrite (IH (parentId nd) vp Hk Hp Hvp).
  cbn [rev]. rewrite map_app. cbn [map]. rewrite joinPath_snoc; [reflexivity|].
  destruct k as [|k]; [discriminate|].
  apply has_true in Hp as [pn Hpn].
  intros Hnil. apply map_eq_nil in Hnil.
  apply (f_equal (@rev node)) in Hnil. rewrite rev_involutive in Hnil.
  now apply (lineage_nonempty cm k (parentId nd) pn Hpn).
Qed.

(** X4.  The path that [computeCollectionPaths] gives a collection is the
    titles of its ancestors, from the top one down to the collection
    itself, joined by " / ". *)
Theorem path_is_joined_titles fuel cm paths id k :
  computeCollectionPaths fuel cm = Some paths ->
  JsMap.has id cm = true ->
  ancestor cm k id = None ->
  JsMap.get id paths = Some (joinPath (map title (rev (lineage k cm id)))).
Proof.
  intros Hc Hid Hk.
  pose proof (paths_has _ _ _ Hc) as Hkeys.
  unfold computeCollectionPaths in Hc.
  destruct (paths_invariants _ _ _ _ Hc) as (_ & _ & Hco).
  assert (Hv : exists v, JsMap.get id paths = Some v).
  { apply has_true. now rewrite Hkeys. }
  destruct Hv as [v Hv]. rewrite Hv. f_equal.
  eapply coherent_path_closed_form; eauto.
Qed.

Lemma path_is_joined_titles_witness :
  computeCollectionPaths 3 exampleMap
  = Some [(SNum 1, "A"); (SNum 2, "A / B"); (SNum 3, "A / B / C")] /\
  ancestor exampleMap 3 (SNum 3) = None /\
  JsMap.get (SNum 3) [(SNum 1, "A"); (SNum 2, "A / B"); (SNum 3, "A / B / C")]
  = Some (joinPath ["A"; "B"; "C"]).
Proof.
  split; [reflexivity|]. split; [reflexivity|].
  apply (path_is_joined_titles 3 exampleMap _ (SNum 3) 3); reflexivity.
Defined.

(** *** Roots *)

Lemma coherent_root_facts cm roots rootIds :
  Coherent (fun _ nd => title nd) (fun root (_ : node) => root) cm roots ->
  Coherent (fun id (_ : node) => id) (fun rootId (_ : node) => rootId) cm rootIds ->
  forall k id t r,
    ancestor cm k id = None ->
    JsMap.has id cm = true ->
    JsMap.get id roots = Some t ->
    JsMap.get id rootIds = Some r ->
    exists rn j,
      JsMap.get r cm = Some rn /\ isRootNode cm rn = true /\
      t = title rn /\ ancestor cm j id = Some r.
Proof.
  intros Hr Hi. induction k as [|k IH]; intros id t r Hk Hid Ht Hrid;
    [discriminate|].
  apply has_true in Hid as [nd Hnd].
  specialize (Hr id nd t Hnd Ht). specialize (Hi id nd r Hnd Hrid).
  simpl in Hk. unfold parentStep in Hk. rewrite Hnd in Hk.
  destruct (isRootNode cm nd) eqn:Hroot.
  - subst. exists nd, 0. auto.
  - destruct Hr as (tp & Htp & ->). destruct Hi as (rp & Hrp & ->).
    destruct (IH (parentId nd) tp rp Hk (nonroot_parent_present cm nd Hroot)
                 Htp Hrp) as (rn & j & H1 & H2 & H3 & H4).
    exists rn, (S j). repeat split; auto.
    simpl. unfold parentStep. now rewrite Hnd, Hroot.
Qed.

(** X5.  The tables of [computeRootCollections] and
    [computeRootCollectionIds] agree: the root id of a collection is the id
    of a root node of the map that is reached by going up from the
    collection, and the root title of the collection is the title of that
    node. *)
Theorem root_title_is_title_of_root_id fuel fuel' cm roots rootIds id nd :
  computeRootCollections fuel cm = Some roots ->
  computeRootCollectionIds fuel' cm = Some rootIds ->
  JsMap.get id cm = Some nd ->
  exists r rn j,
    JsMap.get id rootIds = Some r /\
    JsMap.get r cm = Some rn /\ isRootNode cm rn = true /\
    JsMap.get id roots = Some (title rn) /\
    ancestor cm j id = Some r.
Proof.
  intros Hr Hi Hnd.
  unfold computeRootCollections in Hr. unfold computeRootCollectionIds in Hi.
  destruct (roots_invariants _ _ _ _ Hr) as (Hg & _ & Hcr).
  destruct (rootIds_invariants _ _ _ _ Hi) as (_ & _ & Hci).
  rewrite (forKeys_ext _ _ (getRoot_walk fuel cm)) in Hr.
  rewrite (forKeys_ext _ _ (getRootId_walk fuel' cm)) in Hi.
  destruct (table_complete _ _ _ _ fuel roots id nd Hr Hnd) as (_ & t & Ht).
  destruct (table_complete _ _ _ _ fuel' rootIds id nd Hi Hnd) as (_ & r & Hrid).
  assert (Hid : JsMap.has id cm = true) by (apply has_true; eauto).
  destruct (Hg id) as [k Hk]; [apply has_true; eauto|].
  destruct (coherent_root_facts cm roots rootIds Hcr Hci k id t r Hk Hid Ht Hrid)
    as (rn & j & H1 & H2 & H3 & H4).
  exists r, rn, j. subst t. auto.
Qed.

Lemma root_title_is_title_of_root_id_witness :
  computeRootCollections 3 exampleMap
  = Some [(SNum 1, "A"); (SNum 2, "A"); (SNum 3, "A")] /\
  computeRootCollectionIds 3 exampleMap
  = Some [(SNum 1, SNum 1); (SNum 2, SNum 1); (SNum 3, SNum 1)] /\
  exists r rn j,
    JsMap.get (SNum 3) [(SNum 1, SNum 1); (SNum 2, SNum 1); (SNum 3, SNum 1)]
    = Some r /\
    JsMap.get r exampleMap = Some rn /\ isRootNode exampleMap rn = true /\
    JsMap.get (SNum 3) [(SNum 1, "A"); (SNum 2, "A"); (SNum 3, "A")]
    = Some (title rn) /\
    ancestor exampleMap j (SNum 3) = Some r.
Proof.
  split; [reflexivity|]. split; [reflexivity|].
  apply (root_title_is_title_of_root_id 3 3 exampleMap _ _ (SNum 3)
           (mkNode (SNum 3) "C" (SNum 2))); reflexivity.
Defined.

(** *** Insertion order *)

Section SameEntries.
Variables cm1 cm2 : collectionMap.
Hypothesis same : forall k, JsMap.get k cm1 = JsMap.get k cm2.

Lemma same_has k : JsMap.has k cm1 = JsMap.has k cm2.
Proof. unfold JsMap.has. now rewrite same. Qed.

Lemma same_isRootNode nd : isRootNode cm1 nd = isRootNode cm2 nd.
Proof. unfold isRootNode. now rewrite same_has. Qed.

Lemma same_ancestor k : forall id, ancestor cm1 k id = ancestor cm2 k id.
Proof.
  induction k as [|k IH]; intros id; [reflexivity|].
  simpl. unfold parentStep. rewrite same.
  destruct (JsMap.get id cm2) as [nd|]; [|reflexivity].
  rewrite same_isRootNode. destruct (isRootNode cm2 nd); auto.
Qed.

Lemma same_coherent {R} (base : scalar -> node -> R) (step : R -> node -> R)
      (t : JsMap.t R) :
  Coherent base step cm1 t -> Coherent base step cm2 t.
Proof.
  intros Hco x nd v Hx Hv. rewrite <- same in Hx.
  specialize (Hco x nd v Hx Hv). now rewrite <- same_isRootNode.
Qed.

End SameEntries.

Lemma tables_agree {R} (base : scalar -> node -> R) (step : R -> node -> R)
      cm (t1 t2 : JsMap.t R) :
  Coherent base step cm t1 -> Coherent base step cm t2 ->
  Grounded cm t1 ->
  (forall id, JsMap.has id t1 = JsMap.has id t2) ->
  Within cm t1 ->
  forall id, JsMap.get id t1 = JsMap.get id t2.
Proof.
  intros H1 H2 Hg Hkeys Hwi id.
  destruct (JsMap.get id t1) as [v1|] eqn:E1.
  - assert (Hh : JsMap.has id t1 = true) by (apply has_true; eauto).
    pose proof Hh as Hh2. rewrite Hkeys in Hh2. apply has_true in Hh2 as [v2 E2].
    destruct (Hg id Hh) as [k Hk].
    rewrite E2. f_equal.
    eapply (coherent_agree base step cm t1 t2 H1 H2 k id); eauto.
  - apply has_false in E1. rewrite Hkeys in E1. apply has_false in E1. now rewrite E1.
Qed.

(** X6.  The paths and the full paths do not depend on the order in which
    the collections were entered in the map, nor on the depth of the stack:
    two maps with the same entries give every collection the same path and
    the same full path. *)
Theorem paths_independent_of_insertion_order
        fuel1 fuel2 cm1 cm2 groups paths1 paths2 full1 full2 :
  (forall k, JsMap.get k cm1 = JsMap.get k cm2) ->
  computeCollectionPaths fuel1 cm1 = Some paths1 ->
  computeCollectionPaths fuel2 cm2 = Some paths2 ->
  fullPathsOf fuel1 cm1 groups = Some full1 ->
  fullPathsOf fuel2 cm2 groups = Some full2 ->
  forall id,
    JsMap.get id paths1 = JsMap.get id paths2 /\
    JsMap.get id full1 = JsMap.get id full2.
Proof.
  intros Hsame Hp1 Hp2 Hf1 Hf2.
  assert (Hsame' : forall k, JsMap.get k cm2 = JsMap.get k cm1)
    by (intros k; symmetry; apply Hsame).
  pose proof (paths_nodup _ _ _ Hp1) as Hnd1. pose proof (paths_has _ _ _ Hp1) as Hk1.
  pose proof (paths_nodup _ _ _ Hp2) as Hnd2. pose proof (paths_has _ _ _ Hp2) as Hk2.
  assert (Hpaths : forall id, JsMap.get id paths1 = JsMap.get id paths2).
  { unfold computeCollectionPaths in Hp1, Hp2.
    destruct (paths_invariants _ _ _ _ Hp1) as (Hg1 & Hw1 & Hc1).
    destruct (paths_invariants _ _ _ _ Hp2) as (_ & _ & Hc2).
    apply (tables_agree _ _ cm1 paths1 paths2 Hc1
             (same_coherent cm2 cm1 Hsame' _ _ _ Hc2) Hg1); [|exact Hw1].
    intros id. now rewrite Hk1, Hk2, (same_has cm1 cm2 Hsame). }
  unfold fullPathsOf in Hf1, Hf2. rewrite Hp1 in Hf1. rewrite Hp2 in Hf2.
  destruct (computeRootCollectionIds fuel1 cm1) as [ids1|] eqn:Hi1; [|discriminate].
  destruct (computeRootCollectionIds fuel2 cm2) as [ids2|] eqn:Hi2; [|discriminate].
  inversion Hf1; subst full1. inversion Hf2; subst full2.
  assert (Hids : forall id, JsMap.get id ids1 = JsMap.get id ids2).
  { unfold computeRootCollectionIds in Hi1, Hi2.
    destruct (rootIds_invariants _ _ _ _ Hi1) as (Hg1 & Hw1 & Hc1).
    destruct (rootIds_invariants _ _ _ _ Hi2) as (_ & Hw2 & Hc2).
    rewrite (forKeys_ext _ _ (getRootId_walk fuel1 cm1)) in Hi1.
    rewrite (forKeys_ext _ _ (getRootId_walk fuel2 cm2)) in Hi2.
    apply (tables_agree _ _ cm1 ids1 ids2 Hc1
             (same_coherent cm2 cm1 Hsame' _ _ _ Hc2) Hg1); [|exact Hw1].
    intros id. destruct (JsMap.has id cm1) eqn:Hid.
    + rewrite (forKeys_has _ _ _ _ fuel1 _ _ _ id Hi1)
        by (right; split; [now apply in_keys_iff | assumption]).
      rewrite (same_has cm1 cm2 Hsame) in Hid. symmetry.
      eapply forKeys_has; eauto. right. split; [now apply in_keys_iff | assumption].
    + destruct (JsMap.has id ids1) eqn:H1; [apply Hw1 in H1; congruence|].
        destruct (JsMap.has id ids2) eqn:H2; [|reflexivity].
        apply Hw2 in H2. rewrite <- (same_has cm1 cm2 Hsame) in H2. congruence. }
  intros id. split; [apply Hpaths|].
  rewrite !computeFullPaths_get by assumption.
  rewrite Hpaths. unfold groupOf. now rewrite Hids.
Qed.

Lemma paths_independent_of_insertion_order_witness :
  let cm2 := buildCollectionMap [] (rev exampleChildren ++ exampleRoots) in
  (forall k, JsMap.get k exampleMap = JsMap.get k cm2) /\
  forall id,
    JsMap.get id [(SNum 1, "A"); (SNum 2, "A / B"); (SNum 3, "A / B / C")]
    = JsMap.get id [(SNum 1, "A"); (SNum 2, "A / B"); (SNum 3, "A / B / C")]%list /\
    JsMap.get id [(SNum 1, "G / A"); (SNum 2, "G / A / B"); (SNum 3, "G / A / B / C")]
    = JsMap.get id [(SNum 1, "G / A"); (SNum 2, "G / A / B"); (SNum 3, "G / A / B / C")].
Proof.
  cbv zeta.
  assert (Hsame : forall k, JsMap.get k exampleMap
                            = JsMap.get k (buildCollectionMap
                                             [] (rev exampleChildren ++ exampleRoots))).
  { intros k. cbn.
    destruct (scalar_eqb k (SNum 1)) eqn:E1;
      destruct (scalar_eqb k (SNum 2)) eqn:E2;
      destruct (scalar_eqb k (SNum 3)) eqn:E3; try reflexivity;
      repeat match goal with
             | H : scalar_eqb _ _ = true |- _ => apply scalar_eqb_eq in H
             end; congruence. }
  split; [exact Hsame|].
  apply (paths_independent_of_insertion_order
           3 4 exampleMap (buildCollectionMap [] (rev exampleChildren ++ exampleRoots))
           exampleGroups _ _ _ _ Hsame); reflexivity.
Defined.

(** *** The construction of the maps *)

Lemma addCollection_get col d m k :
  JsMap.get k (addCollection col d m)
  = if scalar_eqb k (rawId col)
    then Some {| id := rawId col; title := raw_title col;
                 parentId := or_s (if truthy (raw_parent col)
                                   then extractParent (raw_parent col) else d)
                                  SNull |}
    else JsMap.get k m.
Proof. unfold addCollection. apply get_set. Qed.

Lemma addAll_get cols : forall m k,
  JsMap.get k (fold_left (fun m c => addCollection c SNull m) cols m)
  = match lastWithId k cols with
    | Some c => Some (nodeOf c)
    | None => JsMap.get k m
    end.
Proof.
  induction cols as [|c cols IH]; intros m k; simpl; [reflexivity|].
  rewrite IH. destruct (lastWithId k cols); [reflexivity|].
  rewrite addCollection_get.
  destruct (scalar_eqb k (rawId c)) eqn:E.
  - apply scalar_eqb_eq in E; subst. now rewrite scalar_eqb_refl.
  - replace (scalar_eqb (rawId c) k) with false; [reflexivity|].
    symmetry. apply scalar_eqb_neq. apply scalar_eqb_neq in E. congruence.
Qed.

(** X7.  [buildCollectionMap] overwrites on a duplicate id: the node found
    under an id is the one made from the last raw object with that id, the
    roots counting before the children, and an id that no raw object has
    is not in the map. *)
Theorem later_collection_overwrites rootCollections childCollections k :
  JsMap.get k (buildCollectionMap rootCollections childCollections)
  = match lastWithId k (rootCollections ++ childCollections) with
    | Some col => Some (nodeOf col)
    | None => None
    end.
Proof.
  unfold buildCollectionMap. rewrite <- fold_left_app.
  rewrite addAll_get. cbn [JsMap.get JsMap.empty].
  destruct (lastWithId k (rootCollections ++ childCollections)); reflexivity.
Qed.

Lemma lastWithId_some k cols c :
  lastWithId k cols = Some c -> In c cols /\ rawId c = k.
Proof.
  induction cols as [|c0 cols IH]; simpl; [discriminate|].
  destruct (lastWithId k cols) as [c'|].
  - intros H; inversion H; subst. destruct (IH eq_refl). auto.
  - destruct (scalar_eqb (rawId c0) k) eqn:E; [|discriminate].
    intros H; inversion H; subst. apply scalar_eqb_eq in E. auto.
Qed.

Lemma or_null_normal p :
  or_s p SNull = SNull \/ truthy_s (or_s p SNull) = true.
Proof. unfold or_s. destruct (truthy_s p) eqn:E; auto. Qed.

Lemma addAll_nodup cols : forall m,
  NoDup (JsMap.keys m) ->
  NoDup (JsMap.keys (fold_left (fun m c => addCollection c SNull m) cols m)).
Proof.
  induction cols as [|c cols IH]; intros m Hnd; simpl; [assumption|].
  apply IH. unfold addCollection. now apply nodup_keys_set.
Qed.

(** X8.  In the map that [buildCollectionMap] returns no key occurs twice,
    every key is the [id] of its node, every node comes from one of the raw
    objects, and a [parentId] is either [null] or truthy. *)
Theorem collection_map_is_well_formed rootCollections childCollections :
  let map := buildCollectionMap rootCollections childCollections in
  NoDup (JsMap.keys map) /\
  forall k nd,
    JsMap.get k map = Some nd ->
    id nd = k /\
    (exists col, In col (rootCollections ++ childCollections) /\
                 rawId col = k /\ title nd = raw_title col) /\
    (parentId nd = SNull \/ truthy_s (parentId nd) = true).
Proof.
  cbv zeta. split.
  - unfold buildCollectionMap. apply addAll_nodup, addAll_nodup. constructor.
  - intros k nd Hget. unfold buildCollectionMap in Hget.
    rewrite <- fold_left_app, addAll_get in Hget. cbn [JsMap.get JsMap.empty] in Hget.
    destruct (lastWithId k _) as [col|] eqn:Hlast; [|discriminate].
    inversion Hget; subst nd. clear Hget.
    destruct (lastWithId_some _ _ _ Hlast) as [Hin Hid].
    split; [exact Hid|]. split; [exists col; auto|].
    unfold nodeOf. cbn [parentId]. apply or_null_normal.
Qed.

Lemma setMembers_get title members : forall (m : JsMap.t string) id,
  JsMap.get id (fold_left (fun map collectionId => JsMap.set collectionId title map)
                          members m)
  = if existsb (scalar_eqb id) members then Some title else JsMap.get id m.
Proof.
  induction members as [|c members IH]; intros m id; simpl; [reflexivity|].
  rewrite IH, get_set.
  destruct (scalar_eqb id c); destruct (existsb (scalar_eqb id) members); reflexivity.
Qed.

Lemma groupsFold_get groups : forall (m : JsMap.t string) id,
  JsMap.get id
    (fold_left
       (fun map group =>
          let groupTitle := group_title group in
          fold_left (fun map collectionId => JsMap.set collectionId groupTitle map)
                    (group_collections group) map)
       groups m)
  = match lastGroupOf id groups with
    | Some t => Some t
    | None => JsMap.get id m
    end.
Proof.
  induction groups as [|g groups IH]; intros m id; simpl; [reflexivity|].
  rewrite IH. destruct (lastGroupOf id groups); [reflexivity|].
  rewrite setMembers_get.
  destruct (existsb (scalar_eqb id) (group_collections g)); reflexivity.
Qed.

(** X9.  In the map that [buildGroupMap] returns a collection id has the
    title of the last group that lists it, and has no entry when no group
    lists it. *)
Theorem last_group_wins groups id :
  JsMap.get id (buildGroupMap groups) = lastGroupOf id groups.
Proof.
  unfold buildGroupMap. rewrite groupsFold_get.
  destruct (lastGroupOf id groups); reflexivity.
Qed.

(** *** Orphans *)

Lemma orphans_fold (entries : list (scalar * node)) :
  forall (cm : collectionMap) (acc : list (scalar * string * scalar)),
  fold_left
    (fun orphans '((id, nd) : scalar * node) =>
       if truthy_s (parentId nd) && negb (JsMap.has (parentId nd) cm)
       then (orphans ++ [(id, title nd, parentId nd)])%list
       else orphans)
    entries acc
  = (acc ++ map (fun '((id, nd) : scalar * node) => (id, title nd, parentId nd))
               (filter (fun '((_, nd) : scalar * node) =>
                          truthy_s (parentId nd)
                          && negb (JsMap.has (parentId nd) cm))
                       entries))%list.
Proof.
  induction entries as [|[i nd] entries IH]; intros mp acc; simpl.
  - now rewrite app_nil_r.
  - rewrite IH.
    destruct (truthy_s (parentId nd) && negb (JsMap.has (parentId nd) mp));
      [|reflexivity].
    simpl. now rewrite <- app_assoc.
Qed.

Lemma get_in_entries {V} k (m : JsMap.t V) v : JsMap.get k m = Some v -> In (k, v) m.
Proof.
  induction m as [|[k' v'] m IH]; simpl; [discriminate|].
  destruct (scalar_eqb k k') eqn:E.
  - apply scalar_eqb_eq in E; subst. intros H; inversion H; subst. now left.
  - auto.
Qed.

(** X10.  The orphans that [loadCollections] reports are collections that
    resolve as roots, and a collection resolves as a root exactly when it
    has no parent reference or is reported as an orphan. *)
Theorem roots_are_parentless_or_orphans cm i nd :
  JsMap.get i cm = Some nd ->
  (isRootNode cm nd = true <->
   truthy_s (parentId nd) = false \/
   In (i, title nd, parentId nd) (orphansOf cm)).
Proof.
  intros Hget. unfold orphansOf, JsMap.entries. rewrite orphans_fold.
  cbn [app]. unfold isRootNode. rewrite in_map_iff. split.
  - intros H. destruct (truthy_s (parentId nd)) eqn:Ht; [|now left].
    right. exists (i, nd). split; [reflexivity|].
    apply filter_In. split; [now apply get_in_entries|].
    rewrite Ht. cbn [negb orb andb] in *. exact H.
  - intros [Ht|((i' & nd') & Heq & Hin)].
    + now rewrite Ht.
    + apply filter_In in Hin as [_ Hin]. cbn in Heq.
      injection Heq as Hi Htitle Hpar.
      apply andb_true_iff in Hin as [_ Hin]. rewrite Hpar in Hin.
      rewrite Hin. apply orb_true_r.
Qed.

Lemma roots_are_parentless_or_orphans_witness :
  JsMap.get (SNum 2) orphanMap = Some (mkNode (SNum 2) "B" (SNum 99)) /\
  orphansOf orphanMap = [(SNum 2, "B", SNum 99)] /\
  (isRootNode orphanMap (mkNode (SNum 2) "B" (SNum 99)) = true <->
   truthy_s (SNum 99) = false \/
   In (SNum 2, "B", SNum 99) (orphansOf orphanMap)).
Proof.
  split; [reflexivity|]. split; [reflexivity|].
  apply (roots_are_parentless_or_orphans orphanMap (SNum 2)
           (mkNode (SNum 2) "B" (SNum 99))).
  reflexivity.
Defined.

End TableFacts.

(* ================================================================== *)
(** ** More on the retrying client                                     *)
(* ================================================================== *)

Module ScheduleFacts.

Import Traffic Schedule ClientFacts.

Local Open Scope list_scope.

Section Client.
Variable config : Config.t.
Variable srv : server.

Local Open Scope Z_scope.

Lemma retryable_cases e :
  retryable (Reject e)
  = negb (Api.statusIs (TError e) 401)
    && (Api.statusIs (TError e) 429 || Api.statusAtLeast (TError e) 500).
Proof.
  simpl. destruct (errStatus e) as [s|]; [|reflexivity].
  destruct (Z.eqb_spec s 401) as [->|H401]; [reflexivity|].
  reflexivity.
Qed.

(** *** The result, by the outcomes *)

Lemma loop_verdict rq remaining : forall attempt lastError n,
  let x := Api.apiRequestFrom config srv rq remaining attempt lastError n in
  (resultOf x, callsOf x)
  = match firstDecisive srv rq n remaining with
    | Some k =>
        (match srv rq (n + k)%nat with
         | Resolve data => Returned data
         | Reject e => Threw (TError e)
         end, S (n + k))
    | None =>
        (Threw (match remaining with
                | O => lastError
                | S b => thrownBy (srv rq (n + b)%nat)
                end), (n + remaining)%nat)
    end.
Proof.
  induction remaining as [|remaining IH]; intros attempt lastError n; cbv zeta.
  - cbn. now rewrite Nat.add_0_r.
  - rewrite attempt_step. cbn [firstDecisive].
    destruct (srv rq n) as [data|e] eqn:Hsrv.
    + cbn [retryable]. rewrite Nat.add_0_r, Hsrv. reflexivity.
    + rewrite retryable_cases.
      destruct (Api.statusIs (TError e) 401); cbn [negb andb].
      { rewrite Nat.add_0_r, Hsrv. reflexivity. }
      specialize (IH (attempt + 1) (TError e) (S n)). cbv zeta in IH.
      assert (Hshift : forall k, (S n + k = n + S k)%nat) by (intros; lia).
      destruct (Api.statusIs (TError e) 429); cbn [orb].
      * rewrite after_result, after_calls, IH.
        destruct (firstDecisive srv rq (S n) remaining) as [k|].
        -- now rewrite Hshift.
        -- destruct remaining as [|b]; cbn [thrownBy].
           ++ rewrite !Nat.add_0_r, Hsrv. cbn. f_equal. lia.
           ++ now rewrite !Hshift.
      * destruct (Api.statusAtLeast (TError e) 500).
        -- rewrite after_result, after_calls, IH.
           destruct (firstDecisive srv rq (S n) remaining) as [k|].
           ++ now rewrite Hshift.
           ++ destruct remaining as [|b]; cbn [thrownBy].
              ** rewrite !Nat.add_0_r, Hsrv. cbn. f_equal. lia.
              ** now rewrite !Hshift.
        -- rewrite Nat.add_0_r, Hsrv. reflexivity.
Qed.

Lemma firstDecisive_bound rq budget : forall n k,
  firstDecisive srv rq n budget = Some k -> (k < budget)%nat.
Proof.
  induction budget as [|budget IH]; intros n k H; simpl in H; [discriminate|].
  destruct (retryable (srv rq n)); [|inversion H; lia].
  destruct (firstDecisive srv rq (S n) budget) as [k'|] eqn:E; [|discriminate].
  inversion H; subst. apply IH in E. lia.
Qed.

Lemma loop_calls rq remaining attempt lastError n :
  let x := Api.apiRequestFrom config srv rq remaining attempt lastError n in
  (n <= callsOf x <= n + remaining)%nat /\ (remaining <> O -> n < callsOf x)%nat.
Proof.
  cbv zeta.
  pose proof (loop_verdict rq remaining attempt lastError n) as H. cbv zeta in H.
  destruct (firstDecisive srv rq n remaining) as [k|] eqn:E.
  - apply firstDecisive_bound in E. inversion H. lia.
  - inversion H. lia.
Qed.

(** *** The sleeps and the requests of a run *)


Lemma cooldownWaits_app evs1 evs2 :
  cooldownWaits (evs1 ++ evs2) = cooldownWaits evs1 ++ cooldownWaits evs2.
Proof.
  induction evs1 as [|[rq|[] ms|l] evs1 IH]; simpl; auto. now rewrite IH.
Qed.

Lemma courtesyWaits_app evs1 evs2 :
  courtesyWaits (evs1 ++ evs2) = courtesyWaits evs1 ++ courtesyWaits evs2.
Proof.
  induction evs1 as [|[rq|[] ms|l] evs1 IH]; simpl; auto. now rewrite IH.
Qed.

Lemma requestsIn_app evs1 evs2 :
  requestsIn (evs1 ++ evs2) = requestsIn evs1 ++ requestsIn evs2.
Proof.
  induction evs1 as [|[rq|site ms|l] evs1 IH]; simpl; auto. now rewrite IH.
Qed.

Lemma prelude_other attempt :
  cooldownWaits (prelude config attempt) = [] /\
  courtesyWaits (prelude config attempt) = [] /\
  requestsIn (prelude config attempt) = [].
Proof. unfold prelude. destruct (1 <? attempt); repeat split. Qed.


Lemma rateLimited_statusIs e :
  rateLimited (Reject e) = Api.statusIs (TError e) 429.
Proof. reflexivity. Qed.

Lemma statusIs_exclusive e :
  Api.statusIs (TError e) 401 = true -> Api.statusIs (TError e) 429 = false.
Proof.
  simpl. destruct (errStatus e) as [s|]; [|discriminate].
  intros H. apply Z.eqb_eq in H. subst. reflexivity.
Qed.

Lemma loop_other_events rq remaining : forall attempt lastError n,
  let x := Api.apiRequestFrom config srv rq remaining attempt lastError n in
  cooldownWaits (eventsOf x)
  = repeat 5000 (limitedIn srv rq n (callsOf x - n)) /\
  courtesyWaits (eventsOf x)
  = match resultOf x with
    | Returned _ => [Config.requestDelay config]
    | Threw _ => []
    end /\
  requestsIn (eventsOf x) = repeat rq (callsOf x - n).
Proof.
  induction remaining as [|remaining IH]; intros attempt lastError n; cbv zeta.
  - cbn. rewrite Nat.sub_diag. repeat split.
  - destruct (prelude_other attempt) as (Pc & Pq & Pr).
    rewrite attempt_step.
    destruct (srv rq n) as [data|e] eqn:Hsrv.
    + cbn [eventsOf resultOf callsOf fst snd].
      rewrite cooldownWaits_app, courtesyWaits_app, requestsIn_app, Pc, Pq, Pr.
      replace (S n - n)%nat with 1%nat by lia. cbn. rewrite Hsrv. repeat split.
    + destruct (Api.statusIs (TError e) 401) eqn:H401.
      { cbn [eventsOf resultOf callsOf fst snd].
        rewrite cooldownWaits_app, courtesyWaits_app, requestsIn_app, Pc, Pq, Pr.
        replace (S n - n)%nat with 1%nat by lia. cbn [limitedIn].
        rewrite Hsrv, rateLimited_statusIs, (statusIs_exclusive e H401).
        repeat split. }
      destruct (IH (attempt + 1) (TError e) (S n)) as (Ic & Iq & Ir).
      destruct (loop_calls rq remaining (attempt + 1) (TError e) (S n)) as [Hb _].
      set (x := Api.apiRequestFrom config srv rq remaining (attempt + 1)
                                   (TError e) (S n)) in *.
      assert (Hsub : (callsOf x - n = S (callsOf x - S n))%nat) by lia.
      destruct (Api.statusIs (TError e) 429) eqn:H429.
      * rewrite after_result, after_calls, after_events.
        rewrite !cooldownWaits_app, !courtesyWaits_app, !requestsIn_app,
          Pc, Pq, Pr, Ic, Iq, Ir, Hsub.
        cbn [limitedIn]. rewrite Hsrv, rateLimited_statusIs, H429.
        repeat split.
      * destruct (Api.statusAtLeast (TError e) 500).
        -- rewrite after_result, after_calls, after_events.
           rewrite !cooldownWaits_app, !courtesyWaits_app, !requestsIn_app,
             Pc, Pq, Pr, Ic, Iq, Ir, Hsub.
           cbn [limitedIn]. rewrite Hsrv, rateLimited_statusIs, H429.
           repeat split.
        -- cbn [eventsOf resultOf callsOf fst snd].
           rewrite cooldownWaits_app, courtesyWaits_app, requestsIn_app, Pc, Pq, Pr.
           replace (S n - n)%nat with 1%nat by lia. cbn [limitedIn].
           rewrite Hsrv, rateLimited_statusIs, H429. repeat split.
Qed.


End Client.

Section Statements.
Variable config : Config.t.
Variable srv : server.

Local Open Scope Z_scope.

(** X11.  [getRaw(url)] does exactly what
    [apiRequest('GET', url, { responseType: 'text' })] does: the same
    result, the same requests and the same sleeps and log lines. *)
Theorem getRaw_is_apiRequest_for_text u n :
  Api.getRaw config srv u n
  = Api.apiRequest config srv "GET" u [("responseType", SStr "text")] n.
Proof.
  unfold Api.getRaw, Api.apiRequest.
  apply (getRawFrom_apiRequestFrom config srv u).
Qed.

(** X12.  Whatever the service does, the result of [apiRequest] and of
    [getRaw] is decided by the first outcome, within the [maxRetries]
    attempts, that is not a 429 or a status of 500 or more: its payload is
    returned or its error is thrown as it is, and no request follows it.
    When there is no such outcome the last error is thrown after
    [maxRetries] requests, and [undefined] without any request when
    [maxRetries] is not positive. *)
Theorem first_decisive_outcome_decides method u options n :
  (let x := Api.apiRequest config srv method u options n in
   (resultOf x, callsOf x)
   = verdict srv (mkRequest method u options) n
             (Z.to_nat (Config.maxRetries config))) /\
  (let x := Api.getRaw config srv u n in
   (resultOf x, callsOf x)
   = verdict srv (rawRequest u) n (Z.to_nat (Config.maxRetries config))).
Proof.
  split; cbv zeta; [|rewrite getRaw_apiRequest];
    unfold Api.apiRequest, verdict;
    rewrite (loop_verdict config srv _ (Z.to_nat (Config.maxRetries config))
                          1 TUndefined n);
    reflexivity.
Qed.

(** X13.  Whatever the service does, [apiRequest] issues at most
    [maxRetries] requests, all of them the same request, and none at all
    when [maxRetries] is not positive. *)
Theorem request_budget_is_respected method u options n :
  let x := Api.apiRequest config srv method u options n in
  (n <= callsOf x <= n + Z.to_nat (Config.maxRetries config))%nat /\
  requestsIn (eventsOf x) = repeat (mkRequest method u options) (callsOf x - n) /\
  (Config.maxRetries config <= 0 -> eventsOf x = [] /\ callsOf x = n).
Proof.
  cbv zeta. unfold Api.apiRequest. split; [|split].
  - apply loop_calls.
  - apply (loop_other_events config srv).
  - intros Hm. replace (Z.to_nat (Config.maxRetries config)) with 0%nat by lia.
    split; reflexivity.
Qed.


(** X15.  A run of [apiRequest] sleeps 5000 ms once for every 429 that it
    meets, the last one included, and sleeps [requestDelay] once exactly
    when it returns a payload. *)
Theorem cooldown_per_429_and_pause_on_success method u options n :
  let rq := mkRequest method u options in
  let x := Api.apiRequest config srv method u options n in
  cooldownWaits (eventsOf x) = repeat 5000 (limitedIn srv rq n (callsOf x - n)) /\
  courtesyWaits (eventsOf x)
  = match resultOf x with
    | Returned _ => [Config.requestDelay config]
    | Threw _ => []
    end.
Proof.
  cbv zeta. unfold Api.apiRequest.
  destruct (loop_other_events config srv (mkRequest method u options)
              (Z.to_nat (Config.maxRetries config)) 1 TUndefined n)
    as (Hc & Hq & _).
  split; assumption.
Qed.

End Statements.

(** Against a service that answers 429 on each of the three attempts, the
    client sleeps 5000, 2000, 5000, 4000 and 5000 ms and throws the last
    error. *)
Example always_rate_limited :
  let srv := scripted [] (Reject (MkError "AxiosError" (Some 429%Z) None)) in
  let x := Api.apiRequest Config.config srv "GET" (Path "/user") [] 0 in
  resultOf x = Threw (TError (MkError "AxiosError" (Some 429%Z) None)) /\
  callsOf x = 3%nat /\
  waits (eventsOf x)
  = [(Cooldown, 5000); (Backoff, 2000); (Cooldown, 5000);
     (Backoff, 4000); (Cooldown, 5000)]%Z.
Proof. cbv zeta. repeat split. Qed.

(** A 404 on the second attempt is thrown at once. *)
Example not_found_is_fatal :
  let x := Api.getRaw Config.config thenNotFound (ExportCsv (SNum 7)) 0 in
  resultOf x = Threw (TError error404) /\
  callsOf x = 2%nat /\
  waits (eventsOf x) = [(Backoff, 2000)]%Z.
Proof. cbv zeta. repeat split. Qed.

End ScheduleFacts.

(* ================================================================== *)
(** ** More on the aggregation                                         *)
(* ================================================================== *)

Module MergeFacts.

Import Collections Raindrops Traffic Harvest Merge JsFacts ClientFacts HarvestFacts.

Local Open Scope list_scope.

(** *** Records *)

(** X16.  [tagRow] sets the five metadata fields, whatever the row held
    under those names, leaves every other field of the row as it is, and
    does not change the identifier under which the record is filed. *)
Theorem tagging_overrides_only_the_metadata id t fp rt g row :
  let tagged := tagRow id t fp rt g row in
  JsObject.get "collection_id" tagged = id /\
  JsObject.get "collection_title" tagged = SStr t /\
  JsObject.get "full_path" tagged = fp /\
  JsObject.get "root_collection" tagged = rt /\
  JsObject.get "group" tagged = SStr g /\
  (forall k, ~ In k customColumns -> JsObject.get k tagged = JsObject.get k row) /\
  raindropId tagged = raindropId row.
Proof.
  cbv zeta. unfold tagRow. rewrite !object_get_set. cbn.
  repeat split.
  - intros k Hk. rewrite !object_get_set.
    repeat match goal with
           | |- context [String.eqb k ?c] =>
               destruct (String.eqb_spec k c) as [->|_];
               [exfalso; apply Hk; unfold customColumns; simpl; tauto|]
           end.
    reflexivity.
  - apply raindropId_tagRow.
Qed.

(** *** The fold, once more *)

Lemma identifiers_app l1 l2 : identifiers (l1 ++ l2) = identifiers l1 ++ identifiers l2.
Proof. unfold identifiers. now rewrite map_app, filter_app. Qed.

Lemma identifiers_one r :
  identifiers [r] = if truthy_s (raindropId r) then [raindropId r] else [].
Proof. reflexivity. Qed.

Lemma set_has_in x s : JsSet.has x s = true <-> In x s.
Proof.
  unfold JsSet.has. rewrite existsb_exists. split.
  - intros (y & Hy & E). apply scalar_eqb_eq in E. now subst.
  - intros H. exists x. split; [assumption | apply scalar_eqb_refl].
Qed.

Lemma addRaindrop_tidy st r : Tidy st -> Tidy (addRaindrop st r).
Proof.
  intros (Hnd & Hseen & Htot). unfold addRaindrop. fold (raindropId r).
  destruct (truthy_s (raindropId r)) eqn:Ht; cbn [andb].
  - destruct (JsSet.has (raindropId r) (seenIds st)) eqn:Hhas.
    + repeat split; auto; apply Hseen.
    + unfold Tidy. cbn [allRaindrops seenIds totalRaindrops].
      rewrite identifiers_app, identifiers_one, Ht. repeat split.
      * apply NoDup_app; [assumption | repeat constructor; intros [] |].
        intros x Hx [<-|[]]. apply Hseen in Hx. congruence.
      * rewrite set_has_add. intros H. apply in_or_app.
        apply orb_true_iff in H as [H|H].
        -- apply scalar_eqb_eq in H. subst. right. now left.
        -- left. now apply Hseen.
      * rewrite set_has_add. intros H. apply in_app_or in H as [H|[<-|[]]].
        -- apply Hseen in H. rewrite H. apply orb_true_r.
        -- now rewrite scalar_eqb_refl.
      * rewrite length_app. cbn. lia.
  - unfold Tidy. cbn [allRaindrops seenIds totalRaindrops].
    rewrite identifiers_app, identifiers_one, Ht, app_nil_r.
    repeat split; auto; try apply Hseen.
    rewrite length_app. cbn. lia.
Qed.

Lemma addRaindrops_tidy rs : forall st, Tidy st -> Tidy (addRaindrops st rs).
Proof.
  induction rs as [|r rs IH]; intros st Hst; [assumption|].
  unfold addRaindrops in *. simpl. apply IH. now apply addRaindrop_tidy.
Qed.

Lemma start_tidy : Tidy start.
Proof.
  repeat split; cbn; try constructor; try tauto; try discriminate.
Qed.

Lemma subseq_app {A} (a1 a2 b1 b2 : list A) :
  Subseq a1 a2 -> Subseq b1 b2 -> Subseq (a1 ++ b1) (a2 ++ b2).
Proof.
  intros Ha Hb. induction Ha; simpl;
    [assumption | now apply SubseqSkip | now apply SubseqKeep].
Qed.

Lemma subseq_refl {A} (l : list A) : Subseq l l.
Proof. induction l; [apply SubseqNil | now apply SubseqKeep]. Qed.

Lemma addRaindrop_subseq st r :
  exists kept, allRaindrops (addRaindrop st r) = allRaindrops st ++ kept
               /\ Subseq kept [r].
Proof.
  unfold addRaindrop.
  destruct (truthy_s _ && JsSet.has _ (seenIds st)).
  - exists []. rewrite app_nil_r. split; [reflexivity | apply SubseqSkip, SubseqNil].
  - exists [r]. split; [reflexivity | apply subseq_refl].
Qed.

Lemma addRaindrops_subseq rs : forall st,
  exists kept, allRaindrops (addRaindrops st rs) = allRaindrops st ++ kept
               /\ Subseq kept rs.
Proof.
  induction rs as [|r rs IH]; intros st.
  - exists []. rewrite app_nil_r. split; [reflexivity | apply SubseqNil].
  - unfold addRaindrops in *. cbn [fold_left].
    destruct (IH (addRaindrop st r)) as (kept2 & E2 & S2).
    destruct (addRaindrop_subseq st r) as (kept1 & E1 & S1).
    exists (kept1 ++ kept2). rewrite E2, E1, app_assoc. split; [reflexivity|].
    change (r :: rs) with ([r] ++ rs). now apply subseq_app.
Qed.

Lemma in_identifiers x rs :
  In x (identifiers rs) <-> truthy_s x = true /\ existsb (hasId x) rs = true.
Proof.
  unfold identifiers. rewrite filter_In, in_map_iff, existsb_exists. split.
  - intros [(r & <- & Hr) Ht]. split; [assumption|].
    exists r. split; [assumption | apply scalar_eqb_refl].
  - intros [Ht (r & Hr & E)]. apply scalar_eqb_eq in E. split; [|assumption].
    exists r. auto.
Qed.

Lemma bumps_tidy k st : Tidy st -> Tidy (bumps k st).
Proof.
  intros H. destruct (iter_bump_data k st) as (Ha & Hs & _).
  unfold Tidy. rewrite Ha, Hs.
  destruct H as (H1 & H2 & H3). repeat split; auto; try apply H2.
  rewrite <- H3. clear. induction k as [|k IH]; [reflexivity | exact IH].
Qed.

(** *** The whole run *)

Section Run.
Variable config : Config.t.
Variable srv : server.
Variable parseCsv : string -> result (list JsObject.t).
Variable blank : string -> bool.
Variable cm : collectionMap.
Variables fullPaths roots groups : JsMap.t string.

Abbreviation run := (fetchAllRaindrops config srv parseCsv blank cm fullPaths roots groups).
Abbreviation allFetched n :=
  (List.concat (map snd (fetched config srv parseCsv blank cm fullPaths roots groups
                                 (JsMap.keys cm) n))).

Lemma run_output n :
  resultOf (run n) = Returned (allRaindrops (addRaindrops start (allFetched n))).
Proof. apply harvest_output. Qed.

Lemma run_identifiers n x :
  In x (identifiers (allRaindrops (addRaindrops start (allFetched n))))
  <-> In x (identifiers (allFetched n)).
Proof.
  destruct (addRaindrops_tidy (allFetched n) start start_tidy) as (_ & Hseen & _).
  rewrite <- Hseen, in_identifiers. split.
  - intros H.
    assert (Ht : truthy_s x = true).
    { apply Hseen, in_identifiers in H. tauto. }
    destruct (addRaindrops_by_id x (allFetched n) Ht start) as [_ Hs].
    rewrite Hs in H. cbn in H. auto.
  - intros [Ht He].
    destruct (addRaindrops_by_id x (allFetched n) Ht start) as [_ Hs].
    rewrite Hs, He. apply orb_true_r.
Qed.

Ltac run_fetch :=
  unfold fetchCollectionRaindrops, fetchCollectionCsv, try_catch, bind,
    liftResult, ret, throw, log, emit, resultOf, callsOf, eventsOf;
  cbn [fst snd].

Lemma fetch_calls id t fp rt g n :
  callsOf (fetchCollectionRaindrops config srv parseCsv blank id t fp rt g n)
  = callsOf (Api.getRaw config srv (ExportCsv id) n).
Proof.
  run_fetch.
  destruct (Api.getRaw config srv (ExportCsv id) n) as [[[data|t0] n1] ev1];
    cbn [fst snd].
  - destruct data as [[| |b|z|s]|fs]; cbn [truthy_s];
      [ | | destruct b | destruct (negb (z =? 0)%Z)
        | destruct (String.eqb s "" || blank s);
          [|destruct (parseCsv s) as [rows0|[|e]]] | ];
      cbn; rewrite ?match_404;
      try (destruct (match errStatus e with Some s0 => _ | None => false end); cbn);
      reflexivity.
  - destruct t0 as [|e]; cbn; rewrite ?match_404;
      try (destruct (match errStatus e with Some s0 => _ | None => false end); cbn);
      reflexivity.
Qed.

Lemma exportOf_calls id n :
  let x := exportOf config srv parseCsv blank cm fullPaths roots groups id n in
  (n <= callsOf x <= n + Z.to_nat (Config.maxRetries config))%nat.
Proof.
  cbv zeta. unfold exportOf. destruct (JsMap.get id cm) as [nd|].
  - rewrite fetch_calls, getRaw_apiRequest. unfold Api.apiRequest.
    apply ScheduleFacts.loop_calls.
  - cbn. lia.
Qed.

Lemma forCollections_calls count : forall ids st n,
  let x := forCollections config srv parseCsv blank cm fullPaths roots groups
                          count ids st n in
  (n <= callsOf x
   <= n + List.length ids * Z.to_nat (Config.maxRetries config))%nat.
Proof.
  induction ids as [|id ids IH]; intros st n; cbv zeta; [cbn; lia|].
  cbn [forCollections List.length]. unfold bind.
  rewrite processCollection_step. cbv zeta.
  pose proof (exportOf_result config srv parseCsv blank cm fullPaths roots groups
                id n) as Hx.
  pose proof (exportOf_calls id n) as Hc. cbv zeta in Hc.
  destruct (exportOf config srv parseCsv blank cm fullPaths roots groups id n)
    as [[[rows|[|e]] n1] ev1];
    cbn [resultOf callsOf eventsOf fst snd] in *; [| congruence |].
  - specialize (IH (addRaindrops (bump st) rows) n1). cbv zeta in IH.
    destruct (forCollections _ _ _ _ _ _ _ _ count ids
                             (addRaindrops (bump st) rows) n1)
      as [[r2 n2] ev2]; cbn [callsOf fst snd] in *. nia.
  - specialize (IH (bump st) n1). cbv zeta in IH.
    destruct (forCollections _ _ _ _ _ _ _ _ count ids (bump st) n1)
      as [[r2 n2] ev2]; cbn [callsOf fst snd] in *. nia.
Qed.

Lemma run_events n :
  exists evs,
    eventsOf (run n)
    = EvLog (LogFetching (List.length (JsMap.keys cm)))
        :: evs
        ++ [EvLog (LogTotal
                     (List.length
                        (allRaindrops (addRaindrops start (allFetched n)))))].
Proof.
  unfold fetchAllRaindrops, bind, log, emit, ret. cbn [fst snd].
  pose proof (forCollections_run config srv parseCsv blank cm fullPaths roots groups
                (List.length (JsMap.keys cm)) (JsMap.keys cm) start n) as Hr.
  fold start.
  destruct (forCollections _ _ _ _ _ _ _ _ _ (JsMap.keys cm) start n)
    as [[[st|t] n1] ev1]; cbn [resultOf eventsOf fst snd] in *; [|discriminate].
  injection Hr as Hst.
  assert (Hall : allRaindrops st
                 = allRaindrops (addRaindrops start (allFetched n))).
  { rewrite Hst, <- iter_bump_add. apply iter_bump_data. }
  assert (Htot : totalRaindrops st = List.length (allRaindrops st)).
  { rewrite Hst. apply addRaindrops_tidy, bumps_tidy, start_tidy. }
  exists ev1. cbn [app]. rewrite Htot, Hall. reflexivity.
Qed.

End Run.

(** X17.  In the output of [fetchAllRaindrops] no two records have the
    same truthy identifier, and the identifiers of the output are exactly
    the identifiers met in the fetched exports: none is lost and none is
    added. *)
Theorem output_identifiers_are_unique_and_complete
        config srv parseCsv blank cm fullPaths roots groups n :
  exists out,
    resultOf (fetchAllRaindrops config srv parseCsv blank cm fullPaths roots groups n)
    = Returned out /\
    NoDup (identifiers out) /\
    forall x,
      In x (identifiers out)
      <-> In x (identifiers
                  (List.concat
                     (map snd (fetched config srv parseCsv blank cm fullPaths
                                       roots groups (JsMap.keys cm) n)))).
Proof.
  eexists. split; [apply run_output|]. split.
  - apply (addRaindrops_tidy _ start start_tidy).
  - intros x. apply run_identifiers.
Qed.

(** X18.  The output of [fetchAllRaindrops] is the sequence of the fetched
    records, in the order of the collections and of their exports, with
    some of them left out: no record is altered, moved or made up. *)
Theorem output_is_a_subsequence_of_the_exports
        config srv parseCsv blank cm fullPaths roots groups n :
  exists out,
    resultOf (fetchAllRaindrops config srv parseCsv blank cm fullPaths roots groups n)
    = Returned out /\
    Subseq out
           (List.concat
              (map snd (fetched config srv parseCsv blank cm fullPaths
                                roots groups (JsMap.keys cm) n))).
Proof.
  eexists. split; [apply run_output|].
  destruct (addRaindrops_subseq
              (List.concat
                 (map snd (fetched config srv parseCsv blank cm fullPaths
                                   roots groups (JsMap.keys cm) n))) start)
    as (kept & E & S).
  rewrite E. exact S.
Qed.

(** X19.  The first line that [fetchAllRaindrops] logs gives the number of
    collections of the map, and the last one, the total, gives the number
    of records that it returns. *)
Theorem logged_total_is_the_size_of_the_output
        config srv parseCsv blank cm fullPaths roots groups n :
  exists out evs,
    resultOf (fetchAllRaindrops config srv parseCsv blank cm fullPaths roots groups n)
    = Returned out /\
    eventsOf (fetchAllRaindrops config srv parseCsv blank cm fullPaths roots groups n)
    = EvLog (LogFetching (List.length (JsMap.keys cm)))
        :: evs ++ [EvLog (LogTotal (List.length out))].
Proof.
  destruct (run_events config srv parseCsv blank cm fullPaths roots groups n)
    as [evs Hev].
  eexists. exists evs. split; [apply run_output | exact Hev].
Qed.

(** X20.  Whatever the service does, a run of [fetchAllRaindrops] issues at
    most [maxRetries] requests for each collection of the map. *)
Theorem run_request_budget config srv parseCsv blank cm fullPaths roots groups n :
  let x := fetchAllRaindrops config srv parseCsv blank cm fullPaths roots groups n in
  (n <= callsOf x
   <= n + List.length (JsMap.keys cm) * Z.to_nat (Config.maxRetries config))%nat.
Proof.
  cbv zeta. unfold fetchAllRaindrops, bind, log, emit, ret. cbn [fst snd].
  pose proof (forCollections_calls config srv parseCsv blank cm fullPaths roots groups
                (List.length (JsMap.keys cm)) (JsMap.keys cm) start n) as Hc.
  pose proof (forCollections_run config srv parseCsv blank cm fullPaths roots groups
                (List.length (JsMap.keys cm)) (JsMap.keys cm) start n) as Hr.
  cbv zeta in Hc. fold start.
  destruct (forCollections _ _ _ _ _ _ _ _ _ (JsMap.keys cm) start n)
    as [[[st|t] n1] ev1]; cbn [resultOf callsOf fst snd] in *; [|discriminate].
  exact Hc.
Qed.

(** X21.  When [getRaw] delivers a text for a collection,
    [fetchCollectionRaindrops] adds no request, sleep or log line of its
    own: an empty or blank text gives no record, whatever the parser would
    make of it, and any other text gives the parsed rows, each with the
    metadata of the collection. *)
Theorem export_text_becomes_tagged_rows
        config srv parseCsv blank id t fp rt g n s :
  resultOf (Api.getRaw config srv (ExportCsv id) n) = Returned (JScalar (SStr s)) ->
  let x := Api.getRaw config srv (ExportCsv id) n in
  (String.eqb s "" || blank s = true ->
   fetchCollectionRaindrops config srv parseCsv blank id t fp rt g n
   = (Returned [], callsOf x, eventsOf x)) /\
  (forall rows,
      String.eqb s "" || blank s = false ->
      parseCsv s = Returned rows ->
      fetchCollectionRaindrops config srv parseCsv blank id t fp rt g n
      = (Returned (map (tagRow id t fp rt g) rows), callsOf x, eventsOf x)).
Proof.
  unfold fetchCollectionRaindrops, fetchCollectionCsv, try_catch, bind,
    liftResult, ret, throw, log, emit, resultOf, callsOf, eventsOf;
  cbn [fst snd].
  destruct (Api.getRaw config srv (ExportCsv id) n) as [[[data|t0] n1] ev1];
    cbn [fst snd]; intros H; [|discriminate].
  injection H as ->. split.
  - intros ->. cbn. now rewrite app_nil_r.
  - intros rows -> ->. cbn. now rewrite !app_nil_r.
Qed.

Lemma export_text_becomes_tagged_rows_witness :
  resultOf (Api.getRaw Config.config toyServer (ExportCsv (SNum 1)) 0)
  = Returned (JScalar (SStr "ab-")) /\
  fetchCollectionRaindrops Config.config toyServer toyParse toyBlank
                           (SNum 1) "One" (SStr "G / One") (SStr "One") "G" 0
  = (Returned toyBatch1,
     callsOf (Api.getRaw Config.config toyServer (ExportCsv (SNum 1)) 0),
     eventsOf (Api.getRaw Config.config toyServer (ExportCsv (SNum 1)) 0)).
Proof.
  split; [reflexivity|].
  destruct (export_text_becomes_tagged_rows
              Config.config toyServer toyParse toyBlank
              (SNum 1) "One" (SStr "G / One") (SStr "One") "G" 0 "ab-" eq_refl)
    as [_ H].
  apply (H (toyRows "ab-")); reflexivity.
Defined.

End MergeFacts.

(* ================================================================== *)
(** ** The sanitising of the parsed values                             *)
(* ================================================================== *)

Module SanitizeFacts.

Import Sanitize.

Local Open Scope list_scope.
Local Open Scope N_scope.

Lemma breakOrTab_is_space c : isBreakOrTab c = true -> isSpace c = true.
Proof.
  unfold isBreakOrTab, isSpace. intros H.
  apply orb_true_iff in H as [H|H]; [apply orb_true_iff in H as [H|H]|];
    apply N.eqb_eq in H; subst; reflexivity.
Qed.

Lemma space_not_breakOrTab : isBreakOrTab 32 = false.
Proof. reflexivity. Qed.

Lemma space_is_space : isSpace 32 = true.
Proof. reflexivity. Qed.

(** *** The two replacements *)

Lemma collapse_redundant s : forall b b',
  (b' = true -> b = true) ->
  collapse isSpace b (collapse isBreakOrTab b' s) = collapse isSpace b s.
Proof.
  induction s as [|c rest IH]; intros b b' Hb; [reflexivity|].
  cbn [collapse]. destruct (isBreakOrTab c) eqn:Hlb.
  - rewrite (breakOrTab_is_space c Hlb). destruct b'.
    + rewrite (Hb eq_refl). now apply IH.
    + cbn [collapse]. rewrite space_is_space.
      destruct b; rewrite IH; auto.
  - cbn [collapse]. destruct (isSpace c).
    + destruct b; rewrite IH; auto; discriminate.
    + rewrite IH; auto.
Qed.

Lemma wellSpaced_collapse s : forall b,
  wellSpaced b (collapse isSpace b s) = true.
Proof.
  induction s as [|c rest IH]; intros b; [reflexivity|].
  cbn [collapse]. destruct (isSpace c) eqn:Hc.
  - destruct b; [apply IH|].
    cbn [wellSpaced]. rewrite space_is_space, IH. reflexivity.
  - cbn [wellSpaced]. rewrite Hc. apply IH.
Qed.

Lemma wellSpaced_weaken s : wellSpaced true s = true -> wellSpaced false s = true.
Proof.
  destruct s as [|c rest]; [reflexivity|]. cbn [wellSpaced].
  destruct (isSpace c); [|auto]. rewrite andb_false_r. discriminate.
Qed.

Lemma trimStart_wellSpaced s : wellSpaced true s = true -> trimStart s = s.
Proof.
  destruct s as [|c rest]; [reflexivity|]. cbn [wellSpaced trimStart].
  destruct (isSpace c); [|reflexivity]. rewrite andb_false_r. discriminate.
Qed.

Lemma trimStart_collapse s :
  trimStart (collapse isSpace false s) = collapse isSpace true s.
Proof.
  destruct s as [|c rest]; [reflexivity|]. cbn [collapse].
  destruct (isSpace c) eqn:Hc.
  - cbn [trimStart]. rewrite space_is_space.
    apply trimStart_wellSpaced, wellSpaced_collapse.
  - cbn [trimStart]. now rewrite Hc.
Qed.

Lemma collapse_fixed s : forall b,
  wellSpaced b s = true -> collapse isSpace b s = s.
Proof.
  induction s as [|c rest IH]; intros b H; [reflexivity|].
  cbn [wellSpaced collapse] in *. destruct (isSpace c).
  - apply andb_true_iff in H as [H Hrest]. apply andb_true_iff in H as [Hc Hb].
    apply N.eqb_eq in Hc. subst c. apply negb_true_iff in Hb. subst b.
    now rewrite IH.
  - now rewrite IH.
Qed.

Lemma collapse_breaks_fixed s : forall b b',
  wellSpaced b s = true -> collapse isBreakOrTab b' s = s.
Proof.
  induction s as [|c rest IH]; intros b b' H; [reflexivity|].
  cbn [wellSpaced collapse] in *. destruct (isSpace c) eqn:Hc.
  - apply andb_true_iff in H as [H Hrest]. apply andb_true_iff in H as [Hc32 _].
    apply N.eqb_eq in Hc32. subst c. rewrite space_not_breakOrTab.
    f_equal. eapply IH; eauto.
  - destruct (isBreakOrTab c) eqn:Hlb.
    + apply breakOrTab_is_space in Hlb. congruence.
    + f_equal. eapply IH; eauto.
Qed.

(** *** The end of the string *)

Lemma trimEnd_wellSpaced s : forall b,
  wellSpaced b s = true -> wellSpaced b (trimEnd s) = true.
Proof.
  induction s as [|c rest IH]; intros b H; [reflexivity|].
  cbn [trimEnd]. cbn [wellSpaced] in H.
  destruct (trimEnd rest) as [|k kept] eqn:Hk.
  - destruct (isSpace c) eqn:Hc; [reflexivity|].
    cbn [wellSpaced]. now rewrite Hc.
  - cbn [wellSpaced]. destruct (isSpace c).
    + apply andb_true_iff in H as [H Hrest]. rewrite H.
      change (wellSpaced true (k :: kept) = true). now apply IH.
    + change (wellSpaced false (k :: kept) = true). now apply IH.
Qed.

Lemma trimEnd_cons c rest :
  trimEnd (c :: rest)
  = match trimEnd rest with
    | [] => if isSpace c then [] else [c]
    | kept => c :: kept
    end.
Proof. reflexivity. Qed.

Lemma trimEnd_idempotent s : trimEnd (trimEnd s) = trimEnd s.
Proof.
  induction s as [|c rest IH]; [reflexivity|].
  rewrite trimEnd_cons. destruct (trimEnd rest) as [|k kept] eqn:Hk.
  - destruct (isSpace c) eqn:Hc; [reflexivity|]. cbn [trimEnd]. now rewrite Hc.
  - rewrite trimEnd_cons, IH. reflexivity.
Qed.

Lemma trimEnd_last s pre c : trimEnd s = pre ++ [c] -> isSpace c = false.
Proof.
  revert pre. induction s as [|a rest IH]; intros pre H.
  - destruct pre; discriminate.
  - cbn [trimEnd] in H. destruct (trimEnd rest) as [|k kept] eqn:Hk.
    + destruct (isSpace a) eqn:Ha; [destruct pre; discriminate|].
      destruct pre as [|p pre]; [now inversion H; subst|].
      destruct pre; discriminate.
    + destruct pre as [|p pre]; [discriminate|].
      inversion H; subst. eapply IH; eauto.
Qed.

Lemma trimStart_app s1 s2 :
  trimStart (s1 ++ s2)
  = match trimStart s1 with
    | [] => trimStart s2
    | kept => kept ++ s2
    end.
Proof.
  induction s1 as [|a s1 IH]; cbn [app trimStart].
  - now destruct (trimStart s2).
  - destruct (isSpace a); [exact IH | reflexivity].
Qed.

(** Stripping the end is stripping the start of the reversed string. *)
Lemma trimEnd_by_reversal s : trimEnd s = rev (trimStart (rev s)).
Proof.
  induction s as [|c rest IH]; [reflexivity|].
  rewrite trimEnd_cons, IH. cbn [rev]. rewrite trimStart_app.
  destruct (trimStart (rev rest)) as [|k kept].
  - cbn [rev trimStart]. destruct (isSpace c); reflexivity.
  - rewrite rev_app_distr. cbn [rev app].
    destruct (rev kept ++ [k]) eqn:E; [|reflexivity].
    destruct (rev kept); discriminate.
Qed.

Lemma sanitizeText_short s :
  sanitizeText s = trimEnd (collapse isSpace true s).
Proof.
  unfold sanitizeText, trim, replaceRuns.
  rewrite collapse_redundant by auto. now rewrite trimStart_collapse.
Qed.

Lemma sanitizeText_wellSpaced s : wellSpaced true (sanitizeText s) = true.
Proof.
  rewrite sanitizeText_short. apply trimEnd_wellSpaced, wellSpaced_collapse.
Qed.

(** *** Words *)

Lemma trimEnd_app s1 s2 :
  trimEnd (s1 ++ s2)
  = match trimEnd s2 with
    | [] => trimEnd s1
    | kept => s1 ++ kept
    end.
Proof.
  induction s1 as [|a s1 IH].
  - cbn [app trimEnd]. now destruct (trimEnd s2).
  - cbn [app]. rewrite !trimEnd_cons, IH.
    destruct (trimEnd s2) as [|k kept]; [reflexivity|].
    destruct s1; reflexivity.
Qed.

Lemma trimEnd_word w c :
  isSpace c = false -> trimEnd (rev (c :: w)) = rev (c :: w).
Proof.
  intros Hc. cbn [rev]. rewrite trimEnd_app. cbn [trimEnd]. now rewrite Hc.
Qed.

Lemma wordsFrom_nonempty s : forall w x, In x (wordsFrom w s) -> x <> [].
Proof.
  assert (Hrev : forall (c : N) w, rev (c :: w) <> []).
  { intros c w H. apply (f_equal (@List.length N)) in H.
    rewrite length_rev in H. discriminate. }
  induction s as [|c rest IH]; intros w x Hx; cbn [wordsFrom] in Hx.
  - destruct w; [destruct Hx|]. destruct Hx as [<-|[]]. apply Hrev.
  - destruct (isSpace c); [|eauto].
    destruct w; [eauto|]. destruct Hx as [<-|Hx]; [apply Hrev | eauto].
Qed.

Lemma unwords_nil ws : (forall x, In x ws -> x <> []) -> unwords ws = [] -> ws = [].
Proof.
  destruct ws as [|w1 rest]; [reflexivity|]. intros Hne H. exfalso.
  apply (Hne w1); [now left|].
  cbn [unwords] in H. destruct rest; [assumption|].
  destruct w1; [reflexivity | discriminate].
Qed.

Lemma sanitize_wordsFrom s : forall w,
  (forall c, In c w -> isSpace c = false) ->
  trimEnd (rev w ++ collapse isSpace (match w with [] => true | _ => false end) s)
  = unwords (wordsFrom w s).
Proof.
  induction s as [|c rest IH]; intros w Hw.
  - cbn [collapse wordsFrom]. rewrite app_nil_r.
    destruct w as [|a w]; [reflexivity|].
    cbn [unwords]. apply trimEnd_word, Hw. now left.
  - cbn [wordsFrom]. destruct (isSpace c) eqn:Hc.
    + destruct w as [|a w].
      * cbn [collapse rev app]. rewrite Hc. apply (IH []). intros ? [].
      * cbn [collapse]. rewrite Hc.
        pose proof (IH [] ltac:(intros ? [])) as IH0. cbn [rev app] in IH0.
        rewrite trimEnd_app, trimEnd_cons, IH0, space_is_space.
        destruct (wordsFrom [] rest) as [|w1 ws] eqn:Hws.
        -- cbn [unwords]. apply trimEnd_word, Hw. now left.
        -- destruct (unwords (w1 :: ws)) as [|u us] eqn:Hu.
           ++ apply unwords_nil in Hu; [discriminate|].
              intros x Hx. apply (wordsFrom_nonempty rest []). now rewrite Hws.
           ++ change (unwords (rev (a :: w) :: w1 :: ws))
                with (rev (a :: w) ++ 32 :: unwords (w1 :: ws)).
              now rewrite Hu.
    + assert (Hcw : forall x, In x (c :: w) -> isSpace x = false).
      { intros x [<-|Hx]; auto. }
      specialize (IH (c :: w) Hcw). cbn [rev] in IH. rewrite <- app_assoc in IH.
      cbn [app] in IH. rewrite <- IH.
      destruct w; cbn [collapse]; rewrite Hc; reflexivity.
Qed.

Lemma wordsFrom_chars s : forall w,
  (forall c, In c w -> isSpace c = false) ->
  List.concat (wordsFrom w s) = rev w ++ filter (fun c => negb (isSpace c)) s /\
  forall x, In x (wordsFrom w s) -> Forall (fun c => isSpace c = false) x.
Proof.
  assert (Hrevw : forall w, (forall c, In c w -> isSpace c = false) ->
                            Forall (fun c => isSpace c = false) (rev w)).
  { intros w Hw. apply Forall_forall. intros c Hc. apply Hw. now apply in_rev. }
  induction s as [|c rest IH]; intros w Hw; cbn [wordsFrom filter].
  - destruct w as [|a w].
    + split; [reflexivity | intros x []].
    + split; [cbn [List.concat]; now rewrite !app_nil_r|].
      intros x [<-|[]]. now apply Hrevw.
  - destruct (isSpace c) eqn:Hc; cbn [negb].
    + destruct (IH [] ltac:(intros ? [])) as [IHc IHf]. cbn [rev app] in IHc.
      destruct w as [|a w].
      * split; [exact IHc | exact IHf].
      * split; [cbn [List.concat]; now rewrite IHc|].
        intros x [<-|Hx]; [now apply Hrevw | now apply IHf].
    + assert (Hcw : forall x, In x (c :: w) -> isSpace x = false).
      { intros x [<-|Hx]; auto. }
      destruct (IH (c :: w) Hcw) as [IHc IHf]. split; [|exact IHf].
      rewrite IHc. cbn [rev]. now rewrite <- app_assoc.
Qed.

(** *** The shape of a sanitised string *)

Lemma wellSpaced_spaces s : forall b c,
  wellSpaced b s = true -> In c s -> isSpace c = true -> c = 32.
Proof.
  induction s as [|a rest IH]; intros b c H Hin Hc; [destruct Hin|].
  cbn [wellSpaced] in H. destruct Hin as [<-|Hin].
  - rewrite Hc in H. apply andb_true_iff in H as [H _].
    apply andb_true_iff in H as [H _]. now apply N.eqb_eq in H.
  - destruct (isSpace a); [|eauto].
    apply andb_true_iff in H as [_ H]. eauto.
Qed.

Lemma wellSpaced_isolated pre : forall b x y post,
  wellSpaced b (pre ++ x :: y :: post) = true ->
  isSpace x = true -> isSpace y = false.
Proof.
  induction pre as [|a pre IH]; intros b x y post H Hx.
  - cbn [app wellSpaced] in H. rewrite Hx in H.
    apply andb_true_iff in H as [_ H].
    destruct (isSpace y); [|reflexivity].
    rewrite andb_false_r in H. discriminate.
  - cbn [app wellSpaced] in H. destruct (isSpace a).
    + apply andb_true_iff in H as [_ H]. eauto.
    + eauto.
Qed.

(** X22.  [sanitizeValue] turns a string into its words, the maximal runs
    of characters that are not white space, joined by single spaces; the
    words hold exactly the characters of the string that are not white
    space, in their order.  A value that is not a string is returned as it
    is. *)
Theorem sanitized_string_is_its_words_joined s :
  sanitizeValue (Text s) = Text (unwords (words s)) /\
  (forall w, In w (words s) -> w <> [] /\ Forall (fun c => isSpace c = false) w) /\
  List.concat (words s) = filter (fun c => negb (isSpace c)) s /\
  (forall v, sanitizeValue (NotText v) = NotText v).
Proof.
  destruct (wordsFrom_chars s [] ltac:(intros ? [])) as [Hc Hf].
  split; [|split; [|split]].
  - cbn [sanitizeValue]. f_equal. fold (sanitizeText s).
    rewrite sanitizeText_short.
    apply (sanitize_wordsFrom s []). intros ? [].
  - intros w Hw. split; [now apply (wordsFrom_nonempty s [])|now apply Hf].
  - exact Hc.
  - reflexivity.
Qed.

(** X23.  Sanitising a value that has been sanitised changes nothing. *)
Theorem sanitizing_twice_is_sanitizing_once value :
  sanitizeValue (sanitizeValue value) = sanitizeValue value.
Proof.
  destruct value as [s|v]; [|reflexivity].
  cbn [sanitizeValue]. f_equal. fold (sanitizeText s).
  fold (sanitizeText (sanitizeText s)).
  pose proof (sanitizeText_wellSpaced s) as Hws.
  rewrite (sanitizeText_short (sanitizeText s)).
  rewrite (collapse_fixed _ true Hws).
  rewrite sanitizeText_short. apply trimEnd_idempotent.
Qed.

(** X24.  The first of the two replacements of [sanitizeValue], the one
    of the runs of line breaks and tabs, has no effect on the result: the
    second replacement and [trim] alone give the same string. *)
Theorem first_replacement_is_redundant s :
  sanitizeValue (Text s) = Text (trim (replaceRuns isSpace s)).
Proof.
  cbn [sanitizeValue]. unfold replaceRuns. now rewrite collapse_redundant by auto.
Qed.

(** X25.  In a sanitised string every white-space character is U+0020, no
    two of them are adjacent, and the string neither begins nor ends with
    one; in particular it holds no line break and no tab. *)
Theorem sanitized_string_is_tidy s :
  let r := sanitizeText s in
  sanitizeValue (Text s) = Text r /\
  (forall c, In c r -> isSpace c = true -> c = 32) /\
  (forall c, In c r -> isBreakOrTab c = false) /\
  (forall pre x y post, r = pre ++ x :: y :: post ->
                        isSpace x = true -> isSpace y = false) /\
  (forall c rest, r = c :: rest -> isSpace c = false) /\
  (forall pre c, r = pre ++ [c] -> isSpace c = false).
Proof.
  cbv zeta. pose proof (sanitizeText_wellSpaced s) as Hws.
  split; [reflexivity|]. split; [|split; [|split; [|split]]].
  - intros c Hin Hc. eapply wellSpaced_spaces; eauto.
  - intros c Hin. destruct (isBreakOrTab c) eqn:Hlb; [|reflexivity].
    pose proof (wellSpaced_spaces _ _ _ Hws Hin (breakOrTab_is_space c Hlb)) as H32.
    subst c. discriminate.
  - intros pre x y post Hr Hx. rewrite Hr in Hws.
    eapply wellSpaced_isolated; eauto.
  - intros c rest Hr. rewrite Hr in Hws. cbn [wellSpaced] in Hws.
    destruct (isSpace c); [|reflexivity].
    rewrite andb_false_r in Hws. discriminate.
  - intros pre c Hr. rewrite sanitizeText_short in Hr.
    eapply trimEnd_last; eauto.
Qed.

(** "  a\r\n\tb  c " becomes "a b c". *)
Example sanitize_sample :
  sanitizeValue (Text [32; 32; 97; 13; 10; 9; 98; 32; 160; 99; 32])
  = Text [97; 32; 98; 32; 99].
Proof. reflexivity. Qed.

End SanitizeFacts.

(* ================================================================== *)
(** ** The table of the raindrops                                      *)
(* ================================================================== *)

Module IndexFacts.

Import Collections Graph Index JsFacts GraphFacts.

Local Open Scope list_scope.

(** *** Sets of strings *)

Lemma strset_has_in k s : StrSet.has k s = true <-> In k s.
Proof.
  unfold StrSet.has. rewrite existsb_exists. split.
  - intros (x & Hx & E). apply String.eqb_eq in E. now subst.
  - intros H. exists k. split; [assumption | apply String.eqb_refl].
Qed.

Lemma strset_in_add k x s : In k (StrSet.add x s) <-> k = x \/ In k s.
Proof.
  unfold StrSet.add. destruct (StrSet.has x s) eqn:H.
  - apply strset_has_in in H. split; [auto|]. intros [->|Hk]; auto.
  - rewrite in_app_iff. cbn. split; [intros [Hk|[<-|[]]]; auto|].
    intros [->|Hk]; auto.
Qed.

Lemma strset_nodup_add x s : NoDup s -> NoDup (StrSet.add x s).
Proof.
  intros Hnd. unfold StrSet.add. destruct (StrSet.has x s) eqn:H; [assumption|].
  apply NoDup_app; [assumption | repeat constructor; intros [] |].
  intros k Hk [<-|[]]. apply strset_has_in in Hk. congruence.
Qed.

Lemma strset_in_delete k x s : In k (StrSet.delete x s) <-> In k s /\ k <> x.
Proof.
  unfold StrSet.delete. rewrite filter_In, negb_true_iff, String.eqb_neq. tauto.
Qed.

Section Headers.
Variable objectKeys : JsObject.t -> list string.

Lemma addKeys_spec keys : forall s,
  let s' := fold_left (fun headerSet key => StrSet.add key headerSet) keys s in
  (NoDup s -> NoDup s') /\ forall k, In k s' <-> In k keys \/ In k s.
Proof.
  induction keys as [|x keys IH]; intros s; cbv zeta; cbn [fold_left].
  - split; [auto|]. intros k. cbn. tauto.
  - destruct (IH (StrSet.add x s)) as [IHn IHi]. split.
    + intros Hnd. now apply IHn, strset_nodup_add.
    + intros k. rewrite IHi, strset_in_add. cbn. split; intros H; intuition auto.
Qed.

Lemma addRows_spec rows : forall s,
  let s' := fold_left
              (fun headerSet row =>
                 fold_left (fun headerSet key => StrSet.add key headerSet)
                           (objectKeys row) headerSet)
              rows s in
  (NoDup s -> NoDup s') /\
  forall k, In k s' <-> (exists row, In row rows /\ In k (objectKeys row)) \/ In k s.
Proof.
  induction rows as [|row rows IH]; intros s; cbv zeta; cbn [fold_left].
  - split; [auto|]. intros k. split; [auto|]. intros [(r & [] & _)|H]; auto.
  - destruct (addKeys_spec (objectKeys row) s) as [Kn Ki].
    destruct (IH (fold_left (fun headerSet key => StrSet.add key headerSet)
                            (objectKeys row) s)) as [IHn IHi].
    split; [auto|]. intros k. rewrite IHi, Ki. split.
    + intros [(r & Hr & Hk)|[Hk|Hk]]; auto.
      * left. exists r. split; [now right | assumption].
      * left. exists row. split; [now left | assumption].
    + intros [(r & [<-|Hr] & Hk)|Hk]; auto.
      left. exists r. auto.
Qed.

Lemma deleteAll_spec cols : forall s,
  let s' := fold_left (fun headerSet col => StrSet.delete col headerSet) cols s in
  (NoDup s -> NoDup s') /\ forall k, In k s' <-> In k s /\ ~ In k cols.
Proof.
  induction cols as [|c cols IH]; intros s; cbv zeta; cbn [fold_left].
  - split; [auto|]. intros k. cbn. tauto.
  - destruct (IH (StrSet.delete c s)) as [IHn IHi]. split.
    + intros Hnd. apply IHn. unfold StrSet.delete. now apply NoDup_filter.
    + intros k. rewrite IHi, strset_in_delete. cbn. split; intros H.
      * destruct H as [[H1 H2] H3]. split; [assumption|]. intros [<-|H4]; auto.
      * destruct H as [H1 H2]. repeat split; auto.
Qed.

Lemma customColumns_nodup : NoDup customColumns.
Proof.
  unfold customColumns.
  repeat (apply NoDup_cons; [cbn; intuition discriminate|]). apply NoDup_nil.
Qed.

Lemma headers_spec raindrops :
  exists native,
    raindropHeaders objectKeys raindrops = native ++ customColumns /\
    NoDup native /\
    forall k, In k native
              <-> (exists row, In row raindrops /\ In k (objectKeys row))
                  /\ ~ In k customColumns.
Proof.
  unfold raindropHeaders.
  destruct (addRows_spec raindrops StrSet.empty) as [An Ai].
  destruct (deleteAll_spec customColumns
              (fold_left
                 (fun headerSet row =>
                    fold_left (fun headerSet key => StrSet.add key headerSet)
                              (objectKeys row) headerSet)
                 raindrops StrSet.empty)) as [Dn Di].
  eexists. split; [reflexivity|]. split.
  - apply Dn, An. constructor.
  - intros k. rewrite Di, Ai. split.
    + intros [[H|[]] Hc]. auto.
    + intros [H Hc]. auto.
Qed.

End Headers.

(** X26.  The header row that [writeRaindropsCsv] gives the CSV writer
    names every column once; it ends with the five metadata columns, in
    their fixed order, after the other columns, which are exactly the
    other keys of the records; every key of every record is a column.
    With no record no file is written. *)
Theorem metadata_columns_come_last objectKeys raindrops :
  exists native,
    raindropHeaders objectKeys raindrops = native ++ customColumns /\
    NoDup (raindropHeaders objectKeys raindrops) /\
    (forall k, In k native
               <-> (exists row, In row raindrops /\ In k (objectKeys row))
                   /\ ~ In k customColumns) /\
    (forall row key, In row raindrops -> In key (objectKeys row) ->
                     In key (raindropHeaders objectKeys raindrops)) /\
    (forall file, writeRaindropsCsv objectKeys file [] = NothingWritten).
Proof.
  destruct (headers_spec objectKeys raindrops) as (native & Hh & Hnd & Hin).
  exists native. split; [exact Hh|]. split; [|split; [exact Hin|split]].
  - rewrite Hh. apply NoDup_app; [assumption | apply customColumns_nodup |].
    intros k Hk Hc. apply Hin in Hk. tauto.
  - intros row key Hrow Hkey. rewrite Hh. apply in_or_app.
    destruct (in_dec string_dec key customColumns) as [Hc|Hc]; [now right|].
    left. apply Hin. split; [eauto | assumption].
  - reflexivity.
Qed.

End IndexFacts.
